(** * rest_framework_openapi_gen: a shallow embedding and its properties

    The definitions follow the package layout:
    - [PyStr]: the [str] built-ins the sources call ([replace], [split],
      [join], [startswith], [endswith], slicing, [title]);
    - [JsonPointer]: [json_pointer.py];
    - [Dict]: insertion-ordered dictionaries;
    - [Parser]: the data classes and the integer validator of [parser.py];
    - [NamingConv]: [renderer/naming_conv.py];
    - [Models]: [renderer/models.py] and the [IdentitySet] of [utils.py];
    - [Renderer]: [renderer/__init__.py];
    - [Codegen]: [renderer/codegen.py];
    - [Samples]: small contracts the statements are evaluated on.
    The properties come after, one module of facts per subject.

    Python [str] values are modelled as [string] (sequences of [ascii]
    characters); Python exceptions as an error type threaded through a
    small error monad; mutable objects as entries of an explicit store. *)

From Stdlib Require Import ZArith Lia String Ascii List Bool DecimalString.
From Stdlib Require Import Sorting.Sorted Sorting.Permutation.
From Stdlib Require Floats.SpecFloat.
From stdpp Require Import base option list gmap strings.

Set Warnings "-register-all".

Local Open Scope string_scope.
Local Open Scope list_scope.

(* ===================================================================== *)
(** * Error monad *)
(* ===================================================================== *)

Inductive result (E A : Type) : Type :=
| Ok (a : A)
| Raise (e : E).
Arguments Ok {E A} a.
Arguments Raise {E A} e.

Definition rbind {E A B} (m : result E A) (k : A -> result E B) : result E B :=
  match m with
  | Ok a => k a
  | Raise e => Raise e
  end.

Declare Scope result_scope.
Delimit Scope result_scope with result.
Notation "'let!' x ':=' m 'in' k" := (rbind m (fun x => k))
  (at level 10, x name, m at level 100, k at level 200) : result_scope.
Notation "'let!' ' p ':=' m 'in' k" := (rbind m (fun x => let 'p := x in k))
  (at level 10, p pattern, m at level 100, k at level 200) : result_scope.
Local Open Scope result_scope.

Definition is_ok {E A} (m : result E A) : bool :=
  match m with Ok _ => true | Raise _ => false end.

(* ===================================================================== *)
(** * Python [str] built-ins *)
(* ===================================================================== *)

Module PyStr.

(** [s1 + s2]. *)
Fixpoint cat (s1 s2 : string) : string :=
  match s1 with
  | EmptyString => s2
  | String c s1' => String c (cat s1' s2)
  end.

(** [sep.join(parts)]. *)
Fixpoint join (sep : string) (parts : list string) : string :=
  match parts with
  | [] => ""
  | [p] => p
  | p :: rest => cat p (cat sep (join sep rest))
  end.

(** ["".join(parts)]. *)
Definition concat (parts : list string) : string := join "" parts.

(** [p] is an initial segment of [s]. *)
Fixpoint is_prefix (p s : string) : bool :=
  match p with
  | EmptyString => true
  | String a p' =>
      match s with
      | EmptyString => false
      | String b s' => Ascii.eqb a b && is_prefix p' s'
      end
  end.

(** [s.startswith(p)]. *)
Definition startswith (s p : string) : bool := is_prefix p s.

(** The last character of a string, [None] on the empty string. *)
Fixpoint last_char (s : string) : option ascii :=
  match s with
  | EmptyString => None
  | String c EmptyString => Some c
  | String _ s' => last_char s'
  end.

(** [s.endswith(c)] for a one-character suffix [c]. *)
Definition endswith_char (s : string) (c : ascii) : bool :=
  match last_char s with
  | Some d => Ascii.eqb d c
  | None => false
  end.

(** [s[:-1]]: everything but the last character ([""] stays [""]). *)
Fixpoint drop_last (s : string) : string :=
  match s with
  | EmptyString => EmptyString
  | String _ EmptyString => EmptyString
  | String c s' => String c (drop_last s')
  end.

(** [s[1:]]. *)
Definition drop_first (s : string) : string :=
  match s with
  | EmptyString => EmptyString
  | String _ s' => s'
  end.

(** [s[1:-1]]. *)
Definition strip_ends (s : string) : string := drop_last (drop_first s).

(** [s.replace(old, new)] for a non-empty [old]: a left-to-right scan for
    non-overlapping occurrences.  [skip] counts the characters of a matched
    occurrence that are still to be passed over. *)
Fixpoint replace_from (old new : string) (skip : nat) (s : string) : string :=
  match s with
  | EmptyString => EmptyString
  | String c s' =>
      match skip with
      | S k => replace_from old new k s'
      | O =>
          if is_prefix old s
          then cat new (replace_from old new (String.length old - 1) s')
          else String c (replace_from old new 0 s')
      end
  end.

Definition replace (s old new : string) : string := replace_from old new 0 s.

(** [s.split(sep)] for a one-character separator, the only form the sources
    use ([split("/")], [split("_")]): the pieces between the separators,
    empty pieces kept. *)
Fixpoint split (sep : ascii) (s : string) : list string :=
  match s with
  | EmptyString => [EmptyString]
  | String c s' =>
      if Ascii.eqb c sep then EmptyString :: split sep s'
      else match split sep s' with
           | piece :: rest => String c piece :: rest
           | [] => [String c EmptyString]
           end
  end.

Definition is_upper (c : ascii) : bool :=
  let n := nat_of_ascii c in (65 <=? n)%nat && (n <=? 90)%nat.
Definition is_lower (c : ascii) : bool :=
  let n := nat_of_ascii c in (97 <=? n)%nat && (n <=? 122)%nat.
Definition to_upper (c : ascii) : ascii :=
  if is_lower c then ascii_of_nat (nat_of_ascii c - 32) else c.
Definition to_lower (c : ascii) : ascii :=
  if is_upper c then ascii_of_nat (nat_of_ascii c + 32) else c.

(** [s.title()] on ASCII text: a cased character is upper-cased when the
    previous character is uncased (or there is none) and lower-cased
    otherwise. *)
Fixpoint title_from (prev_cased : bool) (s : string) : string :=
  match s with
  | EmptyString => EmptyString
  | String c s' =>
      if is_upper c || is_lower c
      then String (if prev_cased then to_lower c else to_upper c) (title_from true s')
      else String c (title_from false s')
  end.

Definition title (s : string) : string := title_from false s.

(** Replacing each character by a string; the shape [replace] takes for a
    one-character pattern. *)
Fixpoint expand (f : ascii -> string) (s : string) : string :=
  match s with
  | EmptyString => EmptyString
  | String c s' => cat (f c) (expand f s')
  end.

End PyStr.

(* ===================================================================== *)
(** * json_pointer.py *)
(* ===================================================================== *)

Module JsonPointer.
Import PyStr.

(** [JSONPointer.path]: a tuple of [str].  Equality and hashing of a
    pointer are those of its path, so a pointer is modelled by the path;
    the per-parent [_cache] only interns objects and is left out. *)
Definition JSONPointer : Type := list string.

Definition quote_json_pointer (v : string) : string :=
  replace (replace v "~" "~0") "/" "~1".

Definition unquote_json_pointer (v : string) : string :=
  replace (replace v "~1" "/") "~0" "~".

(** [JSONPointer.__truediv__] / [new_sub_context]. *)
Definition new_sub_context (p : JSONPointer) (c : string) : JSONPointer := p ++ [c].

(** [JSONPointer.__str__]; every segment of the path is a [str], so the
    [f"[{c}]"] branch is never taken. *)
Definition to_str (p : JSONPointer) : string :=
  match p with
  | [] => "/"
  | _ => concat (map (fun c => cat "/" (quote_json_pointer c)) p)
  end.

Definition nonempty (c : string) : bool :=
  match c with EmptyString => false | _ => true end.

Section FromString.
  (** [urllib.parse.unquote], an external collaborator. *)
Variable url_unquote : string -> string.

  (** [JSONPointer.from_string]. *)
Definition from_string (v : string) : JSONPointer :=
    let v := match v with
             | String "#" rest => url_unquote rest
             | _ => v
             end in
    map unquote_json_pointer (List.filter nonempty (split "/" v)).
End FromString.

(** The character-wise escaping performed by [quote_json_pointer]. *)
Definition quote_char (c : ascii) : string :=
  if Ascii.eqb c "~" then "~0"
  else if Ascii.eqb c "/" then "~1"
  else String c "".

(** After the first pass of [unquote_json_pointer] only [~0] is left. *)
Definition half_quote_char (c : ascii) : string :=
  if Ascii.eqb c "~" then "~0" else String c "".

(** One rendered segment of [__str__]. *)
Definition segment_text (c : string) : string := cat "/" (quote_json_pointer c).

End JsonPointer.

(* ===================================================================== *)
(** * Insertion-ordered dictionaries *)
(* ===================================================================== *)

(** A Python [dict] whose iteration order matters: an association list in
    insertion order, without repeated keys. *)
Module Dict.
Section Dict.
Context {K V : Type} `{EqDecision K}.

Definition t : Type := list (K * V).

  (** [d.get(k)]. *)
Fixpoint get (d : t) (k : K) : option V :=
    match d with
    | [] => None
    | (k', v) :: rest => if decide (k' = k) then Some v else get rest k
    end.

  (** [d[k] = v]: an existing key keeps its position, a new one goes last. *)
Fixpoint set (d : t) (k : K) (v : V) : t :=
    match d with
    | [] => [(k, v)]
    | (k', v') :: rest =>
        if decide (k' = k) then (k', v) :: rest else (k', v') :: set rest k v
    end.

Definition keys (d : t) : list K := map fst d.
Definition values (d : t) : list V := map snd d.
End Dict.
Arguments t : clear implicits.
End Dict.

(* ===================================================================== *)
(** * parser.py *)
(* ===================================================================== *)

Module Parser.
Import JsonPointer.

Inductive ParameterPlace := PATH | QUERY | FORM_DATA | BODY.

Inductive JSONType := NUMBER | INTEGER | STRING | BOOLEAN | ARRAY | OBJECT.

Inductive HttpVerb := GET | POST | PUT | PATCH | DELETE.

#[global] Instance JSONType_eq_dec : EqDecision JSONType.
Proof. solve_decision. Defined.
#[global] Instance HttpVerb_eq_dec : EqDecision HttpVerb.
Proof. solve_decision. Defined.

Record SchemaRef := {
  ref_ctx : JSONPointer;
  ref : JSONPointer;
}.

(** [Schema] and its subclass [Definition]: [def_name] is [Some name] on an
    instance of [Definition] and [None] on a plain [Schema]. *)
Inductive Schema := mkSchema {
  ctx : JSONPointer;
  type_ : JSONType;
  description : option string;
  format : option string;
  properties : option (Dict.t string (Schema + SchemaRef));
  required : option (list string);
  items : option (Schema + SchemaRef);
  def_name : option string;
}.

Definition is_Definition (s : Schema) : bool :=
  match def_name s with Some _ => true | None => false end.

(** [Definition(name=name, **vars(schema))]. *)
Definition as_Definition (name : string) (s : Schema) : Schema :=
  mkSchema (ctx s) (type_ s) (description s) (format s) (properties s)
           (required s) (items s) (Some name).

(** [Parameter] ([Parameter] is a reserved word here). *)
Record Param := {
  p_ctx : JSONPointer;
  p_name : string;
  p_in_ : ParameterPlace;
  p_schema : option (Schema + SchemaRef);
  p_description : option string;
  p_type_ : option JSONType;
  p_required : bool;
}.

Record Response := {
  r_ctx : JSONPointer;
  status_code : string;
  r_schema : option (Schema + SchemaRef);
  r_description : option string;
}.

Record Verb := {
  v_ctx : JSONPointer;
  verb : HttpVerb;
  tags : list string;
  parameters : list Param;
  responses : Dict.t string Response;
  function_name : option string;
  v_description : option string;
  operation_id : option string;
}.

Record Path := {
  path_ctx : JSONPointer;
  path : string;
  verbs : Dict.t HttpVerb Verb;
}.

Record OpenAPISpec := {
  spec_ctx : JSONPointer;
  definitions : Dict.t string Schema;
  paths : list Path;
}.

(** The values a loaded document is made of ([typing.Any] in the
    validators).  A [float] is an IEEE-754 value in the Standard Library's
    specification format. *)
Inductive PyValue :=
| PyNone
| PyBool (b : bool)
| PyInt (z : Z)
| PyFloat (f : SpecFloat.spec_float)
| PyStr (s : string)
| PyList (l : list PyValue)
| PyDict (d : list (PyValue * PyValue)).

(** The exceptions of the package, and the built-in ones its code lets
    escape.  [OutOfFuel] is the model's own: it stands for a recursion that
    the fuel given did not suffice for. *)
Inductive exn :=
| InvalidSchemaError (message : string) (got : option PyValue) (at_ctx : JSONPointer)
| UnresolvedRefError (p : JSONPointer)
| UnsupportedOpenAPISchema (message : option string)
| AssertionError
| ValueError
| OverflowError
| KeyError
| TypeError
| AttributeError
| OutOfFuel.

(** [isinstance(v, (int, float))]; [bool] is a subclass of [int]. *)
Definition is_int_or_float (v : PyValue) : bool :=
  match v with
  | PyBool _ | PyInt _ | PyFloat _ => true
  | _ => false
  end.

(** [int(f)] on a float: truncation towards zero; [ValueError] on a NaN,
    [OverflowError] on an infinity. *)
Definition int_of_float (f : SpecFloat.spec_float) : result exn Z :=
  match f with
  | SpecFloat.S754_zero _ => Ok 0%Z
  | SpecFloat.S754_infinity _ => Raise OverflowError
  | SpecFloat.S754_nan => Raise ValueError
  | SpecFloat.S754_finite s m e =>
      let magnitude :=
        if (0 <=? e)%Z then (Z.pos m * 2 ^ e)%Z
        else (Z.pos m / 2 ^ (- e))%Z in
      Ok (if s then (- magnitude)%Z else magnitude)
  end.

(** [int(v)] for the values that pass [isinstance(v, (int, float))]. *)
Definition py_int (v : PyValue) : result exn Z :=
  match v with
  | PyBool b => Ok (if b then 1%Z else 0%Z)
  | PyInt z => Ok z
  | PyFloat f => int_of_float f
  | _ => Raise ValueError
  end.

Definition validate_as_integer (ctx : JSONPointer) (v : PyValue) : result exn Z :=
  if negb (is_int_or_float v)
  then Raise (InvalidSchemaError "value must be an integer, got " (Some v) ctx)
  else py_int v.

(** ** The other validators and the getters *)

Definition validate_as_string (ctx : JSONPointer) (v : PyValue) : result exn string :=
  match v with
  | PyStr s => Ok s
  | _ => Raise (InvalidSchemaError "value must be a string, got " (Some v) ctx)
  end.

Definition validate_as_boolean (ctx : JSONPointer) (v : PyValue) : result exn bool :=
  match v with
  | PyBool b => Ok b
  | _ => Raise (InvalidSchemaError "value must be a boolean, got " (Some v) ctx)
  end.

(** The classes given as [class_], and what a validated element of each
    is. *)
Inductive PyClass := class_object | class_str | class_int | class_bool | class_dict.

Definition instance_of (t : PyClass) : Type :=
  match t with
  | class_str => string
  | class_int => Z
  | class_bool => bool
  | class_object | class_dict => PyValue
  end.

(** [find_scalar_validator]: [str], [int] and [bool] are keys of
    [SCALAR_VALIDATORS]; [object] and [dict] are not, and no class of
    their [__mro__] is ([dict] is a subclass of [Mapping] by registration
    only). *)
Definition find_scalar_validator (t : PyClass)
  : option (JSONPointer -> PyValue -> result exn (instance_of t)) :=
  match t with
  | class_str => Some validate_as_string
  | class_int => Some validate_as_integer
  | class_bool => Some validate_as_boolean
  | class_object => None
  | class_dict => None
  end.

(** [isinstance(v, collections.abc.Sequence)]: a [str] is a sequence. *)
Definition is_sequence (v : PyValue) : bool :=
  match v with
  | PyStr _ | PyList _ => true
  | _ => false
  end.

(** [isinstance(v, collections.abc.Mapping)]. *)
Definition is_mapping (v : PyValue) : bool :=
  match v with
  | PyDict _ => true
  | _ => false
  end.

(** What iterating a sequence yields: a [str] yields its characters. *)
Definition elements (v : PyValue) : list PyValue :=
  match v with
  | PyList l => l
  | PyStr s => map (fun c => PyStr (String c "")) (list_ascii_of_string s)
  | _ => []
  end.

(** [str(i)]. *)
Definition py_str_of_nat (i : nat) : string :=
  NilEmpty.string_of_uint (Nat.to_uint i).

(** [[validator(ctx / str(i), e) for i, e in enumerate(v)]], from index
    [i] on. *)
Fixpoint validate_elements {T} (validator : JSONPointer -> PyValue -> result exn T)
    (ctx : JSONPointer) (i : nat) (l : list PyValue) : result exn (list T) :=
  match l with
  | [] => Ok []
  | e :: rest =>
      let! x := validator (new_sub_context ctx (py_str_of_nat i)) e in
      let! xs := validate_elements validator ctx (S i) rest in
      Ok (x :: xs)
  end.

(** What [validate_as_array] returns for a class: the list of validated
    elements when the class has a validator, the value itself when not. *)
Definition array_of (class_ : PyClass) : Type :=
  match find_scalar_validator class_ with
  | Some _ => list (instance_of class_)
  | None => PyValue
  end.

(** [validate_as_array]; [class_ is object] and a class without validator
    both hand the value back. *)
Definition validate_as_array (ctx : JSONPointer) (class_ : PyClass) (v : PyValue)
  : result exn (array_of class_) :=
  if negb (is_sequence v)
  then Raise (InvalidSchemaError "value must be an array" None ctx)
  else
    match find_scalar_validator class_ as o
          return result exn (match o with
                             | Some _ => list (instance_of class_)
                             | None => PyValue
                             end) with
    | Some validator => validate_elements validator ctx 0 (elements v)
    | None => Ok v
    end.

(** [{k: validator(ctx / k, e) for k, e in v.items()}]; [ctx / k] raises
    [TypeError] on a key that is not a [str]. *)
Fixpoint validate_items {T} (validator : JSONPointer -> PyValue -> result exn T)
    (ctx : JSONPointer) (its : list (PyValue * PyValue)) (acc : Dict.t string T)
  : result exn (Dict.t string T) :=
  match its with
  | [] => Ok acc
  | (PyStr k, e) :: rest =>
      let! x := validator (new_sub_context ctx k) e in
      validate_items validator ctx rest (Dict.set acc k x)
  | _ :: _ => Raise TypeError
  end.

Definition object_of (class_ : PyClass) : Type :=
  match find_scalar_validator class_ with
  | Some _ => Dict.t string (instance_of class_)
  | None => PyValue
  end.

(** [v.items()]. *)
Definition py_items (v : PyValue) : result exn (list (PyValue * PyValue)) :=
  match v with
  | PyDict d => Ok d
  | _ => Raise AttributeError
  end.

Definition validate_as_object (ctx : JSONPointer) (class_ : PyClass) (v : PyValue)
  : result exn (object_of class_) :=
  if negb (is_mapping v)
  then Raise (InvalidSchemaError "value must be an object, got " (Some v) ctx)
  else
    match find_scalar_validator class_ as o
          return result exn (match o with
                             | Some _ => Dict.t string (instance_of class_)
                             | None => PyValue
                             end) with
    | Some validator =>
        let! its := py_items v in validate_items validator ctx its []
    | None => Ok v
    end.

(** The [default] argument of the getters. *)
Inductive Default := UNSPECIFIED | Given (v : PyValue).

(** The value under a [str] key of the items of a [dict] (whose keys are
    pairwise distinct); only a [str] key is equal to a [str]. *)
Fixpoint dict_get (d : list (PyValue * PyValue)) (name : string) : option PyValue :=
  match d with
  | [] => None
  | (PyStr k, v) :: rest => if String.eqb k name then Some v else dict_get rest name
  | _ :: rest => dict_get rest name
  end.

(** [m.get(prop_name, UNSPECIFIED)], [None] standing for [UNSPECIFIED];
    [AttributeError] on a value that has no [get]. *)
Definition py_get (m : PyValue) (prop_name : string) : result exn (option PyValue) :=
  match m with
  | PyDict d => Ok (dict_get d prop_name)
  | _ => Raise AttributeError
  end.

(** The opening the getters share: the value of the property, or the
    default when the property is absent. *)
Definition get_or_default (ctx : JSONPointer) (m : PyValue) (prop_name : string)
    (default : Default) : result exn PyValue :=
  let sub_ctx := new_sub_context ctx prop_name in
  let! v := py_get m prop_name in
  match v with
  | Some v => Ok v
  | None =>
      match default with
      | UNSPECIFIED => Raise (InvalidSchemaError "no such property" None sub_ctx)
      | Given d => Ok d
      end
  end.

Definition get_as_str (ctx : JSONPointer) (m : PyValue) (prop_name : string)
    (default : Default) : result exn (option string) :=
  let sub_ctx := new_sub_context ctx prop_name in
  let! v := get_or_default ctx m prop_name default in
  match v with
  | PyNone => Ok None
  | _ => let! s := validate_as_string sub_ctx v in Ok (Some s)
  end.

Definition get_as_bool (ctx : JSONPointer) (m : PyValue) (prop_name : string)
    (default : Default) : result exn (option bool) :=
  let sub_ctx := new_sub_context ctx prop_name in
  let! v := get_or_default ctx m prop_name default in
  match v with
  | PyNone => Ok None
  | _ => let! b := validate_as_boolean sub_ctx v in Ok (Some b)
  end.

Definition get_as_array (ctx : JSONPointer) (m : PyValue) (prop_name : string)
    (class_ : PyClass) (default : Default) : result exn (option (array_of class_)) :=
  let sub_ctx := new_sub_context ctx prop_name in
  let! v := get_or_default ctx m prop_name default in
  match v with
  | PyNone => Ok None
  | _ => let! a := validate_as_array sub_ctx class_ v in Ok (Some a)
  end.

Definition get_as_object (ctx : JSONPointer) (m : PyValue) (prop_name : string)
    (class_ : PyClass) (default : Default) : result exn (option (object_of class_)) :=
  let sub_ctx := new_sub_context ctx prop_name in
  let! v := get_or_default ctx m prop_name default in
  match v with
  | PyNone => Ok None
  | _ => let! o := validate_as_object sub_ctx class_ v in Ok (Some o)
  end.

(** ** Building the items of a contract *)

(** [JSONType(x)], [ParameterPlace(x)]: the member of that value, or
    [ValueError]. *)
Definition JSONType_values : list (string * JSONType) :=
  [ ("number", NUMBER); ("integer", INTEGER); ("string", STRING);
    ("boolean", BOOLEAN); ("array", ARRAY); ("object", OBJECT) ].

Definition ParameterPlace_values : list (string * ParameterPlace) :=
  [ ("path", PATH); ("query", QUERY); ("formData", FORM_DATA); ("body", BODY) ].

Definition enum_of_value {E} (values : list (string * E)) (x : option string)
  : result exn E :=
  match x with
  | Some x =>
      match Dict.get values x with
      | Some member => Ok member
      | None => Raise ValueError
      end
  | None => Raise ValueError
  end.

(** The address of a schema or of a reference to one. *)
Definition address (s : Schema + SchemaRef) : JSONPointer :=
  match s with
  | inl schema => ctx schema
  | inr r => ref_ctx r
  end.

Section BuildSchema.
(** [urllib.parse.unquote], used by [JSONPointer.from_string]. *)
Variable url_unquote : string -> string.

Section Body.
(** The recursive calls of [resolve_schema]. *)
Variable resolve_schema_rec : JSONPointer -> PyValue -> result exn (Schema + SchemaRef).

(** [{k: resolve_schema(ctx / k, validate_as_object(ctx / k, object, v))
    for k, v in prop_repr_map.items()}]. *)
Fixpoint build_properties (ctx : JSONPointer) (its : list (PyValue * PyValue))
    (acc : Dict.t string (Schema + SchemaRef))
  : result exn (Dict.t string (Schema + SchemaRef)) :=
  match its with
  | [] => Ok acc
  | (PyStr k, v) :: rest =>
      let! m := validate_as_object (new_sub_context ctx k) class_object v in
      let! s := resolve_schema_rec (new_sub_context ctx k) m in
      build_properties ctx rest (Dict.set acc k s)
  | _ :: _ => Raise TypeError
  end.

(** [build_schema_from_repr]; [name] is [None] for the factory [Schema] and
    the [name] keyword for the factory [Definition]. *)
Definition build_schema_from_repr_body (ctx : JSONPointer) (schema_repr : PyValue)
    (name : option string) : result exn Schema :=
  let! prop_repr_map :=
    get_as_object ctx schema_repr "properties" class_object (Given PyNone) in
  let! items_repr_map :=
    get_as_object ctx schema_repr "items" class_object (Given PyNone) in
  let! description := get_as_str ctx schema_repr "description" (Given PyNone) in
  let! type_value :=
    get_as_str ctx schema_repr "type"
      (match prop_repr_map with
       | Some _ => Given (PyStr "object")
       | None =>
           match items_repr_map with
           | Some _ => Given (PyStr "array")
           | None => UNSPECIFIED
           end
       end) in
  let! type_ := enum_of_value JSONType_values type_value in
  let! format := get_as_str ctx schema_repr "format" (Given PyNone) in
  let! properties :=
    match prop_repr_map with
    | Some m =>
        let! its := py_items m in
        let! d := build_properties ctx its [] in
        Ok (Some d)
    | None => Ok None
    end in
  let! required := get_as_array ctx schema_repr "required" class_str (Given PyNone) in
  let! items :=
    match items_repr_map with
    | Some m =>
        let! s := resolve_schema_rec (new_sub_context ctx "items") m in
        Ok (Some s)
    | None => Ok None
    end in
  Ok (mkSchema ctx type_ description format properties required items name).
End Body.

(** [resolve_schema], the recursion through [build_schema_from_repr]
    bounded by [fuel]. *)
Fixpoint resolve_schema (fuel : nat) (ctx : JSONPointer) (schema_repr : PyValue)
  : result exn (Schema + SchemaRef) :=
  match fuel with
  | O => Raise OutOfFuel
  | S fuel =>
      let! ref := get_as_str ctx schema_repr "$ref" (Given PyNone) in
      match ref with
      | Some ref => Ok (inr {| ref_ctx := ctx; ref := from_string url_unquote ref |})
      | None =>
          let! s := build_schema_from_repr_body (resolve_schema fuel)
                      ctx schema_repr None in
          Ok (inl s)
      end
  end.

Definition build_schema_from_repr (fuel : nat) (ctx : JSONPointer)
    (schema_repr : PyValue) (name : option string) : result exn Schema :=
  build_schema_from_repr_body (resolve_schema fuel) ctx schema_repr name.

Definition build_definition_from_repr (fuel : nat) (ctx : JSONPointer)
    (name : string) (definition_repr : PyValue) : result exn Schema :=
  build_schema_from_repr fuel ctx definition_repr (Some name).




(** The [Parameter] that [build_parameter_from_repr] builds, with the
    fields as the getters give them: [name] and [required] are [None] on
    an explicit null of the document. *)
Record ParsedParameter := {
  pp_ctx : JSONPointer;
  pp_name : option string;
  pp_in_ : ParameterPlace;
  pp_type_ : JSONType;
  pp_schema : option (Schema + SchemaRef);
  pp_description : option string;
  pp_required : option bool;
}.

Definition build_parameter_from_repr (fuel : nat) (ctx : JSONPointer)
    (parameter_repr : PyValue) : result exn ParsedParameter :=
  let! schema_repr :=
    get_as_object ctx parameter_repr "schema" class_object (Given PyNone) in
  let! name := get_as_str ctx parameter_repr "name" UNSPECIFIED in
  let! in_value := get_as_str ctx parameter_repr "in" UNSPECIFIED in
  let! in_ := enum_of_value ParameterPlace_values in_value in
  let! type_value := get_as_str ctx parameter_repr "type" (Given PyNone) in
  let! type_ := enum_of_value JSONType_values type_value in
  let! schema :=
    match schema_repr with
    | Some m =>
        let! s := resolve_schema fuel (new_sub_context ctx "schema") m in
        Ok (Some s)
    | None => Ok None
    end in
  let! description := get_as_str ctx parameter_repr "description" (Given PyNone) in
  let! required := get_as_bool ctx parameter_repr "required" (Given (PyBool true)) in
  Ok {| pp_ctx := ctx; pp_name := name; pp_in_ := in_; pp_type_ := type_;
        pp_schema := schema; pp_description := description;
        pp_required := required |}.
End BuildSchema.

(** The nesting depth of a loaded value. *)
Fixpoint depth (v : PyValue) : nat :=
  match v with
  | PyList l => S (foldr (fun e n => Nat.max (depth e) n) 0 l)
  | PyDict d => S (foldr (fun kv n => Nat.max (depth (snd kv)) n) 0 d)
  | _ => 0
  end.

End Parser.

(* ===================================================================== *)
(** * renderer/naming_conv.py *)
(* ===================================================================== *)

Module NamingConv.
Import PyStr.

(** The truth value of a [str]. *)
Definition nonempty_string (s : string) : bool :=
  match s with EmptyString => false | _ => true end.

(** A tokenized identifier: [(starts_with_capital, tokens)]. *)
Definition tokens : Type := bool * list string.

(** [s.lower()] on ASCII text. *)
Fixpoint lower (s : string) : string :=
  match s with
  | EmptyString => EmptyString
  | String c s' => String (to_lower c) (lower s')
  end.



(** The alternatives of the pattern [(JSON|HTTPS|HTTP|XML|ID|[A-Z])] before
    the character class, in the order the pattern tries them. *)
Definition acronyms : list string := ["JSON"; "HTTPS"; "HTTP"; "XML"; "ID"].

(** The length of the match of the pattern at the start of [s], if any:
    the first acronym that is a prefix of [s], else one capital letter. *)
Definition match_length (s : string) : option nat :=
  match List.find (fun a => is_prefix a s) acronyms with
  | Some a => Some (String.length a)
  | None =>
      match s with
      | String c _ => if is_upper c then Some 1 else None
      | EmptyString => None
      end
  end.

(** [m.span(0) for m in re.finditer(pattern, ident)]: the non-overlapping
    matches from left to right.  [pos] is the index of the head of [s] in
    the identifier and [skip] the number of characters of the current match
    still to pass over. *)
Fixpoint finditer_from (pos skip : nat) (s : string) : list (nat * nat) :=
  match s with
  | EmptyString => []
  | String _ s' =>
      match skip with
      | S k => finditer_from (S pos) k s'
      | O =>
          match match_length s with
          | Some n => (pos, pos + n) :: finditer_from (S pos) (n - 1) s'
          | None => finditer_from (S pos) 0 s'
          end
      end
  end.

Definition finditer (ident : string) : list (nat * nat) := finditer_from 0 0 ident.

(** [ident[a:b]] for [a <= b]. *)
Definition slice (ident : string) (a b : nat) : string :=
  String.substring a (b - a) ident.

(** The variables of the loop of [tokenize_camel_case_identifier]. *)
Record CamelState := {
  cs_s : nat;
  cs_starts_with_capital : bool;
  cs_seq : list string;
  cs_keep : string;
}.

(** The body of [for m in re.finditer(...)]. *)
Definition camel_step (ident : string) (st : CamelState) (span : nat * nat)
  : CamelState :=
  let st1 :=
    if (cs_s st <? fst span)%nat then
      {| cs_s := cs_s st;
         cs_starts_with_capital :=
           if Nat.eqb (cs_s st) 0 then true else cs_starts_with_capital st;
         cs_seq := cs_seq st
                     ++ [lower (cat (cs_keep st) (slice ident (cs_s st) (fst span)))];
         cs_keep := "" |}
    else st in
  let st2 :=
    if Nat.eqb (snd span - fst span) 1 then
      {| cs_s := cs_s st1;
         cs_starts_with_capital := cs_starts_with_capital st1;
         cs_seq := if nonempty_string (cs_keep st1)
                   then cs_seq st1 ++ [lower (cs_keep st1)] else cs_seq st1;
         cs_keep := slice ident (fst span) (snd span) |}
    else
      {| cs_s := cs_s st1;
         cs_starts_with_capital := cs_starts_with_capital st1;
         cs_seq := cs_seq st1 ++ [lower (slice ident (fst span) (snd span))];
         cs_keep := cs_keep st1 |} in
  {| cs_s := snd span;
     cs_starts_with_capital := cs_starts_with_capital st2;
     cs_seq := cs_seq st2;
     cs_keep := cs_keep st2 |}.

Definition tokenize_camel_case_identifier (ident : string) : tokens :=
  let st := foldl (camel_step ident)
              {| cs_s := 0; cs_starts_with_capital := false;
                 cs_seq := []; cs_keep := "" |}
              (finditer ident) in
  (cs_starts_with_capital st,
   if (cs_s st <? String.length ident)%nat || nonempty_string (cs_keep st)
   then cs_seq st ++ [lower (cat (cs_keep st) (slice ident (cs_s st) (String.length ident)))]
   else cs_seq st).

Definition tokenize_snake_case_identifier
    (ident : string) (starts_with_capital : bool) : tokens :=
  (starts_with_capital, split "_" ident).

Definition render_as_snake_case (t : tokens) : string := join "_" (snd t).

(** The generator of [render_as_camel_case], [i] being the index that
    [enumerate] gives the head of [l]. *)
Fixpoint camel_case_parts (starts_with_capital : bool) (i : nat) (l : list string)
  : list string :=
  match l with
  | [] => []
  | c :: rest =>
      (if negb (Nat.eqb i 0) || starts_with_capital then title c else c)
        :: camel_case_parts starts_with_capital (S i) rest
  end.

Definition render_as_camel_case (t : tokens) : string :=
  concat (camel_case_parts (fst t) 0 (snd t)).

End NamingConv.

(* ===================================================================== *)
(** * renderer/models.py and utils.py *)
(* ===================================================================== *)

Module Models.
Import JsonPointer Parser.

(** [id(obj)]: serializer descriptors are mutable objects compared by
    identity; an object is its index in the store of descriptors. *)
Definition ObjectID : Type := nat.

(** [utils.IdentitySet]: a [dict] from [id(item)] to [item].  The item is
    determined by its identity, so the set is the list of the identities in
    insertion order. *)
Definition IdentitySet : Type := list ObjectID.

(** [IdentitySet.add]: [self._items[id(item)] = item]. *)
Definition IdentitySet_add (s : IdentitySet) (item : ObjectID) : IdentitySet :=
  if bool_decide (item ∈ s) then s else s ++ [item].

(** [IdentitySet.__init__]: [{id(item): item for item in items}]. *)
Definition IdentitySet_init (items : list ObjectID) : IdentitySet :=
  foldl IdentitySet_add [] items.

(** [IdentitySet.__contains__]. *)
Definition IdentitySet_contains (s : IdentitySet) (item : ObjectID) : bool :=
  bool_decide (item ∈ s).

(** [IdentitySet.__len__]. *)
Definition IdentitySet_len (s : IdentitySet) : nat := length s.

(** [IdentitySet.discard]: [del self._items[id(item)]], which raises
    [KeyError] when the item is not in the set. *)
Definition IdentitySet_discard (s : IdentitySet) (item : ObjectID)
  : result exn IdentitySet :=
  if bool_decide (item ∈ s)
  then Ok (List.filter (fun x => negb (Nat.eqb x item)) s)
  else Raise KeyError.

Record SerializerDescriptor := {
  sd_schema : Schema;
  sd_name : string;
  owners : IdentitySet;
  many : option JSONPointer;
}.

Definition serializer_class_name (d : SerializerDescriptor) : string :=
  PyStr.cat (sd_name d) "Serializer".

Record VerbDescriptor := {
  vd_verb : Verb;
  serializer_descriptor : option ObjectID;
}.

Record Endpoint := {
  ep_path : Path;
  class_name : string;
  ep_verbs : list VerbDescriptor;
}.

End Models.

(* ===================================================================== *)
(** * renderer/__init__.py *)
(* ===================================================================== *)

Module Renderer.
Import PyStr JsonPointer Parser NamingConv Models.

(** The objects the graph construction mutates: the serializer descriptors
    allocated so far ([heap], indexed by identity) and the [serializers]
    dictionary shared by every [QualifierContext]. *)
Record Store := {
  heap : list SerializerDescriptor;
  serializers : Dict.t JSONPointer ObjectID;
}.

Definition empty_store : Store := {| heap := []; serializers := [] |}.

(** [QualifierContext]; its [serializers] field is the shared dictionary of
    the [Store]. *)
Record QualifierContext := {
  resolver : JSONPointer -> result exn Schema;
  owner : option ObjectID;
  pname : option string;
}.

(** [SerializerDescriptor(schema=..., name=..., many=...)] followed by
    [qctx.serializers[schema.ctx] = ...]: a new object, registered under the
    schema's address. *)
Definition new_descriptor (st : Store) (schema : Schema) (name : string)
    (many : option JSONPointer) : ObjectID * Store :=
  let me := length (heap st) in
  (me,
   {| heap := heap st ++ [ {| sd_schema := schema; sd_name := name;
                               owners := []; many := many |} ];
      serializers := Dict.set (serializers st) (ctx schema) me |}).

(** [me = qctx.serializers.get(schema.ctx)], creating the descriptor when
    there is none. *)
Definition get_or_create (st : Store) (schema : Schema) (name : string)
    (many : option JSONPointer) : ObjectID * Store :=
  match Dict.get (serializers st) (ctx schema) with
  | Some me => (me, st)
  | None => new_descriptor st schema name many
  end.

Definition add_owner_to (d : SerializerDescriptor) (o : ObjectID)
  : SerializerDescriptor :=
  {| sd_schema := sd_schema d; sd_name := sd_name d;
     owners := IdentitySet_add (owners d) o; many := many d |}.

(** [if qctx.owner is not None: me.owners.add(qctx.owner)]. *)
Definition register_owner (st : Store) (me : ObjectID) (o : option ObjectID)
  : Store :=
  match o with
  | None => st
  | Some o =>
      {| heap := alter (fun d => add_owner_to d o) me (heap st);
         serializers := serializers st |}
  end.

(** The store is consistent: [serializers] maps an address to a
    descriptor of a schema at that address, and every descriptor object is
    the one registered under the address of its schema. *)
Definition store_wf (st : Store) : Prop :=
  (forall k i, Dict.get (serializers st) k = Some i ->
     exists d, heap st !! i = Some d /\ ctx (sd_schema d) = k) /\
  (forall i d, heap st !! i = Some d ->
     Dict.get (serializers st) (ctx (sd_schema d)) = Some i).

(** [st'] keeps every descriptor of [st] under its identity and address,
    with its schema, name and collection marker, and with at least its
    owners. *)
Definition store_extends (st st' : Store) : Prop :=
  (forall i d, heap st !! i = Some d ->
     exists d', heap st' !! i = Some d' /\
       sd_schema d' = sd_schema d /\ sd_name d' = sd_name d /\
       many d' = many d /\ owners d ⊆ owners d') /\
  (forall k i, Dict.get (serializers st) k = Some i ->
     Dict.get (serializers st') k = Some i).

(** The shapes [qualify_child_schemas] registers a descriptor for. *)
Definition gets_descriptor (schema : Schema) : bool :=
  match type_ schema with
  | OBJECT => true
  | ARRAY => is_Definition schema
  | _ => false
  end.

(** The name given to a shape that is not a [Definition]: the source writes
    a plain string literal here (there is no [f] prefix), so the braces are
    never filled in. *)
Definition nested_name_literal : string := "{qctx.owner.name}_{qctx.pname}".

Section Qualify.
  (** The recursive call of [qualify_child_schemas]. *)
Variable qualify :
    QualifierContext -> string -> Schema -> Store -> result exn Store.

Definition qualify_child_schemas_inner_body
      (qctx : QualifierContext) (schema_or_ref : Schema + SchemaRef)
      (st : Store) : result exn Store :=
    match schema_or_ref with
    | inr r =>
        let! schema := resolver qctx (ref r) in
        match def_name schema with
        | Some name => qualify qctx name schema st
        | None => qualify qctx nested_name_literal schema st
        end
    | inl schema => qualify qctx nested_name_literal schema st
    end.

  (** [for pname, p in schema.properties.items(): ...]. *)
Fixpoint qualify_properties (qctx : QualifierContext) (me : ObjectID)
      (props : Dict.t string (Schema + SchemaRef)) (st : Store)
    : result exn Store :=
    match props with
    | [] => Ok st
    | (pn, p) :: rest =>
        let! st := qualify_child_schemas_inner_body
                     {| resolver := resolver qctx; owner := Some me;
                        pname := Some pn |} p st in
        qualify_properties qctx me rest st
    end.

Definition qualify_child_schemas_body
      (qctx : QualifierContext) (name : string) (schema : Schema) (st : Store)
    : result exn Store :=
    match type_ schema with
    | OBJECT =>
        let '(me, st) := get_or_create st schema name None in
        let st := register_owner st me (owner qctx) in
        match properties schema with
        | None => Raise AssertionError
        | Some props => qualify_properties qctx me props st
        end
    | ARRAY =>
        match items schema with
        | None => Raise AssertionError
        | Some it =>
            if is_Definition schema then
              let many := match it with
                          | inr r => ref r
                          | inl s => ctx s
                          end in
              let '(me, st) := get_or_create st schema name (Some many) in
              let st := register_owner st me (owner qctx) in
              qualify_child_schemas_inner_body
                {| resolver := resolver qctx; owner := Some me;
                   pname := pname qctx |} it st
            else
              qualify_child_schemas_inner_body qctx it st
        end
    | _ => Ok st
    end.
End Qualify.

(** [qualify_child_schemas]; the recursion goes through the resolver and is
    not structural, so it is bounded by [fuel]. *)
Fixpoint qualify_child_schemas (fuel : nat) (qctx : QualifierContext)
    (name : string) (schema : Schema) (st : Store) : result exn Store :=
  match fuel with
  | O => Raise OutOfFuel
  | S fuel => qualify_child_schemas_body (qualify_child_schemas fuel)
                qctx name schema st
  end.

Definition qualify_child_schemas_inner (fuel : nat) (qctx : QualifierContext)
    (schema_or_ref : Schema + SchemaRef) (st : Store) : result exn Store :=
  qualify_child_schemas_inner_body (qualify_child_schemas fuel)
    qctx schema_or_ref st.

(** ** Emission order *)

Section EvalWeights.
  (** The descriptor objects, by identity. *)
Variable heap : list SerializerDescriptor.

Section Owners.
    (** The recursive call of the inner function [_]. *)
Variable weigh :
      ObjectID -> gmap ObjectID Z -> result exn (Z * gmap ObjectID Z).

    (** [sum(_(s) for s in ser_descr.owners)], the memo threaded through. *)
Fixpoint sum_owner_weights (os : list ObjectID) (acc : Z)
        (weights : gmap ObjectID Z) : result exn (Z * gmap ObjectID Z) :=
      match os with
      | [] => Ok (acc, weights)
      | o :: rest =>
          let! '(v, weights) := weigh o weights in
          sum_owner_weights rest (acc + v)%Z weights
      end.
End Owners.

  (** The inner function [_] of [eval_weights], memoized in [weights];
      [None] from the store cannot happen for a live object and is
      reported as [KeyError]. *)
Fixpoint eval_weight (fuel : nat) (ser_descr : ObjectID)
      (weights : gmap ObjectID Z) : result exn (Z * gmap ObjectID Z) :=
    match fuel with
    | O => Raise OutOfFuel
    | S fuel =>
        match weights !! ser_descr with
        | Some v => Ok (v, weights)
        | None =>
            match heap !! ser_descr with
            | None => Raise KeyError
            | Some d =>
                let! '(total, weights) :=
                  sum_owner_weights (eval_weight fuel) (owners d) 0%Z weights in
                let v := (total + 1)%Z in
                Ok (v, <[ser_descr := v]> weights)
            end
        end
    end.

  (** [[(ser_descr, _(ser_descr)) for ser_descr in serializers]]. *)
Fixpoint eval_weights_from (fuel : nat) (sers : list ObjectID)
      (weights : gmap ObjectID Z) : result exn (list (ObjectID * Z)) :=
    match sers with
    | [] => Ok []
    | d :: rest =>
        let! '(v, weights) := eval_weight fuel d weights in
        let! tail := eval_weights_from fuel rest weights in
        Ok ((d, v) :: tail)
    end.

Definition eval_weights (fuel : nat) (sers : list ObjectID)
    : result exn (list (ObjectID * Z)) :=
    eval_weights_from fuel sers ∅.
End EvalWeights.

(** The weight as the specification words it, unmemoized: one more than
    the sum of the owners' weights.  [depth] bounds the unfolding; it is
    large enough as soon as it exceeds the length of the longest chain of
    owners above [d]. *)
Definition sum_list (l : list Z) : Z := foldr Z.add 0%Z l.

Fixpoint weight_spec (heap : list SerializerDescriptor) (depth : nat)
    (d : ObjectID) : Z :=
  match depth with
  | O => 0%Z
  | S depth =>
      match heap !! d with
      | None => 0%Z
      | Some descr =>
          (1 + sum_list (map (weight_spec heap depth) (owners descr)))%Z
      end
  end.

(** The built-in [sorted(l, key=key)]: a stable sort, ascending in the
    key; written as an insertion sort that keeps equal keys in their
    original order. *)
Fixpoint insert_by_key {A} (key : A -> Z) (x : A) (l : list A) : list A :=
  match l with
  | [] => [x]
  | y :: rest =>
      if (key x <=? key y)%Z then x :: y :: rest
      else y :: insert_by_key key x rest
  end.

Definition sorted {A} (key : A -> Z) (l : list A) : list A :=
  foldr (insert_by_key key) [] l.

(** The [serializers=[...]] argument that [render] passes to the
    serializers template. *)
Definition render_serializers_order (fuel : nat) (st : Store)
  : result exn (list ObjectID) :=
  let! weighted := eval_weights (heap st) fuel (Dict.values (serializers st)) in
  Ok (map fst (sorted (fun pair : ObjectID * Z => (- snd pair)%Z) weighted)).

(** ** Schema resolver *)

Definition SchemaResolver : Type := gmap JSONPointer Schema.

Definition resolve (r : SchemaResolver) (p : JSONPointer) : result exn Schema :=
  match r !! p with
  | None => Raise (UnresolvedRefError p)
  | Some def_ => Ok def_
  end.

Definition resolve_if_ref (r : SchemaResolver) (schema_or_ref : Schema + SchemaRef)
  : result exn Schema :=
  match schema_or_ref with
  | inr sr => resolve r (ref sr)
  | inl schema => Ok schema
  end.

Definition build_schema_resolver (spec : OpenAPISpec) : SchemaResolver :=
  foldl (fun m def_ => <[ctx def_ := def_]> m) ∅ (Dict.values (definitions spec)).

(** ** Serializer discovery *)

Definition strip_braces (c : string) : string :=
  if startswith c "{" && endswith_char c "}" then strip_ends c else c.

Definition build_pseudo_name (path : Path) (verb : Verb) : string :=
  join "_" (map strip_braces (split "/" (Parser.path path))).

(** [def_.name] on an instance of [Definition]. *)
Definition definition_name (def_ : Schema) : result exn string :=
  match def_name def_ with
  | Some n => Ok n
  | None => Raise AttributeError
  end.

(** What pass 1 collects. *)
Record Pass1 := {
  important_schema_refs : gset JSONPointer;
  pseudo_defs : Dict.t JSONPointer Schema;
}.

(** The body of [for resp in verb.responses.values()]. *)
Definition pass1_response (path : Path) (verb : Verb) (acc : Pass1)
    (resp : Response) : result exn Pass1 :=
  match r_schema resp with
  | None => Ok acc
  | Some (inr sr) =>
      Ok {| important_schema_refs := {[ ref sr ]} ∪ important_schema_refs acc;
            pseudo_defs := pseudo_defs acc |}
  | Some (inl schema) =>
      match def_name schema with
      | Some _ => Raise TypeError
      | None =>
          Ok {| important_schema_refs := important_schema_refs acc;
                pseudo_defs :=
                  Dict.set (pseudo_defs acc) (ctx schema)
                    (as_Definition (build_pseudo_name path verb) schema) |}
      end
  end.

(** A [for] loop whose body may raise. *)
Fixpoint for_each {A S} (body : S -> A -> result exn S) (l : list A) (s : S)
  : result exn S :=
  match l with
  | [] => Ok s
  | x :: rest => let! s := body s x in for_each body rest s
  end.

(** The body of [for verb in path.verbs.values()]. *)
Definition pass1_verb (path : Path) (acc : Pass1) (verb : Verb)
  : result exn Pass1 :=
  match function_name verb with
  | None => Ok acc
  | Some _ => for_each (pass1_response path verb) (Dict.values (responses verb)) acc
  end.

Definition pass1_path (acc : Pass1) (path : Path) : result exn Pass1 :=
  for_each (pass1_verb path) (Dict.values (verbs path)) acc.

(** The verbs of a path that carry a generator function name. *)
Definition is_flagged (v : Verb) : bool :=
  match function_name v with Some _ => true | None => false end.

(** [resp] is a response, of whatever status code, of a flagged verb of a
    path of the contract. *)
Definition flagged_response (spec : OpenAPISpec) (path : Path) (verb : Verb)
    (resp : Response) : Prop :=
  path ∈ paths spec /\ verb ∈ Dict.values (verbs path) /\
  is_flagged verb = true /\ resp ∈ Dict.values (responses verb).

(** The responses pass 1 visits, in order, each with its path and verb. *)
Definition flagged_responses (spec : OpenAPISpec) : list (Path * Verb * Response) :=
  path ← paths spec;
  verb ← List.filter is_flagged (Dict.values (verbs path));
  resp ← Dict.values (responses verb);
  [(path, verb, resp)].

(** An inline response schema is a plain [Schema], not a [Definition]
    (the parser builds response schemas with the [Schema] factory). *)
Definition inline_is_plain (resp : Response) : bool :=
  match r_schema resp with
  | Some (inl s) => negb (is_Definition s)
  | _ => true
  end.

(** Pass 1 of [build_serializers]: collect the required definitions. *)
Definition build_serializers_pass1 (spec : OpenAPISpec) : result exn Pass1 :=
  for_each pass1_path (paths spec)
    {| important_schema_refs := ∅; pseudo_defs := [] |}.

(** The body of the first loop of pass 2. *)
Definition pass2_definition (fuel : nat) (schema_resolver : SchemaResolver)
    (important : gset JSONPointer) (st : Store) (def_ : Schema)
  : result exn Store :=
  if bool_decide (ctx def_ ∈ important) then
    let! name := definition_name def_ in
    qualify_child_schemas fuel
      {| resolver := resolve schema_resolver; owner := None; pname := None |}
      name def_ st
  else Ok st.

(** The body of the second loop of pass 2. *)
Definition pass2_pseudo_def (fuel : nat) (schema_resolver : SchemaResolver)
    (st : Store) (def_ : Schema) : result exn Store :=
  match type_ def_ with
  | OBJECT =>
      let! name := definition_name def_ in
      qualify_child_schemas fuel
        {| resolver := resolve schema_resolver; owner := None; pname := None |}
        name def_ st
  | _ => Ok st
  end.

Definition build_serializers (fuel : nat) (spec : OpenAPISpec)
    (schema_resolver : SchemaResolver) : result exn Store :=
  let! p1 := build_serializers_pass1 spec in
  let! st := for_each (pass2_definition fuel schema_resolver
                         (important_schema_refs p1))
               (Dict.values (definitions spec)) empty_store in
  for_each (pass2_pseudo_def fuel schema_resolver)
    (Dict.values (pseudo_defs p1)) st.

(** ** Route rendering *)

(** The Python types of [JSON_TYPE_TO_PYTHON_TYPE_MAP]. *)
Inductive PyType := py_type_int | py_type_str.

(** [ppt.__name__]. *)
Definition type_name (t : PyType) : string :=
  match t with py_type_int => "int" | py_type_str => "str" end.

Definition JSON_TYPE_TO_PYTHON_TYPE_MAP (t : JSONType) : option PyType :=
  match t with
  | INTEGER => Some py_type_int
  | NUMBER => Some py_type_int
  | STRING => Some py_type_str
  | _ => None
  end.

(** The body of [for p in verb.parameters]. *)
Definition collect_parameter (param_dict : gmap string JSONType) (p : Param)
  : result exn (gmap string JSONType) :=
  match param_dict !! p_name p with
  | Some pt =>
      if bool_decide (Some pt = p_type_ p) then Ok param_dict
      else Raise (UnsupportedOpenAPISchema (Some "inconsistent parameter type"))
  | None => Ok (<[p_name p := default STRING (p_type_ p)]> param_dict)
  end.

(** The first loop of [render_as_django_url_pattern]. *)
Definition collect_parameters (path : Path)
  : result exn (gmap string JSONType) :=
  for_each (fun param_dict verb => for_each collect_parameter (parameters verb) param_dict)
    (Dict.values (verbs path)) ∅.

(** [c[0] == "{" and c[-1] == "}"] on a non-empty component. *)
Definition is_placeholder (c : string) : bool :=
  match c with
  | String "{" _ => endswith_char c "}"
  | _ => false
  end.

(** The body of [for c in cs]; [None] stands for [continue]. *)
Definition render_component (param_dict : gmap string JSONType) (c : string)
  : result exn (option string) :=
  if negb (nonempty c) then Ok None
  else if is_placeholder c then
    let name := strip_ends c in
    match param_dict !! name with
    | None => Raise (UnsupportedOpenAPISchema None)
    | Some pt =>
        match JSON_TYPE_TO_PYTHON_TYPE_MAP pt with
        | None => Raise (UnsupportedOpenAPISchema None)
        | Some ppt =>
            Ok (Some (cat "<" (cat (type_name ppt) (cat ":" (cat name ">")))))
        end
    end
  else Ok (Some c).

Fixpoint render_components (param_dict : gmap string JSONType) (cs : list string)
  : result exn (list string) :=
  match cs with
  | [] => Ok []
  | c :: rest =>
      let! rc := render_component param_dict c in
      let! rcs := render_components param_dict rest in
      Ok (match rc with Some x => x :: rcs | None => rcs end)
  end.

(** [cs = path.path.split("/")], made relative. *)
Definition path_components (path : Path) : list string :=
  match split "/" (Parser.path path) with
  | EmptyString :: rest => rest
  | cs => cs
  end.

Definition render_as_django_url_pattern (path : Path) : result exn string :=
  let! param_dict := collect_parameters path in
  let! rcs := render_components param_dict (path_components path) in
  Ok (join "/" rcs).

(** Every parameter of every verb of a path, in the order the first loop
    of [render_as_django_url_pattern] visits them. *)
Definition all_parameters (path : Path) : list Param :=
  List.concat (map parameters (Dict.values (verbs path))).

(** Two parameters of the path share a name and differ in declared type. *)
Definition inconsistent_parameters (path : Path) : Prop :=
  exists p q, p ∈ all_parameters path /\ q ∈ all_parameters path /\
              p_name p = p_name q /\ p_type_ p <> p_type_ q.

(** Some parameter of the path is called [name] and declares type [t]. *)
Definition declared (path : Path) (name : string) (t : JSONType) : Prop :=
  exists p, p ∈ all_parameters path /\ p_name p = name /\ p_type_ p = Some t.

(** [c] is a [{name}] component of the path template. *)
Definition placeholder_of (path : Path) (c : string) : Prop :=
  c ∈ path_components path /\ is_placeholder c = true.

Definition undeclared_placeholder (path : Path) : Prop :=
  exists c, placeholder_of path c /\
            forall p, p ∈ all_parameters path -> p_name p <> strip_ends c.

Definition unroutable_placeholder (path : Path) : Prop :=
  exists c t, placeholder_of path c /\ declared path (strip_ends c) t /\
              (t = BOOLEAN \/ t = ARRAY \/ t = OBJECT).

(** How a component of the template shows in the rendered pattern. *)
Definition rendered_as (path : Path) (c rc : string) : Prop :=
  if is_placeholder c then
    exists t, declared path (strip_ends c) t /\
      (((t = INTEGER \/ t = NUMBER) /\ rc = cat "<int:" (cat (strip_ends c) ">")) \/
       (t = STRING /\ rc = cat "<str:" (cat (strip_ends c) ">")))
  else rc = c.

(** ** Endpoint grouping: the first loop of [render] *)

(** [name[:-1]] on a token list. *)
Definition drop_last_token (name : list string) : list string :=
  take (length name - 1) name.

(** What the loop over [path.verbs.values()] accumulates. *)
Record VerbScan := {
  function_names : list tokens;
  verb_descrs : list VerbDescriptor;
}.

(** The serializer descriptor of the verb's ["200"] response, the
    [ser_descr] of the loop body. *)
Definition success_serializer (schema_resolver : SchemaResolver)
    (serializers : Dict.t JSONPointer ObjectID) (v : Verb)
  : result exn (option ObjectID) :=
  match Dict.get (responses v) "200" with
  | Some resp =>
      match r_schema resp with
      | Some schema_or_ref =>
          let! schema := resolve_if_ref schema_resolver schema_or_ref in
          match Dict.get serializers (ctx schema) with
          | None => Raise (UnsupportedOpenAPISchema None)
          | Some d => Ok (Some d)
          end
      | None => Ok None
      end
  | None => Ok None
  end.

(** The body of [for verb in path.verbs.values()]. *)
Definition scan_verb (schema_resolver : SchemaResolver)
    (serializers : Dict.t JSONPointer ObjectID) (acc : VerbScan) (v : Verb)
  : result exn VerbScan :=
  match function_name v with
  | None => Ok acc
  | Some fname =>
      let names := function_names acc ++ [tokenize_snake_case_identifier fname true] in
      let! ser_descr := success_serializer schema_resolver serializers v in
      Ok {| function_names := names;
            verb_descrs := verb_descrs acc
                             ++ [ {| vd_verb := v; serializer_descriptor := ser_descr |} ] |}
  end.

(** The two lists [render] fills: [endpoints] and [individual_handlers]. *)
Record Handlers := {
  endpoints : list Endpoint;
  individual_handlers : list (Path * VerbDescriptor);
}.

(** The body of [for path in spec.paths]. *)
Definition group_path (schema_resolver : SchemaResolver)
    (serializers : Dict.t JSONPointer ObjectID) (acc : Handlers) (p : Path)
  : result exn Handlers :=
  let! scan := for_each (scan_verb schema_resolver serializers)
                 (Dict.values (verbs p))
                 {| function_names := []; verb_descrs := [] |} in
  let endpoint_name_candidates :=
    remove_dups (map (fun name : tokens => drop_last_token (snd name))
                   (function_names scan)) in
  match endpoint_name_candidates with
  | [candidate] =>
      Ok {| endpoints :=
              endpoints acc
                ++ [ {| ep_path := p;
                        class_name := cat (render_as_camel_case (true, candidate)) "View";
                        ep_verbs := verb_descrs scan |} ];
            individual_handlers := individual_handlers acc |}
  | _ =>
      Ok {| endpoints := endpoints acc;
            individual_handlers :=
              individual_handlers acc ++ map (fun vd => (p, vd)) (verb_descrs scan) |}
  end.

Definition flagged_verbs (p : Path) : list Verb :=
  List.filter is_flagged (Dict.values (verbs p)).

(** The tokenized function name of a verb without its last token. *)
Definition handler_prefix (v : Verb) : list string :=
  match function_name v with
  | Some fname => drop_last_token (snd (tokenize_snake_case_identifier fname true))
  | None => []
  end.

(** [endpoints] and [individual_handlers] as [render] computes them. *)
Definition render_handlers (spec : OpenAPISpec) (schema_resolver : SchemaResolver)
    (serializers : Dict.t JSONPointer ObjectID) : result exn Handlers :=
  for_each (group_path schema_resolver serializers) (paths spec)
    {| endpoints := []; individual_handlers := [] |}.

(** Every handler [render] hands to the templates, with its path: the
    verbs of the endpoints, then the standalone handlers. *)
Definition handled (h : Handlers) : list (Path * VerbDescriptor) :=
  (ep ← endpoints h; map (pair (ep_path ep)) (ep_verbs ep))
    ++ individual_handlers h.

(** The flagged verbs of the contract, each with its path. *)
Definition flagged_pairs (spec : OpenAPISpec) : list (Path * Verb) :=
  p ← paths spec; map (pair p) (flagged_verbs p).

(** The collection marker a descriptor of [schema] carries: none for an
    object, the address of the element (the target of a reference, or the
    inline element's own address) for an array. *)
Definition marker_of (schema : Schema) : option JSONPointer :=
  match type_ schema with
  | OBJECT => None
  | _ =>
      match items schema with
      | Some (inr r) => Some (ref r)
      | Some (inl s) => Some (ctx s)
      | None => None
      end
  end.

(** The store holds no dangling identity and only well-formed
    descriptors: every owner and every registered identity is a live
    descriptor, an owner set holds no identity twice, and a descriptor is
    that of an object or of an array definition, with the marker of its
    schema. *)
Definition store_closed (st : Store) : Prop :=
  (forall i d o, heap st !! i = Some d -> o ∈ owners d -> is_Some (heap st !! o)) /\
  Forall (fun i => is_Some (heap st !! i)) (Dict.values (serializers st)) /\
  (forall i d, heap st !! i = Some d ->
     NoDup (owners d) /\ gets_descriptor (sd_schema d) = true /\
     many d = marker_of (sd_schema d)).

(** ** Auxiliary notions used in the statements and proofs *)

(** A qualification step keeps the store consistent and only extends it. *)
Definition preserves
    (q : QualifierContext -> string -> Schema -> Store -> result exn Store) : Prop :=
  forall qctx name schema st st',
    q qctx name schema st = Ok st' -> store_wf st ->
    store_wf st' /\ store_extends st st'.

(** What a visit of a shape that gets a descriptor leaves behind. *)
Definition registered (qctx : QualifierContext) (schema : Schema)
    (st st' : Store) : Prop :=
  exists me d,
    Dict.get (serializers st') (ctx schema) = Some me /\
    heap st' !! me = Some d /\ ctx (sd_schema d) = ctx schema /\
    (forall me0, Dict.get (serializers st) (ctx schema) = Some me0 -> me = me0) /\
    (forall o, owner qctx = Some o -> o ∈ owners d).

(** The dictionary agrees with the declared types of the parameters. *)
Definition agrees (d : gmap string JSONType) (ps : list Param) : Prop :=
  forall p t, p ∈ ps -> d !! p_name p = Some t -> p_type_ p = Some t.

(** Parameters of the same name declare the same type. *)
Definition pairwise_consistent (ps : list Param) : Prop :=
  forall p q, p ∈ ps -> q ∈ ps -> p_name p = p_name q -> p_type_ p = p_type_ q.

(** Every parameter declares a type. *)
Definition typed (ps : list Param) : Prop :=
  Forall (fun p => is_Some (p_type_ p)) ps.

(** What [render_component] demands of a placeholder. *)
Definition routable (d : gmap string JSONType) (c rc : string) : Prop :=
  if is_placeholder c then
    exists t, d !! strip_ends c = Some t /\
      (((t = INTEGER \/ t = NUMBER) /\ rc = cat "<int:" (cat (strip_ends c) ">")) \/
       (t = STRING /\ rc = cat "<str:" (cat (strip_ends c) ">")))
  else rc = c.

(** A placeholder on which [render_component] raises. *)
Definition blocked (d : gmap string JSONType) (c : string) : Prop :=
  is_placeholder c = true /\
  (d !! strip_ends c = None \/
   exists t, d !! strip_ends c = Some t /\ (t = BOOLEAN \/ t = ARRAY \/ t = OBJECT)).

(** One step of pass 1 on a response tagged with its path and verb. *)
Definition visit (acc : Pass1) (t : Path * Verb * Response) : result exn Pass1 :=
  pass1_response t.1.1 t.1.2 acc t.2.

(** The weight of [d] in an acyclic heap, [rank] decreasing from a
    descriptor to its owners. *)
Definition weight (heap : list SerializerDescriptor) (rank : ObjectID -> nat)
    (d : ObjectID) : Z :=
  weight_spec heap (S (rank d)) d.

(** Every memoized weight is the right one. *)
Definition memo_ok (heap : list SerializerDescriptor) (rank : ObjectID -> nat)
    (w : gmap ObjectID Z) : Prop :=
  forall d v, w !! d = Some v -> v = weight heap rank d.

(** A qualification step keeps the store closed, given a live owner. *)
Definition keeps_closed
    (q : QualifierContext -> string -> Schema -> Store -> result exn Store) : Prop :=
  forall qctx name schema st st',
    q qctx name schema st = Ok st' -> store_wf st -> store_closed st ->
    (forall o, owner qctx = Some o -> is_Some (heap st !! o)) ->
    store_closed st'.

(** The verb descriptor is that of the verb's ["200"] response. *)
Definition describes (r : SchemaResolver) (sers : Dict.t JSONPointer ObjectID) (vd : VerbDescriptor) : Prop :=
  success_serializer r sers (vd_verb vd) = Ok (serializer_descriptor vd).

End Renderer.

(* ===================================================================== *)
(** * renderer/codegen.py *)
(* ===================================================================== *)

Module Codegen.
Import PyStr JsonPointer Parser Models Renderer.

(** [blib2to3.pgen2.token] and [pygram.python_symbols], as far as used. *)
Inductive token :=
| T_NAME | T_DOT | T_LPAR | T_COMMA | T_EQUAL | T_STRING | T_NUMBER
| T_NEWLINE | T_ENDMARKER.

Inductive symbol :=
| single_input_sym | simple_stmt | power | trailer | arglist | argument.

(** [NodeOrLeaf].  [build_property] hands back Python's [None] where its
    callers expect a node, so [None] is a value of the type. *)
Inductive NodeOrLeaf :=
| Leaf (type : token) (value : string)
| Node (type : symbol) (children : list NodeOrLeaf)
| NoneValue.

Definition single_input (children : list NodeOrLeaf) : NodeOrLeaf :=
  Node single_input_sym
    [ Node simple_stmt [ Node power children ];
      Leaf T_NEWLINE (String (ascii_of_nat 10) "");
      Leaf T_ENDMARKER "" ].

(** [render_dereference_chain_into_nodes], [first] telling whether
    [prev_node] is still [None]. *)
Fixpoint dereference_chain_from (first : bool) (callee : list string)
  : list NodeOrLeaf :=
  match callee with
  | [] => []
  | k :: rest =>
      (if first then Leaf T_NAME k
       else Node trailer [ Leaf T_DOT "."; Leaf T_NAME k ])
        :: dereference_chain_from false rest
  end.

Definition render_dereference_chain_into_nodes (callee : list string)
  : list NodeOrLeaf :=
  dereference_chain_from true callee.

(** The flattened argument list of [build_python_function_call], [i] being
    the index [enumerate] gives the head of [kwargs]. *)
Fixpoint arglist_children (i : nat) (kwargs : list (string * NodeOrLeaf))
  : list NodeOrLeaf :=
  match kwargs with
  | [] => []
  | (name, value) :: rest =>
      (if (0 <? i)%nat then [ Leaf T_COMMA "," ] else [])
        ++ [ Node argument [ Leaf T_NAME name; Leaf T_EQUAL "="; value ] ]
        ++ arglist_children (S i) rest
  end.

Definition build_python_function_call (callee : list string)
    (kwargs : list (string * NodeOrLeaf)) : NodeOrLeaf :=
  Node power
    (render_dereference_chain_into_nodes callee
       ++ [ Node trailer
              [ Leaf T_LPAR "(";
                Node arglist (arglist_children 0 kwargs);
                Leaf T_LPAR ")" ] ]).

(** The constructor functions a registry can hold. *)
Inductive NodeBuilderFunction :=
| BuildDecimalField
| BuildIntegerField
| BuildFloatField
| BuildCharField
| BuildBooleanField
| BuildListSerializer
| BuildNestedSerializer.

Definition NodeBuilderRegistryMapping : Type :=
  Dict.t (JSONType * option string) NodeBuilderFunction.

(** [DefaultNodeBuilderRegistry.__call__]. *)
Definition DefaultNodeBuilderRegistry (mapping : NodeBuilderRegistryMapping)
    (type_ : JSONType) (format : option string) : result exn NodeBuilderFunction :=
  match Dict.get mapping (type_, format) with
  | Some fn => Ok fn
  | None =>
      match Dict.get mapping (type_, None) with
      | Some fn => Ok fn
      | None =>
          Raise (UnsupportedOpenAPISchema (Some "unsupported type and format pair"))
      end
  end.

Definition default_registry_mapping : NodeBuilderRegistryMapping :=
  [ ((NUMBER, None), BuildFloatField);
    ((INTEGER, None), BuildIntegerField);
    ((STRING, None), BuildCharField);
    ((BOOLEAN, None), BuildBooleanField);
    ((ARRAY, None), BuildListSerializer);
    ((OBJECT, None), BuildNestedSerializer) ].

(** [NodeBuilderContext]: the serializers (with the descriptor objects they
    point to) and the registry's mapping. *)
Record NodeBuilderContext := {
  nb_store : Store;
  node_builder_registry : NodeBuilderRegistryMapping;
}.

(** [nbctx.serializers.get(p)], as a descriptor object. *)
Definition serializers_get (nbctx : NodeBuilderContext) (p : JSONPointer)
  : option SerializerDescriptor :=
  match Dict.get (serializers (nb_store nbctx)) p with
  | Some i => heap (nb_store nbctx) !! i
  | None => None
  end.

Section Builders.
(** The built-in [repr] on a [str]. *)
Variable py_repr : string -> string.
(** [a is b] on schema objects, whose identities the model does not track. *)
Variable same_object : Schema -> Schema -> bool.

(** The leading [source=...] keyword argument shared by the constructors. *)
Definition source_kwarg (name source : string) : list (string * NodeOrLeaf) :=
  if bool_decide (name = source) then []
  else [ ("source", Leaf T_STRING (py_repr source)) ].

Definition build_decimal_field (name source : string)
    (aux : Dict.t string NodeOrLeaf) : NodeOrLeaf :=
  build_python_function_call ["fields"; "DecimalField"]
    (source_kwarg name source
       ++ [ ("max_digits", Leaf T_NUMBER "20");
            ("decimal_places", Leaf T_NUMBER "20") ]
       ++ aux).

(** [build_integer_field], [build_float_field], [build_char_field] and
    [build_boolean_field] differ in the field class only. *)
Definition build_scalar_field (field : string) (name source : string)
    (aux : Dict.t string NodeOrLeaf) : NodeOrLeaf :=
  build_python_function_call ["fields"; field] (source_kwarg name source ++ aux).

Definition build_integer_field := build_scalar_field "IntegerField".
Definition build_float_field := build_scalar_field "FloatField".
Definition build_char_field := build_scalar_field "CharField".
Definition build_boolean_field := build_scalar_field "BooleanField".

Definition build_nested_serializer (nbctx : NodeBuilderContext) (schema : Schema)
    (name source : string) (aux : Dict.t string NodeOrLeaf)
  : result exn NodeOrLeaf :=
  match serializers_get nbctx (ctx schema) with
  | None => Raise KeyError
  | Some ser_descr =>
      Ok (build_python_function_call [serializer_class_name ser_descr]
            (source_kwarg name source ++ aux))
  end.

Section ListSerializer.
(** The recursive call of [build_property]. *)
Variable build_property_rec :
  NodeBuilderContext -> Schema -> string -> string -> Dict.t string NodeOrLeaf ->
  result exn NodeOrLeaf.

Definition build_list_serializer (nbctx : NodeBuilderContext) (schema : Schema)
    (name source : string) (aux : Dict.t string NodeOrLeaf)
  : result exn NodeOrLeaf :=
  let! elem_schema :=
    match items schema with
    | Some (inr sr) =>
        match serializers_get nbctx (ref sr) with
        | Some elem_ser_descr => Ok (sd_schema elem_ser_descr)
        | None => Raise (UnsupportedOpenAPISchema None)
        end
    | other =>
        match serializers_get nbctx (ctx schema) with
        | Some elem_ser_descr =>
            if negb (same_object (sd_schema elem_ser_descr) schema)
            then Ok (sd_schema elem_ser_descr)
            else match other with
                 | Some (inl s) => Ok s
                 | _ => Raise AssertionError
                 end
        | None =>
            match other with
            | Some (inl s) => Ok s
            | _ => Raise AssertionError
            end
        end
    end in
  match type_ elem_schema with
  | OBJECT =>
      build_property_rec nbctx elem_schema name source
        (Dict.set aux "many" (Leaf T_NAME "True"))
  | _ =>
      let! child := build_property_rec nbctx elem_schema "" "" [] in
      Ok (build_python_function_call ["fields"; "ListField"]
            (source_kwarg name source ++ [ ("child", child) ] ++ aux))
  end.

(** Calling a constructor function taken from the registry. *)
Definition call_builder (fn : NodeBuilderFunction) (nbctx : NodeBuilderContext)
    (schema : Schema) (name source : string) (aux : Dict.t string NodeOrLeaf)
  : result exn NodeOrLeaf :=
  match fn with
  | BuildDecimalField => Ok (build_decimal_field name source aux)
  | BuildIntegerField => Ok (build_integer_field name source aux)
  | BuildFloatField => Ok (build_float_field name source aux)
  | BuildCharField => Ok (build_char_field name source aux)
  | BuildBooleanField => Ok (build_boolean_field name source aux)
  | BuildListSerializer => build_list_serializer nbctx schema name source aux
  | BuildNestedSerializer => build_nested_serializer nbctx schema name source aux
  end.
End ListSerializer.

(** [build_property]: the constructor is looked up and called, and its
    result is dropped, as the body has no [return]; the function returns
    [None].  The recursion through [build_list_serializer] is bounded by
    [fuel]. *)
Fixpoint build_property (fuel : nat) (nbctx : NodeBuilderContext) (schema : Schema)
    (name source : string) (aux : Dict.t string NodeOrLeaf)
  : result exn NodeOrLeaf :=
  match fuel with
  | O => Raise OutOfFuel
  | S fuel =>
      let! fn := DefaultNodeBuilderRegistry (node_builder_registry nbctx)
                   (type_ schema) (format schema) in
      let! _ := call_builder (build_property fuel) fn nbctx schema name source aux in
      Ok NoneValue
  end.
End Builders.

End Codegen.

(* ===================================================================== *)
(** * Sample contracts *)
(* ===================================================================== *)

Module Samples.
Import PyStr JsonPointer Parser Models Renderer Codegen.

Definition scalar (c : JSONPointer) (t : JSONType) : Schema :=
  mkSchema c t None None None None None None.

Definition object_ (c : JSONPointer) (props : Dict.t string (Schema + SchemaRef))
    (name : option string) : Schema :=
  mkSchema c OBJECT None None (Some props) None None name.

Definition ref_to (c target : JSONPointer) : Schema + SchemaRef :=
  inr {| ref_ctx := c; ref := target |}.

(** [definitions: {Pet: {properties: {owner: {properties: {name: string}}}}}]. *)
Definition pet_owner : Schema :=
  object_ ["definitions"; "Pet"; "owner"]
    [ ("name", inl (scalar ["definitions"; "Pet"; "owner"; "name"] STRING)) ] None.

Definition pet : Schema :=
  object_ ["definitions"; "Pet"] [ ("owner", inl pet_owner) ] (Some "Pet").

(** A definition [Tag] referenced from two properties of [Basket], each
    inside an inline object of its own. *)
Definition tag : Schema :=
  object_ ["definitions"; "Tag"]
    [ ("label", inl (scalar ["definitions"; "Tag"; "label"] STRING)) ] (Some "Tag").

Definition basket_left : Schema :=
  object_ ["definitions"; "Basket"; "left"]
    [ ("tag", ref_to ["definitions"; "Basket"; "left"; "tag"] ["definitions"; "Tag"]) ]
    None.

Definition basket_right : Schema :=
  object_ ["definitions"; "Basket"; "right"]
    [ ("tag", ref_to ["definitions"; "Basket"; "right"; "tag"] ["definitions"; "Tag"]) ]
    None.

Definition basket : Schema :=
  object_ ["definitions"; "Basket"]
    [ ("left", inl basket_left); ("right", inl basket_right) ] (Some "Basket").

Definition sample_resolver : SchemaResolver :=
  <[ ["definitions"; "Tag"] := tag ]> (<[ ["definitions"; "Basket"] := basket ]> ∅).

Definition root_context : QualifierContext :=
  {| resolver := resolve sample_resolver; owner := None; pname := None |}.

(** The store that qualifying [Basket] from the empty store builds: one
    descriptor for [Tag], owned by both inline objects. *)
Definition basket_store : Store :=
  {| heap :=
       [ {| sd_schema := basket; sd_name := "Basket"; owners := []; many := None |};
         {| sd_schema := basket_left; sd_name := "{qctx.owner.name}_{qctx.pname}";
            owners := [0]; many := None |};
         {| sd_schema := tag; sd_name := "Tag"; owners := [1; 3]; many := None |};
         {| sd_schema := basket_right; sd_name := "{qctx.owner.name}_{qctx.pname}";
            owners := [0]; many := None |} ];
     serializers :=
       [ (["definitions"; "Basket"], 0);
         (["definitions"; "Basket"; "left"], 1);
         (["definitions"; "Tag"], 2);
         (["definitions"; "Basket"; "right"], 3) ] |}.

(** A rank for [basket_store]: owners rank below what they own. *)
Definition basket_rank (d : ObjectID) : nat :=
  match d with
  | 1 | 3 => 1
  | 2 => 2
  | _ => 0
  end.

Definition response (c : JSONPointer) (code : string)
    (schema : option (Schema + SchemaRef)) : Response :=
  {| r_ctx := c; status_code := code; r_schema := schema; r_description := None |}.

Definition operation (c : JSONPointer) (method : HttpVerb) (params : list Param)
    (resps : Dict.t string Response) (fname : option string) : Verb :=
  {| v_ctx := c; verb := method; tags := []; parameters := params;
     responses := resps; function_name := fname;
     v_description := None; operation_id := None |}.

Definition path_param (name : string) (t : option JSONType) : Param :=
  {| p_ctx := []; p_name := name; p_in_ := PATH; p_schema := None;
     p_description := None; p_type_ := t; p_required := true |}.

(** [GET /widgets/{id}] with a generator function name and an inline
    schema on its 200 response. *)
Definition get_widget : Verb :=
  operation ["paths"; "/widgets/{id}"] GET [ path_param "id" (Some INTEGER) ]
    [ ("200", response ["paths"; "/widgets/{id}"; "responses"; "200"] "200"
                (Some (inl (object_ ["paths"; "/widgets/{id}"; "responses"; "200"; "schema"]
                              [] None)))) ]
    (Some "widget_get").

Definition widgets_id : Path :=
  {| path_ctx := []; path := "/widgets/{id}"; verbs := [ (GET, get_widget) ] |}.

(** A verb whose only response with a schema is a 404. *)
Definition get_missing : Verb :=
  operation ["paths"; "/missing"] GET []
    [ ("404", response ["paths"; "/missing"; "responses"; "404"] "404"
                (Some (ref_to ["paths"; "/missing"; "responses"; "404"; "schema"]
                         ["definitions"; "Tag"]))) ]
    (Some "missing_get").

Definition missing_spec : OpenAPISpec :=
  {| spec_ctx := []; definitions := [ ("Tag", tag) ];
     paths := [ {| path_ctx := []; path := "/missing";
                   verbs := [ (GET, get_missing) ] |} ] |}.

(** An integer property [id]. *)
Definition id_schema : Schema := scalar ["definitions"; "Pet"; "id"] INTEGER.

Definition default_context : NodeBuilderContext :=
  {| nb_store := empty_store; node_builder_registry := default_registry_mapping |}.

(** [/widgets] with two flagged verbs, [widget_list] and [widget_create]. *)
Definition list_widgets : Verb :=
  operation ["paths"; "/widgets"] GET [] [] (Some "widget_list").
Definition create_widget : Verb :=
  operation ["paths"; "/widgets"] POST [] [] (Some "widget_create").
Definition widgets : Path :=
  {| path_ctx := []; path := "/widgets";
     verbs := [ (GET, list_widgets); (POST, create_widget) ] |}.

(** [/mixed] with flagged verbs of different prefixes. *)
Definition list_gadgets : Verb :=
  operation ["paths"; "/mixed"] GET [] [] (Some "gadget_list").
Definition mixed : Path :=
  {| path_ctx := []; path := "/mixed";
     verbs := [ (GET, list_gadgets); (POST, create_widget) ] |}.

Definition no_handlers : Handlers :=
  {| endpoints := []; individual_handlers := [] |}.

(** A contract with an inline 200 response and a referenced 404 one. *)
Definition two_paths_spec : OpenAPISpec :=
  {| spec_ctx := []; definitions := [ ("Tag", tag) ];
     paths := [ widgets_id;
                {| path_ctx := []; path := "/missing";
                   verbs := [ (GET, get_missing) ] |} ] |}.

(** A loaded definition: an object with an integer property, a reference
    and an array of strings. *)
Definition pet_repr : PyValue :=
  PyDict
    [ (PyStr "type", PyStr "object");
      (PyStr "properties",
       PyDict
         [ (PyStr "id", PyDict [ (PyStr "type", PyStr "integer") ]);
           (PyStr "owner", PyDict [ (PyStr "$ref", PyStr "#/definitions/Owner") ]);
           (PyStr "tags",
            PyDict [ (PyStr "items", PyDict [ (PyStr "type", PyStr "string") ]) ]) ]);
      (PyStr "required", PyList [ PyStr "id" ]) ].

(** [urllib.parse.unquote] on a text without percent escape. *)
Definition no_escape (s : string) : string := s.

(** A body parameter, as Swagger 2.0 writes it: a schema and no type. *)
Definition body_parameter_repr : PyValue :=
  PyDict
    [ (PyStr "name", PyStr "pet");
      (PyStr "in", PyStr "body");
      (PyStr "schema", PyDict [ (PyStr "$ref", PyStr "#/definitions/Pet") ]) ].

End Samples.

(* ===================================================================== *)
(** * Properties *)
(* ===================================================================== *)

Module DictFacts.
Section DictFacts.
Context {K V : Type} `{EqDecision K}.
Implicit Types (d : Dict.t K V) (k : K) (v : V).

Lemma get_set_eq d k v : Dict.get (Dict.set d k v) k = Some v.
Proof.
  induction d as [|[k' v'] d IH]; simpl.
  - now rewrite decide_True.
  - destruct (decide (k' = k)) as [->|Hne]; simpl.
    + now rewrite decide_True.
    + now rewrite decide_False.
Qed.

Lemma get_set_ne d k k' v : k <> k' -> Dict.get (Dict.set d k v) k' = Dict.get d k'.
Proof.
  intros Hne. induction d as [|[k0 v0] d IH]; simpl.
  - now rewrite decide_False.
  - destruct (decide (k0 = k)) as [->|Hne0]; simpl.
    + now rewrite !decide_False.
    + destruct (decide (k0 = k')); [reflexivity | exact IH].
Qed.

Lemma get_Some_values d k v : Dict.get d k = Some v -> v ∈ Dict.values d.
Proof.
  induction d as [|[k0 v0] d IH]; simpl; [discriminate |].
  destruct (decide (k0 = k)); [intros [= ->]; now left | right; auto].
Qed.

Lemma get_None_keys d k : Dict.get d k = None <-> k ∉ Dict.keys d.
Proof.
  induction d as [|[k0 v0] d IH]; simpl.
  - split; [intros _ H; now apply elem_of_nil in H | reflexivity].
  - destruct (decide (k0 = k)) as [->|Hne].
    + split; [discriminate | intros H; destruct H; now left].
    + rewrite IH. rewrite not_elem_of_cons. split; [now split | now intros [_ H]].
Qed.

Lemma set_new d k v : Dict.get d k = None -> Dict.set d k v = d ++ [(k, v)].
Proof.
  induction d as [|[k0 v0] d IH]; simpl; [reflexivity |].
  destruct (decide (k0 = k)); [discriminate |]. intros H. now rewrite IH.
Qed.
End DictFacts.
End DictFacts.

Module PyStrFacts.
Import PyStr.

Lemma cat_empty_r s : cat s "" = s.
Proof. induction s as [|c s IH]; simpl; [reflexivity | now rewrite IH]. Qed.

Lemma cat_assoc s1 s2 s3 : cat (cat s1 s2) s3 = cat s1 (cat s2 s3).
Proof. induction s1 as [|c s1 IH]; simpl; [reflexivity | now rewrite IH]. Qed.

Lemma expand_cat f s1 s2 : expand f (cat s1 s2) = cat (expand f s1) (expand f s2).
Proof.
  induction s1 as [|c s1 IH]; simpl; [reflexivity |].
  now rewrite IH, cat_assoc.
Qed.

(** [replace] with a one-character pattern acts character by character. *)
Lemma replace_char s a new :
  replace s (String a "") new =
  expand (fun c => if Ascii.eqb c a then new else String c "") s.
Proof.
  unfold replace. induction s as [|c s IH]; simpl; [reflexivity |].
  rewrite (Ascii.eqb_sym a c).
  destruct (Ascii.eqb c a); simpl; now rewrite IH.
Qed.

Lemma split_nonnil sep s : split sep s <> [].
Proof.
  induction s as [|c s IH]; simpl; [discriminate |].
  destruct (Ascii.eqb c sep); [discriminate |].
  destruct (split sep s); discriminate.
Qed.

Lemma split_sep_head sep s : split sep (String sep s) = "" :: split sep s.
Proof. simpl. now rewrite Ascii.eqb_refl. Qed.

(** Splitting a piece without separator followed by a separator. *)
Lemma split_cat_sep sep piece rest :
  (forall c, In c (list_ascii_of_string piece) -> c <> sep) ->
  split sep (cat piece (String sep rest)) = piece :: split sep rest.
Proof.
  induction piece as [|c piece IH]; simpl; intros Hno.
  - now rewrite Ascii.eqb_refl.
  - destruct (Ascii.eqb_spec c sep) as [->|Hne].
    + exfalso. apply (Hno sep); [now left | reflexivity].
    + rewrite IH; [reflexivity |]. intros d Hd. apply Hno. now right.
Qed.

Lemma split_no_sep sep piece :
  (forall c, In c (list_ascii_of_string piece) -> c <> sep) ->
  split sep piece = [piece].
Proof.
  induction piece as [|c piece IH]; simpl; intros Hno; [reflexivity |].
  destruct (Ascii.eqb_spec c sep) as [->|Hne].
  - exfalso. apply (Hno sep); [now left | reflexivity].
  - rewrite IH; [reflexivity |]. intros d Hd. apply Hno. now right.
Qed.

End PyStrFacts.

Module JsonPointerFacts.
Import PyStr PyStrFacts JsonPointer.

Lemma quote_json_pointer_expand v :
  quote_json_pointer v = expand quote_char v.
Proof.
  unfold quote_json_pointer. rewrite !replace_char.
  induction v as [|c v IH]; simpl; [reflexivity |].
  rewrite expand_cat, IH. f_equal. unfold quote_char.
  destruct (Ascii.eqb_spec c "~") as [->|H1]; [reflexivity |].
  simpl. destruct (Ascii.eqb c "/"); reflexivity.
Qed.

Lemma unquote_first_pass v :
  replace (expand quote_char v) "~1" "/" = expand half_quote_char v.
Proof.
  unfold replace. induction v as [|c v IH]; simpl; [reflexivity |].
  revert IH. generalize (expand quote_char v) (expand half_quote_char v).
  intros x y IH. unfold quote_char, half_quote_char.
  destruct (Ascii.eqb_spec c "~") as [->|H1].
  - simpl. now rewrite IH.
  - destruct (Ascii.eqb_spec c "/") as [->|H2].
    + simpl. now rewrite IH.
    + cbn -[Ascii.eqb].
      destruct (Ascii.eqb_spec "~" c) as [<-|_]; [congruence |].
      cbn -[Ascii.eqb]. now rewrite IH.
Qed.

Lemma unquote_second_pass v :
  replace (expand half_quote_char v) "~0" "~" = v.
Proof.
  unfold replace. induction v as [|c v IH]; simpl; [reflexivity |].
  revert IH. generalize (expand half_quote_char v).
  intros x IH. unfold half_quote_char.
  destruct (Ascii.eqb_spec c "~") as [->|H1].
  - simpl. now rewrite IH.
  - cbn -[Ascii.eqb].
    destruct (Ascii.eqb_spec "~" c) as [<-|_]; [congruence |].
    cbn -[Ascii.eqb]. now rewrite IH.
Qed.

Lemma unquote_quote v : unquote_json_pointer (quote_json_pointer v) = v.
Proof.
  unfold unquote_json_pointer.
  now rewrite quote_json_pointer_expand, unquote_first_pass, unquote_second_pass.
Qed.

Lemma quote_no_slash v c :
  In c (list_ascii_of_string (quote_json_pointer v)) -> c <> "/"%char.
Proof.
  rewrite quote_json_pointer_expand.
  induction v as [|d v IH]; simpl; [tauto |].
  unfold quote_char at 1.
  destruct (Ascii.eqb_spec d "~") as [->|H1]; simpl.
  - intros [<-|[<-|H]]; [discriminate | discriminate | auto].
  - destruct (Ascii.eqb_spec d "/") as [->|H2]; simpl.
    + intros [<-|[<-|H]]; [discriminate | discriminate | auto].
    + intros [<-|H]; auto.
Qed.

Lemma quote_nonempty v : nonempty (quote_json_pointer v) = nonempty v.
Proof.
  rewrite quote_json_pointer_expand. destruct v as [|c v]; simpl; [reflexivity |].
  unfold quote_char.
  destruct (Ascii.eqb c "~"); [reflexivity |].
  destruct (Ascii.eqb c "/"); reflexivity.
Qed.

Lemma concat_cons x l : concat (x :: l) = cat x (concat l).
Proof.
  unfold concat. destruct l as [|y l]; simpl; [now rewrite cat_empty_r | reflexivity].
Qed.

Lemma split_segments c a :
  split "/" (cat (quote_json_pointer c) (concat (map segment_text a))) =
  quote_json_pointer c :: map quote_json_pointer a.
Proof.
  revert c. induction a as [|d a IH]; intros c.
  - simpl. rewrite cat_empty_r. apply split_no_sep, quote_no_slash.
  - cbn [map]. rewrite concat_cons. unfold segment_text at 1. simpl.
    rewrite split_cat_sep by apply quote_no_slash.
    now rewrite IH.
Qed.

Lemma filter_map_quote a :
  List.filter nonempty (map quote_json_pointer a) =
  map quote_json_pointer (List.filter nonempty a).
Proof.
  induction a as [|c a IH]; simpl; [reflexivity |].
  rewrite quote_nonempty. destruct (nonempty c); simpl; now rewrite IH.
Qed.

Lemma map_unquote_quote a :
  map unquote_json_pointer (map quote_json_pointer a) = a.
Proof.
  induction a as [|c a IH]; simpl; [reflexivity |].
  now rewrite unquote_quote, IH.
Qed.

(** Parsing a rendered pointer drops exactly its empty segments. *)
Lemma from_string_to_str uq a :
  from_string uq (to_str a) = List.filter nonempty a.
Proof.
  destruct a as [|c a]; [reflexivity |].
  assert (E : to_str (c :: a) =
              String "/" (cat (quote_json_pointer c) (concat (map segment_text a)))).
  { unfold to_str. fold segment_text. cbn [map]. now rewrite concat_cons. }
  transitivity
    (map unquote_json_pointer
       (List.filter nonempty (map quote_json_pointer (c :: a)))).
  - rewrite E. unfold from_string.
    now rewrite split_sep_head, split_segments.
  - now rewrite filter_map_quote, map_unquote_quote.
Qed.

Lemma filter_nonempty_id a :
  Forall (fun c => c <> "") a -> List.filter nonempty a = a.
Proof.
  induction 1 as [|c a Hc _ IH]; simpl; [reflexivity |].
  destruct c; [congruence |]. simpl. now rewrite IH.
Qed.

(** C9 (as amended): for every address none of whose segments is the empty
    string, parsing the rendered text gives the address back, so rendering,
    parsing and rendering again yields the same text; [~] is rendered as
    [~0] and [/] as [~1], and parsing undoes both. *)
Theorem C9_roundtrip_nonempty_segments uq (a : JSONPointer) :
  Forall (fun c => c <> "") a ->
  from_string uq (to_str a) = a /\
  to_str (from_string uq (to_str a)) = to_str a /\
  (forall c, unquote_json_pointer (quote_json_pointer c) = c) /\
  quote_json_pointer "~" = "~0" /\ quote_json_pointer "/" = "~1".
Proof.
  intros Ha.
  assert (E : from_string uq (to_str a) = a)
    by (rewrite from_string_to_str; now apply filter_nonempty_id).
  repeat split; [exact E | now rewrite E | apply unquote_quote].
Qed.

(** C9, the claim as stated fails: the address [("", "a")] renders as
    [//a], which parses to [("a",)] and renders again as [/a]. *)
Lemma C9_empty_segment_is_lost :
  (forall uq, from_string uq (to_str [""; "a"]) = ["a"]) /\
  (forall uq, to_str (from_string uq (to_str [""; "a"])) = "/a") /\
  to_str [""; "a"] = "//a".
Proof. repeat split. Qed.

Lemma C9_roundtrip_witness :
  from_string (fun s => s) (to_str ["definitions"; "a~b/c"])
    = ["definitions"; "a~b/c"] /\
  to_str (from_string (fun s => s) (to_str ["definitions"; "a~b/c"]))
    = "/definitions/a~0b~1c".
Proof.
  destruct (C9_roundtrip_nonempty_segments (fun s => s) ["definitions"; "a~b/c"])
    as (H1 & H2 & _).
  - repeat constructor; discriminate.
  - split; [exact H1 | exact H2].
Defined.

End JsonPointerFacts.

Module ParserFacts.
Import JsonPointer Parser.

Lemma validate_as_integer_rejects ctx v :
  is_int_or_float v = false ->
  validate_as_integer ctx v =
  Raise (InvalidSchemaError "value must be an integer, got " (Some v) ctx).
Proof. unfold validate_as_integer. now intros ->. Qed.

Lemma validate_as_integer_accepts ctx v :
  is_int_or_float v = true -> validate_as_integer ctx v = py_int v.
Proof. unfold validate_as_integer. now intros ->. Qed.

Lemma py_int_not_schema_error v msg got c :
  is_int_or_float v = true -> py_int v <> Raise (InvalidSchemaError msg got c).
Proof.
  destruct v as [| b | z | f | | |]; simpl; try discriminate.
  destruct f; simpl; discriminate.
Qed.

(** Truncation towards zero of the magnitude [m * 2^e]. *)
Lemma truncated_magnitude (m : positive) (e : Z) :
  let q := (if (0 <=? e)%Z then Z.pos m * 2 ^ e else Z.pos m / 2 ^ (- e))%Z in
  (0 <= q)%Z /\
  ((0 <= e)%Z -> q = (Z.pos m * 2 ^ e)%Z) /\
  ((e < 0)%Z ->
   (q * 2 ^ (- e) <= Z.pos m)%Z /\ (Z.pos m < (q + 1) * 2 ^ (- e))%Z).
Proof.
  cbv zeta. destruct (Z.leb_spec 0 e) as [He|He].
  - split; [|split]; [| reflexivity | lia].
    apply Z.mul_nonneg_nonneg; [lia |]. apply Z.pow_nonneg. lia.
  - assert (Hp : (0 < 2 ^ (- e))%Z) by (apply Z.pow_pos_nonneg; lia).
    split; [|split]; [| lia |].
    + apply Z.div_pos; lia.
    + intros _. split.
      * rewrite Z.mul_comm. apply Z.mul_div_le. exact Hp.
      * rewrite Z.mul_comm. apply Z.mul_succ_div_gt. exact Hp.
Qed.

(** C10 (as amended): [validate_as_integer] raises the schema-structure
    error, tagged with the address it was given, exactly when the value is
    neither an [int] nor a [float]; a boolean passes as 0 or 1; a finite
    float never raises and is truncated towards zero (1.5 becomes 1); a NaN
    or an infinity escapes as the built-in [ValueError] / [OverflowError]
    of [int()]. *)
Theorem C10_validate_as_integer (ctx : JSONPointer) (v : PyValue) :
  ((exists msg got c, validate_as_integer ctx v = Raise (InvalidSchemaError msg got c))
     <-> is_int_or_float v = false) /\
  (is_int_or_float v = false ->
   exists msg, validate_as_integer ctx v = Raise (InvalidSchemaError msg (Some v) ctx)) /\
  (forall b, validate_as_integer ctx (PyBool b) = Ok (if b then 1 else 0)%Z) /\
  (forall z, validate_as_integer ctx (PyInt z) = Ok z) /\
  (forall s, validate_as_integer ctx (PyFloat (SpecFloat.S754_zero s)) = Ok 0%Z) /\
  (forall s m e, exists q,
     validate_as_integer ctx (PyFloat (SpecFloat.S754_finite s m e)) =
       Ok (if s then (- q)%Z else q) /\
     (0 <= q)%Z /\
     ((0 <= e)%Z -> q = (Z.pos m * 2 ^ e)%Z) /\
     ((e < 0)%Z ->
      (q * 2 ^ (- e) <= Z.pos m)%Z /\ (Z.pos m < (q + 1) * 2 ^ (- e))%Z)) /\
  validate_as_integer ctx (PyFloat (SpecFloat.S754_finite false 3 (-1))) = Ok 1%Z /\
  validate_as_integer ctx (PyFloat SpecFloat.S754_nan) = Raise ValueError /\
  (forall s, validate_as_integer ctx (PyFloat (SpecFloat.S754_infinity s)) =
             Raise OverflowError).
Proof.
  split; [|split; [|repeat split]].
  - split.
    + intros (msg & got & c & H).
      destruct (is_int_or_float v) eqn:E; [|reflexivity].
      rewrite validate_as_integer_accepts in H by exact E.
      now apply py_int_not_schema_error in H.
    + intros E. rewrite validate_as_integer_rejects by exact E. eauto.
  - intros E. rewrite validate_as_integer_rejects by exact E. eauto.
  - intros s m e. eexists. split; [reflexivity |].
    apply truncated_magnitude.
Qed.

(** C10, the claim as stated fails: a float NaN is a [float], yet the
    validator raises on it (the [ValueError] of [int()]). *)
Lemma C10_float_nan_raises :
  Parser.is_int_or_float (PyFloat SpecFloat.S754_nan) = true /\
  validate_as_integer [] (PyFloat SpecFloat.S754_nan) = Raise ValueError.
Proof. split; reflexivity. Qed.

End ParserFacts.

Module RendererNameFacts.
Import PyStr PyStrFacts JsonPointer Parser Models Renderer Samples.

Lemma join_cons_cons sep x y l :
  join sep (x :: y :: l) = cat x (cat sep (join sep (y :: l))).
Proof. reflexivity. Qed.

(** C4 (as amended): the name of a pseudo-definition depends on the path
    template alone; it is the template split on [/], each brace-enclosed
    segment stripped of its braces, joined with underscores.  The empty
    segment before a leading [/] is kept, so the name of a template that
    starts with [/] starts with an underscore: [/widgets/{id}] gives
    [_widgets_id]. *)
Theorem C4_build_pseudo_name :
  (forall p v v', build_pseudo_name p v = build_pseudo_name p v') /\
  (forall pctx vs rest v,
     build_pseudo_name {| path_ctx := pctx; path := String "/" rest; verbs := vs |} v
     = String "_" (join "_" (map strip_braces (split "/" rest)))) /\
  (forall pctx vs v,
     build_pseudo_name {| path_ctx := pctx; path := "/widgets/{id}"; verbs := vs |} v
     = "_widgets_id") /\
  strip_braces "{id}" = "id".
Proof.
  split; [reflexivity |]. split; [| split; reflexivity].
  intros pctx vs rest v. unfold build_pseudo_name. cbn [Parser.path].
  rewrite split_sep_head. cbn [map].
  destruct (split "/" rest) as [|piece pieces] eqn:E.
  - now apply split_nonnil in E.
  - cbn [map]. now rewrite join_cons_cons.
Qed.

(** C4, the claim as stated fails: the name derived for [/widgets/{id}] is
    [_widgets_id], which is not [widgets_id]. *)
Lemma C4_widgets_id_has_leading_underscore :
  build_pseudo_name widgets_id get_widget = "_widgets_id" /\
  String.eqb (build_pseudo_name widgets_id get_widget) "widgets_id" = false.
Proof. split; reflexivity. Qed.

End RendererNameFacts.

Module CodegenFacts.
Import PyStr JsonPointer Parser Models Renderer Codegen Samples.

(** C6 (the code departs from the claim): whatever the registry and the
    constructor do, a call of [build_property] that returns returns
    [None]; for the integer schema [id_schema] under the default registry
    the constructor is found and builds the [fields.IntegerField()] call,
    and [build_property] still returns [None]. *)
Theorem C6_build_property_returns_none
    (py_repr : string -> string) (same_object : Schema -> Schema -> bool) :
  (forall fuel nbctx schema name source aux,
     match build_property py_repr same_object fuel nbctx schema name source aux with
     | Ok v => v = NoneValue
     | Raise _ => True
     end) /\
  DefaultNodeBuilderRegistry default_registry_mapping INTEGER None
    = Ok BuildIntegerField /\
  call_builder py_repr same_object
    (build_property py_repr same_object 0) BuildIntegerField
    default_context id_schema "id" "id" []
    = Ok (Node power
            [ Leaf T_NAME "fields";
              Node trailer [ Leaf T_DOT "."; Leaf T_NAME "IntegerField" ];
              Node trailer [ Leaf T_LPAR "("; Node arglist []; Leaf T_LPAR ")" ] ]) /\
  build_property py_repr same_object 1 default_context id_schema "id" "id" []
    = Ok NoneValue.
Proof.
  split; [| repeat split].
  intros fuel nbctx schema name source aux.
  destruct fuel as [|fuel]; simpl; [exact I |].
  destruct (DefaultNodeBuilderRegistry _ _ _) as [fn|e]; simpl; [| exact I].
  destruct (call_builder _ _ _ _ _ _ _ _ _) as [v|e]; simpl; [reflexivity | exact I].
Qed.

End CodegenFacts.

Module QualifyFacts.
Import PyStr JsonPointer Parser Models Renderer Samples DictFacts.

Lemma IdentitySet_add_elem s o : o ∈ IdentitySet_add s o.
Proof.
  unfold IdentitySet_add. case_bool_decide; [assumption |].
  apply elem_of_app. right. now left.
Qed.

Lemma IdentitySet_add_subseteq s o : s ⊆ IdentitySet_add s o.
Proof.
  unfold IdentitySet_add. case_bool_decide; [reflexivity |].
  intros x Hx. apply elem_of_app. now left.
Qed.

Lemma IdentitySet_add_idempotent s o :
  IdentitySet_add (IdentitySet_add s o) o = IdentitySet_add s o.
Proof.
  unfold IdentitySet_add at 1. rewrite bool_decide_eq_true_2; [reflexivity |].
  apply IdentitySet_add_elem.
Qed.

Lemma IdentitySet_add_NoDup s o : NoDup s -> NoDup (IdentitySet_add s o).
Proof.
  intros Hs. unfold IdentitySet_add. case_bool_decide as Ho; [exact Hs |].
  apply NoDup_app. split; [exact Hs |]. split; [| apply NoDup_singleton].
  intros x Hx Hx'. apply list_elem_of_singleton in Hx'. now subst.
Qed.

Lemma store_extends_refl st : store_extends st st.
Proof. split; [| auto]. intros i d Hd. exists d. repeat split; auto. Qed.

Lemma store_extends_trans st1 st2 st3 :
  store_extends st1 st2 -> store_extends st2 st3 -> store_extends st1 st3.
Proof.
  intros [H1 K1] [H2 K2]. split; [| auto].
  intros i d Hd. destruct (H1 i d Hd) as (d2 & Hd2 & Es & En & Em & Eo).
  destruct (H2 i d2 Hd2) as (d3 & Hd3 & Es' & En' & Em' & Eo').
  exists d3. repeat split; try congruence. now transitivity (owners d2).
Qed.

Lemma store_wf_empty : store_wf empty_store.
Proof. split; [intros k i [=] | intros i d H; now destruct i]. Qed.

(** In a consistent store no two descriptors share an address. *)
Lemma store_wf_unique st i j d d' :
  store_wf st -> heap st !! i = Some d -> heap st !! j = Some d' ->
  ctx (sd_schema d) = ctx (sd_schema d') -> i = j.
Proof.
  intros [_ Hh] Hi Hj E. apply Hh in Hi, Hj. rewrite E in Hi. congruence.
Qed.

Lemma new_descriptor_spec st schema name mny :
  store_wf st -> Dict.get (serializers st) (ctx schema) = None ->
  let st' := (new_descriptor st schema name mny).2 in
  let me := (new_descriptor st schema name mny).1 in
  store_wf st' /\ store_extends st st' /\
  Dict.get (serializers st') (ctx schema) = Some me /\
  heap st' !! me =
    Some {| sd_schema := schema; sd_name := name; owners := []; many := mny |}.
Proof.
  intros [Hs Hh] Hnone. cbn zeta. unfold new_descriptor. cbn [fst snd].
  split; [split | split; [split | split]]; cbn [heap serializers].
  - intros k i. destruct (decide (ctx schema = k)) as [<- | Hne].
    + rewrite get_set_eq. intros [= <-]. eexists. split.
      * now rewrite lookup_app_r, Nat.sub_diag by lia.
      * reflexivity.
    + rewrite get_set_ne by exact Hne. intros Hk.
      destruct (Hs k i Hk) as (d & Hd & Ek). exists d. split; [| exact Ek].
      rewrite lookup_app_l; [exact Hd | now apply lookup_lt_Some in Hd].
  - intros i d Hd. apply lookup_app_Some in Hd as [Hd | [Hlen Hd]].
    + rewrite get_set_ne; [now apply Hh |].
      intros E. apply Hh in Hd. congruence.
    + destruct (i - length (heap st)) as [|n] eqn:En; [| now destruct n].
      injection Hd as <-. cbn [sd_schema]. rewrite get_set_eq. f_equal. lia.
  - intros i d Hd. exists d. split; [| repeat split; auto].
    rewrite lookup_app_l; [exact Hd | now apply lookup_lt_Some in Hd].
  - intros k i Hk. rewrite get_set_ne; [exact Hk | congruence].
  - apply get_set_eq.
  - now rewrite lookup_app_r, Nat.sub_diag by lia.
Qed.

Lemma get_or_create_spec st schema name mny me st' :
  store_wf st -> get_or_create st schema name mny = (me, st') ->
  store_wf st' /\ store_extends st st' /\
  Dict.get (serializers st') (ctx schema) = Some me /\
  (exists d, heap st' !! me = Some d /\ ctx (sd_schema d) = ctx schema) /\
  (forall me0, Dict.get (serializers st) (ctx schema) = Some me0 ->
               me = me0 /\ st' = st).
Proof.
  intros Hwf. unfold get_or_create.
  destruct (Dict.get (serializers st) (ctx schema)) as [i|] eqn:Eg.
  - intros [= <- <-]. split; [exact Hwf |]. split; [apply store_extends_refl |].
    split; [exact Eg |]. split; [apply Hwf, Eg |].
    intros me0 [= <-]. now split.
  - intros E.
    destruct (new_descriptor_spec st schema name mny Hwf Eg)
      as (Hwf' & Hext & Hget & Hheap).
    rewrite E in Hwf', Hext, Hget, Hheap. cbn [fst snd] in *.
    split; [exact Hwf' |]. split; [exact Hext |]. split; [exact Hget |].
    split; [eexists; split; [exact Hheap | reflexivity] | discriminate].
Qed.

Lemma register_owner_spec st me o :
  store_wf st ->
  store_wf (register_owner st me o) /\ store_extends st (register_owner st me o) /\
  (forall d o', heap st !! me = Some d -> o = Some o' ->
     exists d', heap (register_owner st me o) !! me = Some d' /\ o' ∈ owners d' /\
                owners d' = IdentitySet_add (owners d) o').
Proof.
  intros Hwf. destruct o as [o|]; cbn [register_owner].
  2:{ split; [exact Hwf |]. split; [apply store_extends_refl | discriminate]. }
  destruct Hwf as [Hs Hh].
  assert (Hlook : forall i d, heap st !! i = Some d ->
            exists d', alter (fun d => add_owner_to d o) me (heap st) !! i = Some d' /\
              sd_schema d' = sd_schema d /\ sd_name d' = sd_name d /\
              many d' = many d /\ owners d ⊆ owners d').
  { intros i d Hd. destruct (decide (me = i)) as [<- | Hne].
    - rewrite list_lookup_alter_eq, Hd. eexists. split; [reflexivity |].
      repeat split. apply IdentitySet_add_subseteq.
    - rewrite list_lookup_alter_ne by exact Hne. exists d. repeat split; auto. }
  split; [split | split; [split |]]; cbn [heap serializers].
  - intros k i Hk. destruct (Hs k i Hk) as (d & Hd & Ek).
    destruct (Hlook i d Hd) as (d' & Hd' & Es & _). exists d'. split; [exact Hd' | congruence].
  - intros i d' Hd'. destruct (decide (me = i)) as [<- | Hne].
    + rewrite list_lookup_alter_eq in Hd'.
      apply fmap_Some in Hd' as (d & Ed & ->). cbn [add_owner_to sd_schema]. now apply Hh.
    + rewrite list_lookup_alter_ne in Hd' by exact Hne. now apply Hh.
  - exact Hlook.
  - auto.
  - intros d o' Hd [= <-]. unfold ObjectID in *.
    rewrite list_lookup_alter_eq, Hd. eexists.
    split; [reflexivity |]. split; [apply IdentitySet_add_elem | reflexivity].
Qed.

Lemma inner_body_preserves q qctx sor st st' :
  preserves q ->
  qualify_child_schemas_inner_body q qctx sor st = Ok st' -> store_wf st ->
  store_wf st' /\ store_extends st st'.
Proof.
  intros Hq. unfold qualify_child_schemas_inner_body.
  destruct sor as [schema | r]; [apply Hq |].
  destruct (resolver qctx (ref r)) as [schema|e]; simpl; [| discriminate].
  destruct (def_name schema); apply Hq.
Qed.

Lemma properties_preserves q qctx me props st st' :
  preserves q ->
  qualify_properties q qctx me props st = Ok st' -> store_wf st ->
  store_wf st' /\ store_extends st st'.
Proof.
  intros Hq. revert st. induction props as [|[pn p] props IH]; intros st; simpl.
  - intros [= <-] Hwf. split; [exact Hwf | apply store_extends_refl].
  - destruct (qualify_child_schemas_inner_body q _ p st) as [st1|e] eqn:E1;
      simpl; [| discriminate].
    intros E2 Hwf.
    destruct (inner_body_preserves _ _ _ _ _ Hq E1 Hwf) as [Hwf1 Hext1].
    destruct (IH st1 E2 Hwf1) as [Hwf2 Hext2].
    split; [exact Hwf2 | eapply store_extends_trans; eassumption].
Qed.

Lemma registered_after qctx schema name mny st me st1 st' :
  store_wf st ->
  get_or_create st schema name mny = (me, st1) ->
  store_extends (register_owner st1 me (owner qctx)) st' ->
  registered qctx schema st st'.
Proof.
  intros Hwf Eg Hext.
  destruct (get_or_create_spec _ _ _ _ _ _ Hwf Eg)
    as (Hwf1 & Hext1 & Hget1 & (d1 & Hd1 & Ec1) & Hreuse).
  destruct (register_owner_spec st1 me (owner qctx) Hwf1) as (Hwf2 & Hext2 & Hown).
  destruct (proj1 Hext2 me d1 Hd1) as (d2 & Hd2 & Es2 & _).
  destruct (proj1 Hext me d2 Hd2) as (d' & Hd' & Es' & _ & _ & Ho').
  exists me, d'. split; [| split; [exact Hd' | split; [congruence | split]]].
  - apply (proj2 Hext), (proj2 Hext2), Hget1.
  - intros me0 H0. now apply Hreuse.
  - intros o Ho. destruct (Hown d1 o Hd1 Ho) as (d2' & Hd2' & Hin & _).
    apply Ho'. unfold ObjectID in *. rewrite Hd2 in Hd2'.
    injection Hd2' as <-. exact Hin.
Qed.

Lemma body_spec q qctx name schema st st' :
  preserves q ->
  qualify_child_schemas_body q qctx name schema st = Ok st' -> store_wf st ->
  store_wf st' /\ store_extends st st' /\
  (gets_descriptor schema = true -> registered qctx schema st st').
Proof.
  intros Hq. unfold qualify_child_schemas_body, gets_descriptor.
  destruct (type_ schema) eqn:Et;
    try (intros [= <-] Hwf; split; [exact Hwf |];
         split; [apply store_extends_refl | discriminate]).
  - (* ARRAY *)
    destruct (items schema) as [it|]; [| discriminate].
    destruct (is_Definition schema).
    + destruct (get_or_create st schema name _) as [me st1] eqn:Eg.
      intros E Hwf.
      destruct (get_or_create_spec _ _ _ _ _ _ Hwf Eg) as (Hwf1 & Hext1 & _).
      destruct (register_owner_spec st1 me (owner qctx) Hwf1) as (Hwf2 & Hext2 & _).
      destruct (inner_body_preserves _ _ _ _ _ Hq E Hwf2) as [Hwf' Hext'].
      split; [exact Hwf' |]. split.
      * eapply store_extends_trans; [exact Hext1 |].
        eapply store_extends_trans; eassumption.
      * intros _. eapply registered_after; eassumption.
    + intros E Hwf.
      destruct (inner_body_preserves _ _ _ _ _ Hq E Hwf) as [Hwf' Hext'].
      split; [exact Hwf' |]. split; [exact Hext' | discriminate].
  - (* OBJECT *)
    destruct (get_or_create st schema name None) as [me st1] eqn:Eg.
    destruct (properties schema) as [props|]; [| discriminate].
    intros E Hwf.
    destruct (get_or_create_spec _ _ _ _ _ _ Hwf Eg) as (Hwf1 & Hext1 & _).
    destruct (register_owner_spec st1 me (owner qctx) Hwf1) as (Hwf2 & Hext2 & _).
    destruct (properties_preserves _ _ _ _ _ _ Hq E Hwf2) as [Hwf' Hext'].
    split; [exact Hwf' |]. split.
    + eapply store_extends_trans; [exact Hext1 |].
      eapply store_extends_trans; eassumption.
    + intros _. eapply registered_after; eassumption.
Qed.

Lemma qualify_preserves fuel : preserves (qualify_child_schemas fuel).
Proof.
  induction fuel as [|fuel IH]; intros qctx name schema st st'; simpl;
    [discriminate |].
  intros E Hwf. destruct (body_spec _ _ _ _ _ _ IH E Hwf) as (H1 & H2 & _).
  now split.
Qed.

(** C1: a run of [qualify_child_schemas] from a consistent store ends in a
    consistent store, in which no two descriptors have the same schema
    address; every descriptor that existed before is still there under the
    same identity and address, with its schema, name and marker, and with
    at least its owners; the shape visited, when it is one that gets a
    descriptor, is registered under its address — under the identity it
    already had when it was registered before — with the visiting owner
    among its owners; and adding an owner twice is adding it once. *)
Theorem C1_one_descriptor_per_address fuel qctx name schema st st' :
  store_wf st ->
  qualify_child_schemas fuel qctx name schema st = Ok st' ->
  store_wf st' /\
  (forall i j d d', heap st' !! i = Some d -> heap st' !! j = Some d' ->
     ctx (sd_schema d) = ctx (sd_schema d') -> i = j) /\
  store_extends st st' /\
  (gets_descriptor schema = true ->
   exists me d,
     Dict.get (serializers st') (ctx schema) = Some me /\
     heap st' !! me = Some d /\ ctx (sd_schema d) = ctx schema /\
     (forall me0, Dict.get (serializers st) (ctx schema) = Some me0 -> me = me0) /\
     (forall o, owner qctx = Some o -> o ∈ owners d)) /\
  (forall s o, IdentitySet_add (IdentitySet_add s o) o = IdentitySet_add s o).
Proof.
  intros Hwf E. destruct fuel as [|fuel]; [discriminate |]. simpl in E.
  destruct (body_spec _ _ _ _ _ _ (qualify_preserves fuel) E Hwf)
    as (Hwf' & Hext & Hreg).
  split; [exact Hwf' |]. split; [| split; [exact Hext | split]].
  - intros i j d d'. now apply store_wf_unique.
  - exact Hreg.
  - apply IdentitySet_add_idempotent.
Qed.

Lemma for_each_store_wf {A} (body : Store -> A -> result exn Store) l st st' :
  (forall s x s', body s x = Ok s' -> store_wf s -> store_wf s') ->
  for_each body l st = Ok st' -> store_wf st -> store_wf st'.
Proof.
  intros Hbody. revert st. induction l as [|x l IH]; intros st; simpl.
  - now intros [= <-].
  - destruct (body st x) as [st1|e] eqn:E; simpl; [| discriminate].
    intros E' Hwf. apply (IH st1 E'). eapply Hbody; eassumption.
Qed.

(** The whole graph construction ends in a consistent store: over a
    contract, no two descriptors ever share a schema address. *)
Lemma build_serializers_one_descriptor_per_address fuel spec r st :
  build_serializers fuel spec r = Ok st ->
  store_wf st /\
  forall i j d d', heap st !! i = Some d -> heap st !! j = Some d' ->
    ctx (sd_schema d) = ctx (sd_schema d') -> i = j.
Proof.
  unfold build_serializers.
  destruct (build_serializers_pass1 spec) as [p1|e]; simpl; [| discriminate].
  destruct (for_each (pass2_definition fuel r (important_schema_refs p1)) _ _)
    as [st1|e] eqn:E1; simpl; [| discriminate].
  intros E2.
  assert (Hwf1 : store_wf st1).
  { eapply for_each_store_wf; [| exact E1 | apply store_wf_empty].
    intros s x s'. unfold pass2_definition.
    case_bool_decide; [| now intros [= <-]].
    destruct (definition_name x); simpl; [| discriminate].
    intros E Hwf. now apply (qualify_preserves fuel _ _ _ _ _ E). }
  assert (Hwf : store_wf st).
  { eapply for_each_store_wf; [| exact E2 | exact Hwf1].
    intros s x s'. unfold pass2_pseudo_def.
    destruct (type_ x); try (now intros [= <-]).
    destruct (definition_name x); simpl; [| discriminate].
    intros E Hwf. now apply (qualify_preserves fuel _ _ _ _ _ E). }
  split; [exact Hwf |]. intros i j d d'. now apply store_wf_unique.
Qed.

Lemma C1_basket_witness :
  qualify_child_schemas 4 root_context "Basket" basket empty_store = Ok basket_store /\
  store_wf basket_store /\
  store_extends empty_store basket_store /\
  exists me d,
    Dict.get (serializers basket_store) ["definitions"; "Basket"] = Some me /\
    heap basket_store !! me = Some d /\
    ctx (sd_schema d) = ["definitions"; "Basket"].
Proof.
  assert (E : qualify_child_schemas 4 root_context "Basket" basket empty_store
              = Ok basket_store) by (vm_compute; reflexivity).
  destruct (C1_one_descriptor_per_address 4 root_context "Basket" basket
              empty_store basket_store store_wf_empty E)
    as (Hwf & _ & Hext & Hreg & _).
  split; [exact E |]. split; [exact Hwf |]. split; [exact Hext |].
  destruct (Hreg eq_refl) as (me & d & H1 & H2 & H3 & _).
  exists me, d. auto.
Defined.

(** The shape [Tag], reachable through the properties [left.tag] and
    [right.tag], has one descriptor, owned by both inline objects. *)
Example shared_shape_has_one_descriptor :
  qualify_child_schemas 4 root_context "Basket" basket empty_store = Ok basket_store /\
  Dict.get (serializers basket_store) ["definitions"; "Tag"] = Some 2 /\
  owners <$> heap basket_store !! 2 = Some [1; 3] /\
  List.filter (fun d => bool_decide (ctx (sd_schema d) = ["definitions"; "Tag"]))
    (heap basket_store)
  = [ {| sd_schema := tag; sd_name := "Tag"; owners := [1; 3]; many := None |} ].
Proof. repeat split; vm_compute; reflexivity. Qed.

(** C3 (the code departs from the claim): a nested shape that is not a
    [Definition] is always qualified under the string literal
    [{qctx.owner.name}_{qctx.pname}], whatever the owner and the property
    are; for the definition [Pet] with an inline object property [owner]
    the nested descriptor is named by that literal and not [Pet_owner]. *)
Theorem C3_nested_name_is_the_literal :
  (forall fuel qctx schema st,
     qualify_child_schemas_inner fuel qctx (inl schema) st
     = qualify_child_schemas fuel qctx "{qctx.owner.name}_{qctx.pname}" schema st) /\
  qualify_child_schemas 3 root_context "Pet" pet empty_store
  = Ok {| heap :=
            [ {| sd_schema := pet; sd_name := "Pet"; owners := []; many := None |};
              {| sd_schema := pet_owner;
                 sd_name := "{qctx.owner.name}_{qctx.pname}";
                 owners := [0]; many := None |} ];
          serializers :=
            [ (["definitions"; "Pet"], 0); (["definitions"; "Pet"; "owner"], 1) ] |}.
Proof. split; reflexivity. Qed.

End QualifyFacts.

Module RouteFacts.
Import PyStr PyStrFacts JsonPointer Parser Models Renderer Samples.

Lemma for_each_app {A S} (body : S -> A -> result exn S) l1 l2 s :
  for_each body (l1 ++ l2) s =
  (let! s1 := for_each body l1 s in for_each body l2 s1).
Proof.
  revert s. induction l1 as [|x l1 IH]; intros s; simpl; [reflexivity |].
  destruct (body s x); simpl; [apply IH | reflexivity].
Qed.

Lemma for_each_nested {A B S} (body : S -> B -> result exn S)
    (inner : A -> list B) l s :
  for_each (fun s x => for_each body (inner x) s) l s =
  for_each body (List.concat (map inner l)) s.
Proof.
  revert s. induction l as [|x l IH]; intros s; simpl; [reflexivity |].
  rewrite for_each_app. destruct (for_each body (inner x) s); simpl; [apply IH | reflexivity].
Qed.

Lemma collect_parameters_flat path :
  collect_parameters path = for_each collect_parameter (all_parameters path) ∅.
Proof. unfold collect_parameters, all_parameters. apply for_each_nested. Qed.

Lemma collect_parameter_error d p e :
  collect_parameter d p = Raise e ->
  e = UnsupportedOpenAPISchema (Some "inconsistent parameter type").
Proof.
  unfold collect_parameter. destruct (d !! p_name p); [| discriminate].
  case_bool_decide; [discriminate | congruence].
Qed.

Lemma collect_error ps d e :
  for_each collect_parameter ps d = Raise e ->
  e = UnsupportedOpenAPISchema (Some "inconsistent parameter type").
Proof.
  revert d. induction ps as [|p ps IH]; intros d; simpl; [discriminate |].
  destruct (collect_parameter d p) as [d'|e'] eqn:E; simpl.
  - apply IH.
  - intros [= <-]. eapply collect_parameter_error, E.
Qed.

Lemma collect_ok_iff ps d :
  typed ps ->
  (exists d', for_each collect_parameter ps d = Ok d') <->
  agrees d ps /\ pairwise_consistent ps.
Proof.
  intros Ht. revert d. induction Ht as [|p ps [t Hp] Ht IH]; intros d.
  - simpl. split; [| eauto]. intros _. split.
    + intros p t Hp. now apply elem_of_nil in Hp.
    + intros p q Hp. now apply elem_of_nil in Hp.
  - simpl. unfold collect_parameter at 1. rewrite Hp. simpl.
    destruct (d !! p_name p) as [pt|] eqn:Ed.
    + case_bool_decide as Hpt; simpl.
      * rewrite IH. injection Hpt as ->. split.
        -- intros [Ha Hc]. split.
           ++ intros q t' [->|Hq]%elem_of_cons Hd; [congruence | eauto].
           ++ intros q r [->|Hq]%elem_of_cons [->|Hr]%elem_of_cons Hn; eauto.
              ** rewrite Hp. symmetry. apply Ha; [exact Hr | congruence].
              ** rewrite Hp. apply Ha; [exact Hq | congruence].
        -- intros [Ha Hc]. split.
           ++ intros q t' Hq. apply Ha. now right.
           ++ intros q r Hq Hr. apply Hc; now right.
      * split; [intros [d' [=]] |].
        intros [Ha _]. exfalso. apply Hpt.
        rewrite <- Hp. symmetry. apply Ha; [now left | exact Ed].
    + simpl. rewrite IH. split.
      * intros [Ha Hc]. split.
        -- intros q t' [->|Hq]%elem_of_cons Hd; [congruence |].
           destruct (decide (p_name p = p_name q)) as [En|Nn]; [congruence |].
           apply Ha; [exact Hq |]. now rewrite lookup_insert_ne.
        -- assert (Hpq : forall q, q ∈ ps -> p_name p = p_name q ->
                                   p_type_ q = Some t).
           { intros q Hq Hn. apply Ha; [exact Hq |].
             rewrite <- Hn. apply lookup_insert_eq. }
           intros q r [->|Hq]%elem_of_cons [->|Hr]%elem_of_cons Hn; eauto.
           ++ rewrite Hp. symmetry. now apply Hpq.
           ++ rewrite Hp. apply Hpq; [exact Hq | congruence].
      * intros [Ha Hc]. split.
        -- intros q t' Hq Hd.
           destruct (decide (p_name p = p_name q)) as [En|Nn].
           ++ rewrite <- En, lookup_insert_eq in Hd. injection Hd as <-.
              rewrite <- Hp. symmetry. apply Hc; [now left | now right | exact En].
           ++ rewrite lookup_insert_ne in Hd by exact Nn.
              apply Ha; [now right | exact Hd].
        -- intros q r Hq Hr. apply Hc; now right.
Qed.

Lemma collect_lookup ps d d' :
  typed ps -> pairwise_consistent ps ->
  for_each collect_parameter ps d = Ok d' ->
  forall n t,
    d' !! n = Some t <->
    d !! n = Some t \/
    (d !! n = None /\ exists p, p ∈ ps /\ p_name p = n /\ p_type_ p = Some t).
Proof.
  intros Ht. revert d. induction Ht as [|p ps [t0 Hp] Ht IH]; intros d Hc.
  - simpl. intros [= <-] n t. split; [now left |].
    intros [H | (_ & q & Hq & _)]; [exact H | now apply elem_of_nil in Hq].
  - assert (Hc' : pairwise_consistent ps).
    { intros q r Hq Hr. apply Hc; now right. }
    simpl. unfold collect_parameter at 1. rewrite Hp. simpl.
    destruct (d !! p_name p) as [pt|] eqn:Ed.
    + case_bool_decide as Hpt; simpl; [| discriminate].
      intros Hfe n t. rewrite (IH d Hc' Hfe n t). split.
      * intros [H | (Hn & q & Hq & Hq')]; [now left | right].
        split; [exact Hn |]. exists q. split; [now right | exact Hq'].
      * intros [H | (Hn & q & Hq & Hnq & Htq)]; [now left | right].
        split; [exact Hn |]. exists q. split; [| now split].
        apply elem_of_cons in Hq as [-> | Hq]; [congruence | exact Hq].
    + intros Hfe n t. rewrite (IH _ Hc' Hfe n t). split.
      * intros [H | (Hn & q & Hq & Hq')].
        -- destruct (decide (p_name p = n)) as [<-|Nn].
           ++ rewrite lookup_insert_eq in H. injection H as <-.
              right. split; [exact Ed |]. exists p. split; [now left | now split].
           ++ rewrite lookup_insert_ne in H by exact Nn. now left.
        -- destruct (decide (p_name p = n)) as [<-|Nn].
           ++ now rewrite lookup_insert_eq in Hn.
           ++ rewrite lookup_insert_ne in Hn by exact Nn. right.
              split; [exact Hn |]. exists q. split; [now right | exact Hq'].
      * intros [H | (Hn & q & Hq & Hnq & Htq)].
        -- left. rewrite lookup_insert_ne; [exact H | congruence].
        -- destruct (decide (p_name p = n)) as [En|Nn].
           ++ left. rewrite <- En, lookup_insert_eq. rewrite <- Htq, <- Hp.
              apply Hc; [now left | exact Hq | congruence].
           ++ right. rewrite lookup_insert_ne by exact Nn.
              split; [exact Hn |]. exists q. split; [| now split].
              apply elem_of_cons in Hq as [-> | Hq]; [congruence | exact Hq].
Qed.

Lemma is_placeholder_nonempty c : is_placeholder c = true -> nonempty c = true.
Proof. destruct c; [discriminate | reflexivity]. Qed.

Lemma render_component_ok d c rc :
  render_component d c = Ok rc ->
  match rc with
  | None => nonempty c = false
  | Some x => nonempty c = true /\ routable d c x
  end.
Proof.
  unfold render_component, routable.
  destruct (nonempty c) eqn:En; simpl; [| now intros [= <-]].
  destruct (is_placeholder c) eqn:Ep.
  - destruct (d !! strip_ends c) as [t|]; [| discriminate].
    destruct t; simpl; try discriminate; intros [= <-]; split; try reflexivity;
      eexists; (split; [reflexivity |]); auto.
  - now intros [= <-].
Qed.

Lemma render_component_raise d c e :
  render_component d c = Raise e ->
  e = UnsupportedOpenAPISchema None /\ blocked d c.
Proof.
  unfold render_component, blocked.
  destruct (nonempty c); simpl; [| discriminate].
  destruct (is_placeholder c); [| discriminate].
  destruct (d !! strip_ends c) as [t|]; [| intros [= <-]; auto].
  destruct t; simpl; try discriminate; intros [= <-]; split; try reflexivity;
    (split; [reflexivity |]); right; eexists; (split; [reflexivity |]); auto.
Qed.

Lemma render_component_blocked d c :
  blocked d c -> render_component d c = Raise (UnsupportedOpenAPISchema None).
Proof.
  intros [Hp H]. unfold render_component.
  rewrite (is_placeholder_nonempty _ Hp), Hp. simpl.
  destruct H as [-> | (t & -> & [-> | [-> | ->]])]; reflexivity.
Qed.

Lemma render_components_ok d cs rcs :
  render_components d cs = Ok rcs ->
  Forall2 (routable d) (List.filter nonempty cs) rcs.
Proof.
  revert rcs. induction cs as [|c cs IH]; simpl; intros rcs.
  - intros [= <-]. constructor.
  - destruct (render_component d c) as [rc|] eqn:E; simpl; [| discriminate].
    destruct (render_components d cs) as [tail|]; simpl; [| discriminate].
    intros [= <-]. apply render_component_ok in E.
    destruct rc as [x|].
    + destruct E as [-> Hx]. constructor; [exact Hx | now apply IH].
    + rewrite E. now apply IH.
Qed.

Lemma render_components_raise d cs :
  (exists e, render_components d cs = Raise e) <-> exists c, c ∈ cs /\ blocked d c.
Proof.
  induction cs as [|c cs IH]; simpl.
  - split; [intros [e [=]] | intros (c & Hc & _); now apply elem_of_nil in Hc].
  - destruct (render_component d c) as [rc|e] eqn:E; simpl.
    + destruct (render_components d cs) as [tail|e'] eqn:E'; simpl.
      * split; [intros [e [=]] |].
        intros (c' & [-> | Hc']%elem_of_cons & Hb).
        -- apply render_component_blocked in Hb. congruence.
        -- destruct IH as [_ IH]. destruct IH as [e He]; [eauto | discriminate].
      * split; [| eauto]. intros _.
        destruct IH as [IH _]. destruct IH as (c' & Hc' & Hb); [eauto |].
        exists c'. split; [now right | exact Hb].
    + split; [| eauto]. intros _. exists c. split; [now left |].
      now apply render_component_raise in E.
Qed.

Lemma render_components_error d cs e :
  render_components d cs = Raise e -> e = UnsupportedOpenAPISchema None.
Proof.
  induction cs as [|c cs IH]; simpl; [discriminate |].
  destruct (render_component d c) as [rc|e'] eqn:E; simpl.
  - destruct (render_components d cs) as [tail|e'']; simpl; [discriminate |].
    intros [= <-]. now apply IH.
  - intros [= <-]. now apply render_component_raise in E.
Qed.

Lemma consistent_or_not ps :
  pairwise_consistent ps \/
  exists p q, p ∈ ps /\ q ∈ ps /\ p_name p = p_name q /\ p_type_ p <> p_type_ q.
Proof.
  destruct (decide (Forall (fun p => Forall (fun q =>
              p_name p = p_name q -> p_type_ p = p_type_ q) ps) ps)) as [H|H].
  - left. intros p q Hp Hq.
    rewrite Forall_forall in H. specialize (H p Hp).
    rewrite Forall_forall in H. exact (H q Hq).
  - right. apply not_Forall_Exists in H; [| apply _].
    apply Exists_exists in H as (p & Hp & H).
    apply not_Forall_Exists in H; [| apply _].
    apply Exists_exists in H as (q & Hq & H).
    exists p, q. split; [exact Hp |]. split; [exact Hq |].
    destruct (decide (p_name p = p_name q)) as [En|Nn].
    + split; [exact En |]. intros Et. apply H. now intros _.
    + exfalso. apply H. intros En. now destruct Nn.
Qed.

(** C7: when every parameter of the path declares a type,
    [render_as_django_url_pattern] fails exactly when two parameters of the
    path share a name and differ in type, or a placeholder has no parameter
    of its name, or a placeholder's declared type is none of integer,
    number, string; every failure is the unsupported-schema error; and on
    success each placeholder whose type is integer or number shows as
    [<int:name>], each of type string as [<str:name>], every other
    non-empty component as itself, joined by [/]. *)
Theorem C7_render_as_django_url_pattern (path : Path) :
  Forall (fun p => is_Some (p_type_ p)) (all_parameters path) ->
  ((exists e, render_as_django_url_pattern path = Raise e) <->
   inconsistent_parameters path \/ undeclared_placeholder path \/
   unroutable_placeholder path) /\
  (forall e, render_as_django_url_pattern path = Raise e ->
             exists msg, e = UnsupportedOpenAPISchema msg) /\
  (forall s, render_as_django_url_pattern path = Ok s ->
     exists rcs, s = join "/" rcs /\
       Forall2 (rendered_as path) (List.filter nonempty (path_components path)) rcs).
Proof.
  intros Ht. unfold render_as_django_url_pattern.
  rewrite collect_parameters_flat.
  destruct (for_each collect_parameter (all_parameters path) ∅) as [d|e] eqn:Ec;
    simpl.
  - assert (Hc : pairwise_consistent (all_parameters path)).
    { apply (collect_ok_iff _ ∅ Ht). eauto. }
    pose proof (collect_lookup _ _ _ Ht Hc Ec) as Hl.
    assert (L1 : forall n t, d !! n = Some t <-> declared path n t).
    { intros n t. rewrite Hl. rewrite lookup_empty. unfold declared. split.
      - intros [[=] | [_ H]]. exact H.
      - intros H. right. now split. }
    assert (L2 : forall n, d !! n = None ->
                           forall p, p ∈ all_parameters path -> p_name p <> n).
    { intros n Hn q Hq En. rewrite Forall_forall in Ht.
      destruct (Ht q Hq) as [t Hqt].
      assert (d !! n = Some t) by (apply L1; exists q; auto). congruence. }
    assert (Hblock : undeclared_placeholder path \/ unroutable_placeholder path ->
                     exists c, c ∈ path_components path /\ blocked d c).
    { intros [(c & [Hin Hpl] & Hno) | (c & t & [Hin Hpl] & Hd & Hbad)];
        exists c; (split; [exact Hin |]); (split; [exact Hpl |]).
      - left. destruct (d !! strip_ends c) as [t|] eqn:E; [| reflexivity].
        apply L1 in E as (q & Hq & Hn & _). now destruct (Hno q Hq).
      - right. exists t. split; [now apply L1 | exact Hbad]. }
    destruct (render_components d (path_components path)) as [rcs|e] eqn:Er;
      simpl.
    + split; [| split].
      * split; [intros [e [=]] |].
        intros [(q & r & Hq & Hr & Hn & Hne) | H].
        -- destruct Hne. now apply Hc.
        -- apply Hblock, render_components_raise in H as [e He]. congruence.
      * intros e [=].
      * intros s [= <-]. exists rcs. split; [reflexivity |].
        eapply Forall2_impl; [apply render_components_ok, Er |].
        intros c rc. unfold routable, rendered_as.
        destruct (is_placeholder c); [| auto].
        intros (t & Hd & H). exists t. split; [now apply L1 | exact H].
    + split; [| split].
      * split; [| eauto]. intros _. right.
        destruct (proj1 (render_components_raise d (path_components path)))
          as (c & Hin & Hpl & H); [eauto |].
        destruct H as [Hn | (t & Hd & Hbad)].
        -- left. exists c. split; [now split |]. now apply L2.
        -- right. exists c, t. split; [now split |]. split; [now apply L1 | exact Hbad].
      * intros e' [= <-]. apply render_components_error in Er. eauto.
      * intros s [=].
  - split; [| split].
    + split; [| eauto]. intros _. left.
      destruct (consistent_or_not (all_parameters path)) as [Hc | H]; [| exact H].
      exfalso.
      destruct (proj2 (collect_ok_iff _ ∅ Ht)) as [d Hd]; [| congruence].
      split; [| exact Hc]. intros q t _. now rewrite lookup_empty.
    + intros e' [= <-]. apply collect_error in Ec. eauto.
    + intros s [=].
Qed.

Lemma C7_items_witness :
  render_as_django_url_pattern
    {| path_ctx := []; path := "/items/{itemId}";
       verbs := [ (GET, operation [] GET [ path_param "itemId" (Some INTEGER) ] [] None) ] |}
  = Ok "items/<int:itemId>" /\
  exists rcs, "items/<int:itemId>" = join "/" rcs /\
    Forall2 (rendered_as
               {| path_ctx := []; path := "/items/{itemId}";
                  verbs := [ (GET, operation [] GET [ path_param "itemId" (Some INTEGER) ]
                                     [] None) ] |})
      ["items"; "{itemId}"] rcs.
Proof.
  split; [reflexivity |].
  refine (proj2 (proj2 (C7_render_as_django_url_pattern _ _)) _ _).
  - repeat constructor. now exists INTEGER.
  - reflexivity.
Defined.

(** The same placeholder declared as a string in one verb and as an
    integer in another; a placeholder without parameter; a boolean one. *)
Example route_inconsistent_types :
  render_as_django_url_pattern
    {| path_ctx := []; path := "/items/{itemId}";
       verbs := [ (GET, operation [] GET [ path_param "itemId" (Some STRING) ] [] None);
                  (PUT, operation [] PUT [ path_param "itemId" (Some INTEGER) ] [] None) ] |}
  = Raise (UnsupportedOpenAPISchema (Some "inconsistent parameter type")).
Proof. reflexivity. Qed.

Example route_undeclared_placeholder :
  render_as_django_url_pattern
    {| path_ctx := []; path := "/items/{itemId}";
       verbs := [ (GET, operation [] GET [] [] None) ] |}
  = Raise (UnsupportedOpenAPISchema None).
Proof. reflexivity. Qed.

Example route_boolean_placeholder :
  render_as_django_url_pattern
    {| path_ctx := []; path := "/flags/{on}";
       verbs := [ (GET, operation [] GET [ path_param "on" (Some BOOLEAN) ] [] None) ] |}
  = Raise (UnsupportedOpenAPISchema None).
Proof. reflexivity. Qed.

End RouteFacts.

Module GroupingFacts.
Import PyStr JsonPointer Parser NamingConv Models Renderer Samples.

Lemma scan_verbs_spec r sers vs acc :
  Forall (fun v => is_ok (success_serializer r sers v) = true)
    (List.filter is_flagged vs) ->
  exists scan vds,
    for_each (scan_verb r sers) vs acc = Ok scan /\
    verb_descrs scan = verb_descrs acc ++ vds /\
    map vd_verb vds = List.filter is_flagged vs /\
    map (fun name : tokens => drop_last_token (snd name)) (function_names scan) =
    map (fun name : tokens => drop_last_token (snd name)) (function_names acc)
      ++ map handler_prefix (List.filter is_flagged vs).
Proof.
  revert acc. induction vs as [|v vs IH]; intros acc Hok.
  - exists acc, []. simpl. now rewrite !app_nil_r.
  - cbn [for_each List.filter] in *. unfold scan_verb at 1.
    destruct (function_name v) as [fname|] eqn:Ef.
    + assert (Hf : is_flagged v = true) by (unfold is_flagged; now rewrite Ef).
      assert (Hh : handler_prefix v =
                   drop_last_token (snd (tokenize_snake_case_identifier fname true)))
        by (unfold handler_prefix; now rewrite Ef).
      rewrite Hf in *. apply Forall_cons in Hok as [Hv Hok].
      destruct (success_serializer r sers v) as [sd|e]; [| discriminate]. simpl.
      match goal with
      | |- context [for_each _ vs ?a] =>
          destruct (IH a Hok) as (scan & vds & Hfe & Hvd & Hvs & Hfn)
      end.
      exists scan, ({| vd_verb := v; serializer_descriptor := sd |} :: vds).
      split; [exact Hfe |]. split; [| split].
      * rewrite Hvd. simpl. now rewrite <- app_assoc.
      * simpl. now rewrite Hvs.
      * rewrite Hfn. simpl. rewrite map_app, <- app_assoc. simpl.
        now rewrite Hh.
    + assert (Hf : is_flagged v = false) by (unfold is_flagged; now rewrite Ef).
      rewrite Hf in *. simpl. apply IH, Hok.
Qed.

Lemma remove_dups_constant {A} `{EqDecision A} (l : list A) (a : A) :
  l <> [] -> Forall (fun x => x = a) l -> remove_dups l = [a].
Proof.
  induction l as [|x l IH]; [congruence |]. intros _ Hall.
  apply Forall_cons in Hall as [-> Hall]. simpl.
  destruct l as [|y l]; [reflexivity |].
  destruct (decide_rel elem_of a (y :: l)) as [_|Hn].
  - apply IH; [discriminate | exact Hall].
  - destruct Hn. apply Forall_cons in Hall as [-> _]. now left.
Qed.

Lemma remove_dups_singleton {A} `{EqDecision A} (l : list A) (c : A) :
  remove_dups l = [c] -> forall x, x ∈ l -> x = c.
Proof.
  intros E x Hx. apply elem_of_remove_dups in Hx. rewrite E in Hx.
  now apply list_elem_of_singleton in Hx.
Qed.

Lemma remove_dups_nil {A} `{EqDecision A} (l : list A) :
  remove_dups l = [] -> l = [].
Proof.
  destruct l as [|x l]; [reflexivity |]. intros E.
  assert (H : x ∈ remove_dups (x :: l)) by (apply elem_of_remove_dups; now left).
  rewrite E in H. now apply elem_of_nil in H.
Qed.

(** C8: for a path with at least one verb flagged for generation, each of
    whose ["200"] response finds its serializer, the grouping step returns;
    when all the flagged verbs have the same handler-name prefix it adds
    exactly one endpoint, named from the prefix and covering the flagged
    verbs in order, and no standalone handler; when two flagged verbs have
    different prefixes it adds no endpoint and one standalone handler per
    flagged verb. *)
Theorem C8_group_path r sers acc (p : Path) :
  flagged_verbs p <> [] ->
  Forall (fun v => is_ok (success_serializer r sers v) = true) (flagged_verbs p) ->
  exists h vds,
    group_path r sers acc p = Ok h /\
    map vd_verb vds = flagged_verbs p /\
    (forall prefix,
       Forall (fun v => handler_prefix v = prefix) (flagged_verbs p) ->
       endpoints h =
         endpoints acc
           ++ [ {| ep_path := p;
                   class_name := cat (render_as_camel_case (true, prefix)) "View";
                   ep_verbs := vds |} ] /\
       individual_handlers h = individual_handlers acc) /\
    ((exists v w, v ∈ flagged_verbs p /\ w ∈ flagged_verbs p /\
                  handler_prefix v <> handler_prefix w) ->
     endpoints h = endpoints acc /\
     individual_handlers h =
       individual_handlers acc ++ map (fun vd => (p, vd)) vds).
Proof.
  intros Hne Hok. unfold group_path, flagged_verbs in *.
  destruct (scan_verbs_spec r sers (Dict.values (verbs p))
              {| function_names := []; verb_descrs := [] |} Hok)
    as (scan & vds & -> & Hvd & Hvs & Hfn).
  simpl in Hvd, Hfn. simpl. rewrite Hfn.
  set (fl := List.filter is_flagged (Dict.values (verbs p))) in *.
  destruct (remove_dups (map handler_prefix fl)) as [|c [|c' cs]] eqn:E.
  - apply remove_dups_nil, map_eq_nil in E. congruence.
  - eexists _, vds. split; [reflexivity |]. split; [exact Hvs |]. simpl.
    rewrite Hvd. split.
    + intros prefix Hall. split; [| reflexivity].
      destruct fl as [|v fl']; [congruence |].
      apply Forall_cons in Hall as [Hv _].
      assert (handler_prefix v = c) as <-
          by (eapply remove_dups_singleton; [exact E | now left]).
      now rewrite Hv.
    + intros (v & w & Hv & Hw & Hvw). exfalso. apply Hvw.
      transitivity c; [| symmetry];
        (eapply remove_dups_singleton; [exact E |]); now apply list_elem_of_fmap_2.
  - eexists _, vds. split; [reflexivity |]. split; [exact Hvs |]. simpl.
    rewrite Hvd. split.
    + intros prefix Hall. exfalso.
      rewrite (remove_dups_constant (map handler_prefix fl) prefix) in E.
      * discriminate.
      * intros H. apply map_eq_nil in H. congruence.
      * apply Forall_fmap. exact Hall.
    + intros _. split; reflexivity.
Qed.

Lemma C8_widgets_witness :
  exists h vds,
    group_path ∅ [] no_handlers widgets = Ok h /\
    map vd_verb vds = [list_widgets; create_widget] /\
    endpoints h =
      [ {| ep_path := widgets; class_name := "WidgetView"; ep_verbs := vds |} ] /\
    individual_handlers h = [].
Proof.
  destruct (C8_group_path ∅ [] no_handlers widgets)
    as (h & vds & Hg & Hvs & Hsame & _).
  - discriminate.
  - repeat constructor.
  - exists h, vds. split; [exact Hg |]. split; [exact Hvs |].
    apply (Hsame ["widget"]). repeat constructor.
Defined.

(** Two flagged verbs with different prefixes become standalone handlers;
    a path without flagged verbs yields nothing. *)
Example group_path_mixed :
  group_path ∅ [] no_handlers mixed =
  Ok {| endpoints := [];
        individual_handlers :=
          [ (mixed, {| vd_verb := list_gadgets; serializer_descriptor := None |});
            (mixed, {| vd_verb := create_widget; serializer_descriptor := None |}) ] |}.
Proof. reflexivity. Qed.

Lemma group_path_unflagged r sers acc (p : Path) :
  flagged_verbs p = [] ->
  exists h, group_path r sers acc p = Ok h /\
            endpoints h = endpoints acc /\
            individual_handlers h = individual_handlers acc.
Proof.
  intros Hnil. unfold group_path, flagged_verbs in *.
  destruct (scan_verbs_spec r sers (Dict.values (verbs p))
              {| function_names := []; verb_descrs := [] |})
    as (scan & vds & -> & Hvd & Hvs & Hfn).
  - rewrite Hnil. constructor.
  - rewrite Hnil in Hvs, Hfn. simpl in *. rewrite Hfn. simpl.
    apply map_eq_nil in Hvs. rewrite Hvd, Hvs.
    eexists. split; [reflexivity |]. simpl. now rewrite app_nil_r.
Qed.

End GroupingFacts.


Module Pass1Facts.
Import PyStr JsonPointer Parser NamingConv Models Renderer Samples RouteFacts DictFacts.

Lemma for_each_ext {A S} (f g : S -> A -> result exn S) l s :
  (forall s x, f s x = g s x) -> for_each f l s = for_each g l s.
Proof.
  intros E. revert s. induction l as [|x l IH]; intros s; simpl; [reflexivity |].
  rewrite E. destruct (g s x); simpl; [apply IH | reflexivity].
Qed.

Lemma for_each_join {A C S} (g : S -> C -> result exn S) (inner : A -> list C) l s :
  for_each (fun s x => for_each g (inner x) s) l s = for_each g (l ≫= inner) s.
Proof.
  revert s. induction l as [|x l IH]; intros s; [reflexivity |].
  cbn [for_each mbind list_bind]. change (list_bind ?f ?l) with (l ≫= f).
  rewrite for_each_app.
  destruct (for_each g (inner x) s); simpl; [apply IH | reflexivity].
Qed.

Lemma for_each_tag {B C S} (body : S -> B -> result exn S)
    (g : S -> C -> result exn S) (mk : B -> C) ys s :
  (forall s y, g s (mk y) = body s y) ->
  for_each body ys s = for_each g (y ← ys; [mk y]) s.
Proof.
  intros E. revert s. induction ys as [|y ys IH]; intros s; [reflexivity |].
  cbn [for_each mbind list_bind app]. rewrite E.
  destruct (body s y); simpl; [apply IH | reflexivity].
Qed.

Lemma for_each_flagged path vs s :
  for_each (pass1_verb path) vs s =
  for_each (fun s verb =>
              for_each (pass1_response path verb) (Dict.values (responses verb)) s)
    (List.filter is_flagged vs) s.
Proof.
  revert s. induction vs as [|v vs IH]; intros s; [reflexivity |].
  cbn [for_each List.filter]. unfold pass1_verb at 1, is_flagged at 1.
  destruct (function_name v); simpl; [| apply IH].
  destruct (for_each _ _ s); simpl; [apply IH | reflexivity].
Qed.

Lemma pass1_flat spec :
  build_serializers_pass1 spec =
  for_each visit (flagged_responses spec)
    {| important_schema_refs := ∅; pseudo_defs := [] |}.
Proof.
  unfold build_serializers_pass1, flagged_responses.
  rewrite <- for_each_join. apply for_each_ext. intros s path.
  unfold pass1_path. rewrite for_each_flagged, <- for_each_join.
  apply for_each_ext. intros s' verb.
  now apply for_each_tag.
Qed.

Lemma elem_of_flagged_responses spec path verb resp :
  (path, verb, resp) ∈ flagged_responses spec <->
  flagged_response spec path verb resp.
Proof.
  unfold flagged_responses, flagged_response.
  rewrite list_elem_of_bind. split.
  - intros (path' & H & Hp). apply list_elem_of_bind in H as (verb' & H & Hv).
    apply list_elem_of_bind in H as (resp' & H & Hr).
    apply list_elem_of_singleton in H. injection H as -> -> ->.
    apply list_elem_of_In, filter_In in Hv as [Hv Hf].
    apply list_elem_of_In in Hv. auto.
  - intros (Hp & Hv & Hf & Hr). exists path. split; [| exact Hp].
    apply list_elem_of_bind. exists verb. split.
    + apply list_elem_of_bind. exists resp. split; [now left | exact Hr].
    + apply list_elem_of_In, filter_In. split; [now apply list_elem_of_In | exact Hf].
Qed.

(** What a run of the response loop over [ts] adds to the accumulator. *)
Lemma visit_all ts acc :
  (forall path verb resp s,
     (path, verb, resp) ∈ ts -> r_schema resp = Some (inl s) -> def_name s = None) ->
  exists acc',
    for_each visit ts acc = Ok acc' /\
    (forall a, a ∈ important_schema_refs acc' <->
       a ∈ important_schema_refs acc \/
       exists path verb resp sr,
         (path, verb, resp) ∈ ts /\ r_schema resp = Some (inr sr) /\ ref sr = a) /\
    (forall k, is_Some (Dict.get (pseudo_defs acc') k) <->
       is_Some (Dict.get (pseudo_defs acc) k) \/
       exists path verb resp s,
         (path, verb, resp) ∈ ts /\ r_schema resp = Some (inl s) /\ ctx s = k) /\
    (forall k d, Dict.get (pseudo_defs acc') k = Some d ->
       Dict.get (pseudo_defs acc) k = Some d \/
       exists path verb resp s,
         (path, verb, resp) ∈ ts /\ r_schema resp = Some (inl s) /\ ctx s = k /\
         d = as_Definition (build_pseudo_name path verb) s).
Proof.
  revert acc. induction ts as [|[[path verb] resp] ts IH]; intros acc Hdef.
  - exists acc. split; [reflexivity |].
    repeat split; try (intros; now left);
      intros [H | (? & ? & ? & ? & H & _)]; auto; now apply elem_of_nil in H.
  - assert (Hdef' : forall path verb resp s,
              (path, verb, resp) ∈ ts -> r_schema resp = Some (inl s) ->
              def_name s = None).
    { intros ? ? ? ? H. eapply Hdef. right. exact H. }
    cbn [for_each]. unfold visit at 1, pass1_response. cbn [fst snd].
    destruct (r_schema resp) as [[s | sr]|] eqn:Er.
    + rewrite (Hdef path verb resp s) by (auto; now left). simpl.
      match goal with
      | |- context [for_each visit ts ?a] =>
          destruct (IH a Hdef') as (acc' & -> & Hi & Hk & Hd)
      end.
      simpl in Hi, Hk, Hd. exists acc'. split; [reflexivity |].
      split; [| split].
      * intros a. rewrite Hi. split.
        -- intros [H | (p' & v' & r' & sr & H & H')]; [now left | right].
           exists p', v', r', sr. split; [now right | exact H'].
        -- intros [H | (p' & v' & r' & sr & H & Hr & Ha)]; [now left | right].
           apply elem_of_cons in H as [[= -> -> ->] | H]; [congruence |].
           exists p', v', r', sr. auto.
      * intros k. rewrite Hk. split.
        -- intros [H | (p' & v' & r' & s' & H & H')].
           ++ destruct (decide (ctx s = k)) as [<- | Hne].
              ** right. exists path, verb, resp, s. split; [now left | auto].
              ** left. now rewrite get_set_ne in H.
           ++ right. exists p', v', r', s'. split; [now right | exact H'].
        -- intros [H | (p' & v' & r' & s' & H & Hr & Hc)].
           ++ left. destruct (decide (ctx s = k)) as [<- | Hne].
              ** rewrite get_set_eq. eauto.
              ** now rewrite get_set_ne.
           ++ apply elem_of_cons in H as [[= -> -> ->] | H].
              ** left. rewrite Er in Hr. injection Hr as <-. rewrite Hc.
                 rewrite get_set_eq. eauto.
              ** right. exists p', v', r', s'. auto.
      * intros k d Hkd. apply Hd in Hkd as [H | (p' & v' & r' & s' & H & H')].
        -- destruct (decide (ctx s = k)) as [<- | Hne].
           ++ rewrite get_set_eq in H. injection H as <-.
              right. exists path, verb, resp, s. split; [now left | auto].
           ++ left. now rewrite get_set_ne in H.
        -- right. exists p', v', r', s'. split; [now right | exact H'].
    + simpl.
      match goal with
      | |- context [for_each visit ts ?a] =>
          destruct (IH a Hdef') as (acc' & -> & Hi & Hk & Hd)
      end.
      simpl in Hi, Hk, Hd. exists acc'. split; [reflexivity |].
      split; [| split].
      * intros a. rewrite Hi, elem_of_union, elem_of_singleton. split.
        -- intros [[-> | H] | (p' & v' & r' & sr' & H & H')].
           ++ right. exists path, verb, resp, sr. split; [now left | auto].
           ++ now left.
           ++ right. exists p', v', r', sr'. split; [now right | exact H'].
        -- intros [H | (p' & v' & r' & sr' & H & Hr & Ha)]; [left; now right |].
           apply elem_of_cons in H as [[= -> -> ->] | H].
           ++ left. left. congruence.
           ++ right. exists p', v', r', sr'. auto.
      * intros k. rewrite Hk. split.
        -- intros [H | (p' & v' & r' & s' & H & H')]; [now left | right].
           exists p', v', r', s'. split; [now right | exact H'].
        -- intros [H | (p' & v' & r' & s' & H & Hr & Hc)]; [now left | right].
           apply elem_of_cons in H as [[= -> -> ->] | H]; [congruence |].
           exists p', v', r', s'. auto.
      * intros k d Hkd. apply Hd in Hkd as [H | (p' & v' & r' & s' & H & H')];
          [now left | right].
        exists p', v', r', s'. split; [now right | exact H'].
    + simpl. destruct (IH acc Hdef') as (acc' & -> & Hi & Hk & Hd).
      exists acc'. split; [reflexivity |].
      split; [| split].
      * intros a. rewrite Hi. split.
        -- intros [H | (p' & v' & r' & sr & H & H')]; [now left | right].
           exists p', v', r', sr. split; [now right | exact H'].
        -- intros [H | (p' & v' & r' & sr & H & Hr & Ha)]; [now left | right].
           apply elem_of_cons in H as [[= -> -> ->] | H]; [congruence |].
           exists p', v', r', sr. auto.
      * intros k. rewrite Hk. split.
        -- intros [H | (p' & v' & r' & s' & H & H')]; [now left | right].
           exists p', v', r', s'. split; [now right | exact H'].
        -- intros [H | (p' & v' & r' & s' & H & Hr & Hc)]; [now left | right].
           apply elem_of_cons in H as [[= -> -> ->] | H]; [congruence |].
           exists p', v', r', s'. auto.
      * intros k d Hkd. apply Hd in Hkd as [H | (p' & v' & r' & s' & H & H')];
          [now left | right].
        exists p', v', r', s'. split; [now right | exact H'].
Qed.

(** C2 (as amended): pass 1 examines every response, of whatever status
    code, of every verb carrying a generator function name.  When the
    inline response schemas are plain schemas it returns, and then an
    address is marked important exactly when it is referenced by the schema
    of such a response, and the pseudo-definitions are keyed exactly by the
    addresses of the inline schemas of such responses, each a
    [Definition] clone of such an inline schema named by
    [build_pseudo_name]. *)
Theorem C2_pass1_examines_every_response (spec : OpenAPISpec) :
  Forall (fun t : Path * Verb * Response => inline_is_plain t.2 = true)
    (flagged_responses spec) ->
  exists p1,
    build_serializers_pass1 spec = Ok p1 /\
    (forall a, a ∈ important_schema_refs p1 <->
       exists path verb resp sr,
         flagged_response spec path verb resp /\
         r_schema resp = Some (inr sr) /\ ref sr = a) /\
    (forall k, is_Some (Dict.get (pseudo_defs p1) k) <->
       exists path verb resp s,
         flagged_response spec path verb resp /\
         r_schema resp = Some (inl s) /\ ctx s = k) /\
    (forall k d, Dict.get (pseudo_defs p1) k = Some d ->
       exists path verb resp s,
         flagged_response spec path verb resp /\
         r_schema resp = Some (inl s) /\ ctx s = k /\
         d = as_Definition (build_pseudo_name path verb) s).
Proof.
  intros Hplain. rewrite pass1_flat.
  destruct (visit_all (flagged_responses spec)
              {| important_schema_refs := ∅; pseudo_defs := [] |})
    as (p1 & -> & Hi & Hk & Hd).
  { intros path verb resp s Hin Hs. rewrite Forall_forall in Hplain.
    specialize (Hplain _ Hin). unfold inline_is_plain, is_Definition in Hplain.
    cbn [snd] in Hplain. rewrite Hs in Hplain.
    destruct (def_name s); [discriminate | reflexivity]. }
  exists p1. split; [reflexivity |]. simpl in Hi, Hk, Hd.
  split; [| split].
  - intros a. rewrite Hi. split.
    + intros [H | (path & verb & resp & sr & H & H')]; [now apply elem_of_empty in H |].
      exists path, verb, resp, sr. split; [now apply elem_of_flagged_responses | exact H'].
    + intros (path & verb & resp & sr & H & H'). right.
      exists path, verb, resp, sr. split; [now apply elem_of_flagged_responses | exact H'].
  - intros k. rewrite Hk. split.
    + intros [[x [=]] | (path & verb & resp & s & H & H')].
      exists path, verb, resp, s. split; [now apply elem_of_flagged_responses | exact H'].
    + intros (path & verb & resp & s & H & H'). right.
      exists path, verb, resp, s. split; [now apply elem_of_flagged_responses | exact H'].
  - intros k d Hkd. apply Hd in Hkd as [[=] | (path & verb & resp & s & H & H')].
    exists path, verb, resp, s. split; [now apply elem_of_flagged_responses | exact H'].
Qed.

(** C2, the claim as stated fails: the only response with a schema is a
    404, there is no 200 response, and the referenced address is marked
    important all the same. *)
Lemma C2_response_404_is_examined :
  Dict.get (responses get_missing) "200" = None /\
  (let! p1 := build_serializers_pass1 missing_spec in
   Ok (bool_decide (["definitions"; "Tag"] ∈ important_schema_refs p1))) = Ok true.
Proof. split; [reflexivity | vm_compute; reflexivity]. Qed.

Lemma C2_two_paths_witness :
  exists p1,
    build_serializers_pass1 two_paths_spec = Ok p1 /\
    (["definitions"; "Tag"] ∈ important_schema_refs p1) /\
    is_Some (Dict.get (pseudo_defs p1)
               ["paths"; "/widgets/{id}"; "responses"; "200"; "schema"]).
Proof.
  destruct (C2_pass1_examines_every_response two_paths_spec)
    as (p1 & Hp1 & Hi & Hk & _).
  - repeat constructor.
  - exists p1. split; [exact Hp1 |]. split.
    + apply Hi. eexists _, get_missing, _, _. split.
      * split; [right; left |]. split; [left |]. split; [reflexivity | left].
      * split; reflexivity.
    + apply Hk. eexists widgets_id, get_widget, _, _. split.
      * split; [left |]. split; [left |]. split; [reflexivity | left].
      * split; reflexivity.
Defined.

End Pass1Facts.

Module WeightFacts.
Import JsonPointer Parser Models Renderer Samples.

Section Weights.
Variable heap : list SerializerDescriptor.
(** A rank that strictly decreases from a descriptor to its owners: the
    ownership graph has no cycle, and no owner is dangling. *)
Variable rank : ObjectID -> nat.
Hypothesis owners_below :
  forall d descr o, heap !! d = Some descr -> o ∈ owners descr ->
                    is_Some (heap !! o) /\ rank o < rank d.

Local Abbreviation W := (weight heap rank).
Local Abbreviation MemoOk := (memo_ok heap rank).

Lemma weight_spec_depth n m d :
  rank d < n -> rank d < m -> weight_spec heap n d = weight_spec heap m d.
Proof.
  revert m d. induction n as [|n IH]; intros m d Hn Hm; [lia |].
  destruct m as [|m]; [lia |]. simpl.
  destruct (heap !! d) as [descr|] eqn:Ed; [| reflexivity].
  f_equal. f_equal. apply map_ext_in. intros o Ho.
  apply list_elem_of_In in Ho.
  destruct (owners_below d descr o Ed Ho) as [_ Hr].
  apply IH; lia.
Qed.

Lemma weight_equation d descr :
  heap !! d = Some descr ->
  W d = (1 + sum_list (map W (owners descr)))%Z.
Proof.
  intros Ed. unfold W at 1. simpl. rewrite Ed.
  f_equal. f_equal. apply map_ext_in. intros o Ho.
  apply list_elem_of_In in Ho.
  destruct (owners_below d descr o Ed Ho) as [_ Hr].
  apply weight_spec_depth; lia.
Qed.

Lemma memo_ok_insert w d :
  MemoOk w -> MemoOk (<[d := W d]> w).
Proof.
  intros Hw d' v. destruct (decide (d = d')) as [<-|Hne].
  - rewrite lookup_insert_eq. congruence.
  - rewrite lookup_insert_ne by exact Hne. apply Hw.
Qed.

Lemma sum_owner_weights_correct weigh os :
  (forall o w, o ∈ os -> MemoOk w ->
               exists w', weigh o w = Ok (W o, w') /\ MemoOk w') ->
  forall acc w, MemoOk w ->
    exists w', sum_owner_weights weigh os acc w
               = Ok ((acc + sum_list (map W os))%Z, w') /\ MemoOk w'.
Proof.
  induction os as [|o os IH]; intros Hweigh acc w Hw; simpl.
  - exists w. split; [do 2 f_equal; lia | exact Hw].
  - destruct (Hweigh o w) as (w1 & -> & Hw1); [now left | exact Hw |]. simpl.
    destruct (IH (fun o' w' Ho' => Hweigh o' w' (list_elem_of_further _ _ _ Ho'))
                 (acc + W o)%Z w1 Hw1) as (w2 & -> & Hw2).
    exists w2. split; [do 2 f_equal; lia | exact Hw2].
Qed.

Lemma eval_weight_correct fuel d w :
  rank d < fuel -> is_Some (heap !! d) -> MemoOk w ->
  exists w', eval_weight heap fuel d w = Ok (W d, w') /\ MemoOk w'.
Proof.
  revert d w. induction fuel as [|fuel IH]; intros d w Hr [descr Ed] Hw; [lia |].
  simpl. destruct (w !! d) as [v|] eqn:Em.
  - exists w. rewrite (Hw d v Em). now split.
  - rewrite Ed.
    destruct (sum_owner_weights_correct (eval_weight heap fuel) (owners descr))
      with (acc := 0%Z) (w := w) as (w1 & -> & Hw1); [| exact Hw |].
    { intros o w' Ho Hw'. destruct (owners_below d descr o Ed Ho) as [Hso Hro].
      apply IH; [lia | exact Hso | exact Hw']. }
    simpl. rewrite (weight_equation d descr Ed).
    replace (0 + sum_list (map W (owners descr)) + 1)%Z
      with (1 + sum_list (map W (owners descr)))%Z by lia.
    eexists. split; [reflexivity |].
    rewrite <- (weight_equation d descr Ed). now apply memo_ok_insert.
Qed.

Lemma eval_weights_from_correct fuel sers w :
  Forall (fun d => is_Some (heap !! d) /\ rank d < fuel) sers -> MemoOk w ->
  eval_weights_from heap fuel sers w = Ok (map (fun d => (d, W d)) sers).
Proof.
  intros Hs. revert w. induction Hs as [|d sers [Hd Hr] Hs IH]; intros w Hw;
    [reflexivity |].
  simpl. destruct (eval_weight_correct fuel d w Hr Hd Hw) as (w1 & -> & Hw1).
  simpl. now rewrite (IH w1 Hw1).
Qed.

Lemma rank_bound :
  exists b, forall d, is_Some (heap !! d) -> rank d < b.
Proof.
  exists (S (list_max (map rank (seq 0 (length heap))))). intros d Hd.
  apply lookup_lt_is_Some in Hd.
  assert (Hin : In (rank d) (map rank (seq 0 (length heap)))).
  { apply in_map, in_seq. lia. }
  pose proof (proj1 (list_max_le (map rank (seq 0 (length heap))) _)
                (Nat.le_refl _)) as Hall.
  rewrite List.Forall_forall in Hall. specialize (Hall _ Hin). lia.
Qed.

End Weights.

Section Sorting.
Context {A : Type} (key : A -> Z).

Lemma insert_by_key_perm x l : Permutation (insert_by_key key x l) (x :: l).
Proof.
  induction l as [|y l IH]; simpl; [reflexivity |].
  destruct (key x <=? key y)%Z; [reflexivity |].
  rewrite IH. apply perm_swap.
Qed.

Lemma sorted_perm l : Permutation (sorted key l) l.
Proof.
  induction l as [|x l IH]; simpl; [reflexivity |].
  rewrite insert_by_key_perm. now constructor.
Qed.

Lemma insert_by_key_sorted x l :
  StronglySorted (fun a b => (key a <= key b)%Z) l ->
  StronglySorted (fun a b => (key a <= key b)%Z) (insert_by_key key x l).
Proof.
  induction 1 as [|y l Hl IH Hy]; simpl; [repeat constructor |].
  destruct (Z.leb_spec (key x) (key y)) as [Hxy|Hxy].
  - constructor; [now constructor |].
    constructor; [exact Hxy |].
    eapply List.Forall_impl; [| exact Hy]. intros z Hz. simpl in Hz. lia.
  - constructor; [exact IH |].
    eapply Permutation_Forall; [symmetry; apply insert_by_key_perm |].
    constructor; [lia | exact Hy].
Qed.

Lemma sorted_sorted l :
  StronglySorted (fun a b => (key a <= key b)%Z) (sorted key l).
Proof.
  induction l as [|x l IH]; simpl; [constructor |].
  now apply insert_by_key_sorted.
Qed.

(** Insertion keeps the elements of equal key in their order. *)
Lemma insert_by_key_stable v x l :
  List.filter (fun y => (key y =? v)%Z) (insert_by_key key x l) =
  List.filter (fun y => (key y =? v)%Z) (x :: l).
Proof.
  induction l as [|y l IH]; [reflexivity |]. cbn [insert_by_key].
  destruct (Z.leb_spec (key x) (key y)) as [Hxy|Hxy]; [reflexivity |].
  cbn [List.filter] in *. rewrite IH.
  destruct (Z.eqb_spec (key x) v), (Z.eqb_spec (key y) v); try reflexivity. lia.
Qed.

Lemma sorted_stable v l :
  List.filter (fun y => (key y =? v)%Z) (sorted key l) =
  List.filter (fun y => (key y =? v)%Z) l.
Proof.
  induction l as [|x l IH]; [reflexivity |].
  cbn [sorted foldr]. fold (sorted key l). rewrite insert_by_key_stable.
  cbn [List.filter]. now rewrite IH.
Qed.

End Sorting.

Lemma StronglySorted_weaken {A} (R R' : A -> A -> Prop) l :
  (forall a b, R a b -> R' a b) -> StronglySorted R l -> StronglySorted R' l.
Proof.
  intros HR. induction 1 as [|x l Hl IH Hx]; constructor; [exact IH |].
  eapply List.Forall_impl; [| exact Hx]. intros y. apply HR.
Qed.

Lemma sorted_map {A B} (f : A -> B) (key : B -> Z) l :
  sorted key (map f l) = map f (sorted (fun x => key (f x)) l).
Proof.
  induction l as [|x l IH]; [reflexivity |].
  cbn [map sorted foldr]. fold (sorted key (map f l)).
  fold (sorted (fun x => key (f x)) l). rewrite IH.
  generalize (sorted (fun x => key (f x)) l). intros s.
  induction s as [|y s IHs]; [reflexivity |]. simpl.
  destruct (key (f x) <=? key (f y))%Z; [reflexivity |]. simpl. now rewrite IHs.
Qed.

(** C5: in a store whose ownership graph is acyclic (a rank decreases
    from every descriptor to its owners), with enough fuel [eval_weights]
    returns for every descriptor the unique weight satisfying
    [weight d = 1 + sum of the weights of d's owners] (so 1 for a
    descriptor without owners), and the serializers are emitted as a
    permutation of the registered descriptors in descending weight, equal
    weights in their order of registration. *)
Theorem C5_weights_and_emission_order (st : Store) (rank : ObjectID -> nat) :
  (forall d descr o, heap st !! d = Some descr -> o ∈ owners descr ->
                     is_Some (heap st !! o) /\ rank o < rank d) ->
  Forall (fun d => is_Some (heap st !! d)) (Dict.values (serializers st)) ->
  exists (w : ObjectID -> Z) (fuel0 : nat),
    (forall d descr, heap st !! d = Some descr ->
       w d = (1 + sum_list (map w (owners descr)))%Z) /\
    (forall d descr, heap st !! d = Some descr -> owners descr = [] -> w d = 1%Z) /\
    (forall d depth, rank d < depth -> w d = weight_spec (heap st) depth d) /\
    (forall fuel, fuel0 <= fuel ->
       eval_weights (heap st) fuel (Dict.values (serializers st))
         = Ok (map (fun d => (d, w d)) (Dict.values (serializers st))) /\
       exists order,
         render_serializers_order fuel st = Ok order /\
         Permutation order (Dict.values (serializers st)) /\
         StronglySorted (fun a b => (w b <= w a)%Z) order /\
         (forall v, List.filter (fun d => (w d =? v)%Z) order =
                    List.filter (fun d => (w d =? v)%Z) (Dict.values (serializers st)))).
Proof.
  intros Hown Hreg.
  destruct (rank_bound (heap st) rank) as [b Hb].
  exists (weight (heap st) rank), b.
  split; [| split; [| split]].
  - intros d descr. now apply weight_equation.
  - intros d descr Ed Ho. rewrite (weight_equation _ _ Hown d descr Ed), Ho.
    reflexivity.
  - intros d depth Hd. unfold weight. apply (weight_spec_depth _ _ Hown); lia.
  - intros fuel Hfuel.
    assert (E : eval_weights (heap st) fuel (Dict.values (serializers st))
                = Ok (map (fun d => (d, weight (heap st) rank d))
                        (Dict.values (serializers st)))).
    { apply (eval_weights_from_correct _ _ Hown).
      - eapply List.Forall_impl; [| exact Hreg]. intros d Hd. simpl.
        split; [exact Hd |]. specialize (Hb d Hd). lia.
      - intros d v. now rewrite lookup_empty. }
    split; [exact E |].
    unfold render_serializers_order. rewrite E. simpl.
    rewrite (sorted_map (fun d => (d, weight (heap st) rank d))
               (fun pair : ObjectID * Z => (- snd pair)%Z)).
    rewrite map_map. simpl. rewrite map_id.
    eexists. split; [reflexivity |]. split; [apply sorted_perm |]. split.
    + eapply StronglySorted_weaken; [| apply sorted_sorted].
      intros a c Hac. simpl in Hac. lia.
    + intros v.
      assert (Hext : forall l,
                List.filter (fun d => (weight (heap st) rank d =? v)%Z) l =
                List.filter (fun d => (- weight (heap st) rank d =? - v)%Z) l).
      { intros l. apply filter_ext. intros d.
        destruct (Z.eqb_spec (weight (heap st) rank d) v),
                 (Z.eqb_spec (- weight (heap st) rank d) (- v));
          try reflexivity; lia. }
      rewrite !Hext.
      apply (sorted_stable (fun d => (- weight (heap st) rank d)%Z)).
Qed.

Lemma C5_basket_witness :
  exists (w : ObjectID -> Z) (fuel0 : nat),
    w 0%nat = 1%Z /\ w 2%nat = (1 + sum_list [w 1%nat; w 3%nat])%Z /\
    forall fuel, fuel0 <= fuel ->
      exists order,
        render_serializers_order fuel basket_store = Ok order /\
        Permutation order [0; 1; 2; 3] /\
        StronglySorted (fun a b => (w b <= w a)%Z) order.
Proof.
  destruct (C5_weights_and_emission_order basket_store basket_rank)
    as (w & fuel0 & Heq & Hone & _ & Hrun).
  - intros d descr o Hd Ho.
    destruct d as [|[|[|[|d]]]]; try discriminate Hd; injection Hd as <-;
      simpl in Ho;
      repeat (apply elem_of_cons in Ho as [-> | Ho]);
      try (now apply elem_of_nil in Ho);
      (split; [eexists; reflexivity | simpl; lia]).
  - repeat constructor; eexists; reflexivity.
  - exists w, fuel0. split; [| split].
    + now apply (Hone 0 _ eq_refl).
    + exact (Heq 2 _ eq_refl).
    + intros fuel Hfuel. destruct (Hrun fuel Hfuel) as (_ & order & H1 & H2 & H3 & _).
      exists order. auto.
Defined.

(** On [basket_store]: [Tag] weighs 5, the two inline objects 2 each, and
    [Basket] 1; the emission order puts [Tag] first and keeps the two
    inline objects in their order of registration. *)
Example basket_emission_order :
  eval_weights (heap basket_store) 3 [0; 1; 2; 3]
    = Ok [ (0, 1%Z); (1, 2%Z); (2, 5%Z); (3, 2%Z) ] /\
  render_serializers_order 3 basket_store = Ok [2; 1; 3; 0].
Proof. split; vm_compute; reflexivity. Qed.

End WeightFacts.

(* ===================================================================== *)
(** * Further properties: json_pointer.py *)
(* ===================================================================== *)

Module JsonPointerMore.
Import PyStr PyStrFacts JsonPointer JsonPointerFacts.

Lemma replace_nonempty s old new :
  nonempty new = true -> nonempty s = true -> nonempty (replace s old new) = true.
Proof.
  unfold replace. destruct s as [|c s]; [discriminate |]. intros Hnew _.
  cbn [replace_from]. destruct (is_prefix old (String c s)); [| reflexivity].
  destruct new; [discriminate | reflexivity].
Qed.

Lemma unquote_nonempty c :
  nonempty c = true -> nonempty (unquote_json_pointer c) = true.
Proof.
  intros H. unfold unquote_json_pointer.
  apply replace_nonempty; [reflexivity |]. now apply replace_nonempty.
Qed.

Lemma from_string_all_nonempty uq v :
  Forall (fun c => nonempty c = true) (from_string uq v).
Proof.
  unfold from_string.
  generalize (split "/" match v with String "#" rest => uq rest | _ => v end).
  intros l. induction l as [|c l IH]; simpl; [constructor |].
  destruct (nonempty c) eqn:E; [| exact IH].
  simpl. constructor; [now apply unquote_nonempty | exact IH].
Qed.

(** [from_string] never produces an empty segment, whatever the text (and
    whatever [urllib.parse.unquote] makes of a [#] fragment); in
    particular the text [/] and the empty text both parse to the root. *)
Theorem from_string_segments_nonempty uq v :
  Forall (fun c => nonempty c = true) (from_string uq v) /\
  from_string uq "/" = [] /\ from_string uq "" = [].
Proof. split; [apply from_string_all_nonempty | split; reflexivity]. Qed.

Lemma filter_nonempty_all a :
  Forall (fun c => nonempty c = true) a -> List.filter nonempty a = a.
Proof.
  induction 1 as [|c a Hc _ IH]; simpl; [reflexivity |]. now rewrite Hc, IH.
Qed.

(** Rendering a parsed pointer and parsing it again gives the same
    pointer: parse, render, parse is parse. *)
Theorem parse_render_parse uq uq' v :
  from_string uq' (to_str (from_string uq v)) = from_string uq v.
Proof.
  rewrite from_string_to_str. apply filter_nonempty_all,
    from_string_all_nonempty.
Qed.

(** Two pointers without empty segments that render to the same text are
    the same pointer. *)
Theorem to_str_injective (a b : JSONPointer) :
  Forall (fun c => nonempty c = true) a ->
  Forall (fun c => nonempty c = true) b ->
  to_str a = to_str b -> a = b.
Proof.
  intros Ha Hb E.
  rewrite <- (filter_nonempty_all a Ha), <- (filter_nonempty_all b Hb).
  rewrite <- (from_string_to_str (fun s => s) a),
          <- (from_string_to_str (fun s => s) b).
  now rewrite E.
Qed.

Lemma to_str_injective_witness :
  ["definitions"; "a/b"] = from_string (fun s => s) "/definitions/a~1b".
Proof.
  apply to_str_injective.
  - repeat constructor.
  - repeat constructor.
  - reflexivity.
Defined.

(** Escaping is injective, and escaped text holds no [/]: the segments of
    a rendered pointer are delimited by the slashes alone. *)
Theorem quote_json_pointer_injective_slash_free :
  (forall a b, quote_json_pointer a = quote_json_pointer b <-> a = b) /\
  (forall v, is_prefix "/" (quote_json_pointer v) = false) /\
  (forall v, split "/" (quote_json_pointer v) = [quote_json_pointer v]).
Proof.
  split; [| split].
  - intros a b. split; [| now intros ->].
    intros E. rewrite <- (unquote_quote a), <- (unquote_quote b). now rewrite E.
  - intros v. pose proof (quote_no_slash v) as H.
    destruct (quote_json_pointer v) as [|c s]; [reflexivity |].
    cbn -[Ascii.eqb].
    destruct (Ascii.eqb_spec "/" c) as [<-|]; [| reflexivity].
    exfalso. apply (H "/"%char); [now left | reflexivity].
  - intros v. apply split_no_sep, quote_no_slash.
Qed.

Lemma concat_app l1 l2 : concat (l1 ++ l2) = cat (concat l1) (concat l2).
Proof.
  induction l1 as [|x l1 IH]; [reflexivity |].
  cbn [app]. now rewrite !concat_cons, IH, cat_assoc.
Qed.

(** The text of a child pointer is the text of its parent followed by a
    slash and the escaped segment; the root contributes nothing. *)
Theorem to_str_new_sub_context (p : JSONPointer) (c : string) :
  to_str (new_sub_context p c) =
  cat (match p with [] => "" | _ => to_str p end) (cat "/" (quote_json_pointer c)).
Proof.
  unfold new_sub_context. destruct p as [|x p]; [reflexivity |].
  change (concat (map segment_text ((x :: p) ++ [c])) =
          cat (concat (map segment_text (x :: p))) (segment_text c)).
  rewrite map_app, concat_app. reflexivity.
Qed.

End JsonPointerMore.

(* ===================================================================== *)
(** * Further properties: utils.py *)
(* ===================================================================== *)

Module IdentitySetFacts.
Import Parser Models.

Lemma add_elem_of s x y : y ∈ IdentitySet_add s x <-> y ∈ s \/ y = x.
Proof.
  unfold IdentitySet_add. case_bool_decide as Hx.
  - split; [now left | intros [H | ->]; assumption].
  - rewrite elem_of_app, list_elem_of_singleton. reflexivity.
Qed.

Lemma add_NoDup s x : NoDup s -> NoDup (IdentitySet_add s x).
Proof.
  intros Hs. unfold IdentitySet_add. case_bool_decide as Hx; [exact Hs |].
  apply NoDup_app. split; [exact Hs |]. split; [| apply NoDup_singleton].
  intros y Hy Hy'. apply list_elem_of_singleton in Hy'. now subst.
Qed.

(** [add] is set insertion on identities: membership afterwards is
    membership before or being the item added; the length grows by one
    exactly when the item is new; no identity is ever held twice. *)
Theorem IdentitySet_add_is_insertion (s : IdentitySet) (x : ObjectID) :
  (forall y, IdentitySet_contains (IdentitySet_add s x) y =
             IdentitySet_contains s y || Nat.eqb y x) /\
  IdentitySet_len (IdentitySet_add s x) =
    IdentitySet_len s + (if IdentitySet_contains s x then 0 else 1) /\
  (NoDup s -> NoDup (IdentitySet_add s x)).
Proof.
  split; [| split].
  - intros y. unfold IdentitySet_contains.
    apply eq_true_iff_eq. rewrite orb_true_iff, !bool_decide_eq_true, Nat.eqb_eq.
    apply add_elem_of.
  - unfold IdentitySet_len, IdentitySet_contains, IdentitySet_add.
    case_bool_decide; [lia |]. rewrite length_app. reflexivity.
  - apply add_NoDup.
Qed.

Lemma filter_ne_elem_of (s : list nat) x y :
  y ∈ List.filter (fun z => negb (Nat.eqb z x)) s <-> y ∈ s /\ y <> x.
Proof.
  rewrite !list_elem_of_In, filter_In, negb_true_iff, Nat.eqb_neq. reflexivity.
Qed.

Lemma filter_ne_length (s : list nat) x :
  NoDup s -> x ∈ s ->
  S (length (List.filter (fun z => negb (Nat.eqb z x)) s)) = length s.
Proof.
  induction 1 as [|y s Hy Hs IH]; intros Hx; [now apply elem_of_nil in Hx |].
  simpl. destruct (Nat.eqb_spec y x) as [->|Hne]; simpl.
  - f_equal. clear IH Hx. induction s as [|z s IHs]; [reflexivity |].
    apply not_elem_of_cons in Hy as [Hzx Hy]. apply NoDup_cons in Hs as [_ Hs].
    simpl. destruct (Nat.eqb_spec z x) as [->|_]; [congruence |].
    simpl. f_equal. now apply IHs.
  - f_equal. apply IH. apply elem_of_cons in Hx as [-> | Hx]; [congruence | exact Hx].
Qed.

Lemma filter_NoDup (s : list nat) f : NoDup s -> NoDup (List.filter f s).
Proof.
  induction 1 as [|y s Hy Hs IH]; simpl; [constructor |].
  destruct (f y); [| exact IH]. constructor; [| exact IH].
  rewrite list_elem_of_In, filter_In, <- list_elem_of_In. tauto.
Qed.

(** [discard] raises [KeyError] on an item that is not in the set; on an
    item of the set it removes that item and nothing else, and undoes an
    [add] of a new item. *)
Theorem IdentitySet_discard_spec (s : IdentitySet) (x : ObjectID) :
  (IdentitySet_contains s x = false -> IdentitySet_discard s x = Raise KeyError) /\
  (NoDup s -> IdentitySet_contains s x = true ->
   exists s', IdentitySet_discard s x = Ok s' /\ NoDup s' /\
     S (IdentitySet_len s') = IdentitySet_len s /\
     forall y, IdentitySet_contains s' y =
               IdentitySet_contains s y && negb (Nat.eqb y x)) /\
  (IdentitySet_contains s x = false ->
   IdentitySet_discard (IdentitySet_add s x) x = Ok s).
Proof.
  unfold IdentitySet_discard, IdentitySet_contains, IdentitySet_len.
  split; [| split].
  - now intros ->.
  - intros Hs Hx. rewrite Hx. apply bool_decide_eq_true in Hx.
    eexists. split; [reflexivity |]. split; [now apply filter_NoDup |].
    split; [now apply filter_ne_length |].
    intros y. apply eq_true_iff_eq.
    rewrite andb_true_iff, negb_true_iff, !bool_decide_eq_true, Nat.eqb_neq.
    apply filter_ne_elem_of.
  - intros Hx. rewrite bool_decide_eq_true_2 by (apply add_elem_of; now right).
    f_equal. unfold IdentitySet_add. rewrite Hx.
    apply bool_decide_eq_false in Hx.
    rewrite List.filter_app. simpl. rewrite Nat.eqb_refl. simpl.
    rewrite app_nil_r. apply forallb_filter_id, forallb_forall.
    intros z Hz. apply negb_true_iff, Nat.eqb_neq. intros ->.
    now apply Hx, list_elem_of_In.
Qed.

Lemma init_elem_of_from acc items y :
  y ∈ foldl IdentitySet_add acc items <-> y ∈ acc \/ y ∈ items.
Proof.
  revert acc. induction items as [|x items IH]; intros acc; simpl.
  - split; [now left | intros [H | H]; [exact H | now apply elem_of_nil in H]].
  - rewrite IH, add_elem_of, elem_of_cons. tauto.
Qed.

Lemma init_NoDup_from acc items :
  NoDup acc -> NoDup (foldl IdentitySet_add acc items).
Proof.
  revert acc. induction items as [|x items IH]; intros acc Hacc; simpl;
    [exact Hacc |]. apply IH. now apply add_NoDup.
Qed.

Lemma init_length_from acc items :
  length (foldl IdentitySet_add acc items) <= length acc + length items.
Proof.
  revert acc. induction items as [|x items IH]; intros acc; simpl; [lia |].
  etransitivity; [apply IH |]. unfold IdentitySet_add.
  case_bool_decide; [lia |]. rewrite length_app. simpl. lia.
Qed.

(** A set built from a sequence of items holds exactly the items of the
    sequence, each once: it is empty for an empty sequence and never longer
    than the sequence. *)
Theorem IdentitySet_init_spec (items : list ObjectID) :
  (forall y, IdentitySet_contains (IdentitySet_init items) y = bool_decide (y ∈ items)) /\
  NoDup (IdentitySet_init items) /\
  IdentitySet_len (IdentitySet_init items) <= length items /\
  IdentitySet_len (IdentitySet_init []) = 0.
Proof.
  unfold IdentitySet_init, IdentitySet_contains, IdentitySet_len.
  split; [| split; [| split]].
  - intros y. apply eq_true_iff_eq. rewrite !bool_decide_eq_true.
    rewrite init_elem_of_from. split; [| now right].
    intros [H | H]; [now apply elem_of_nil in H | exact H].
  - apply init_NoDup_from. constructor.
  - apply (init_length_from [] items).
  - reflexivity.
Qed.

End IdentitySetFacts.

(* ===================================================================== *)
(** * Further properties: renderer/naming_conv.py *)
(* ===================================================================== *)

Module NamingConvFacts.
Import PyStr PyStrFacts NamingConv.

(** The cases of the package's own test of the tokenizer. *)
Example tokenize_camel_case_tests :
  tokenize_camel_case_identifier "ABC" = (false, ["a"; "b"; "c"]) /\
  tokenize_camel_case_identifier "XMLHTTPRequest" = (false, ["xml"; "http"; "request"]) /\
  tokenize_camel_case_identifier "XmlHttpRequest" = (false, ["xml"; "http"; "request"]) /\
  render_as_camel_case (false, ["a"; "b"; "c"]) = "aBC" /\
  render_as_camel_case (false, ["xml"; "http"; "request"]) = "xmlHttpRequest" /\
  render_as_camel_case (true, ["xml"; "http"; "request"]) = "XmlHttpRequest".
Proof. repeat split. Qed.

Lemma join_split sep s : join (String sep "") (split sep s) = s.
Proof.
  induction s as [|c s IH]; [reflexivity |]. cbn [split].
  destruct (Ascii.eqb_spec c sep) as [->|Hne].
  - destruct (split sep s) as [|x l] eqn:E; [now apply split_nonnil in E |].
    change (join (String sep "") ("" :: x :: l))
      with (String sep (join (String sep "") (x :: l))).
    now rewrite IH.
  - destruct (split sep s) as [|x l] eqn:E; [now apply split_nonnil in E |].
    destruct l as [|y l].
    + simpl in *. now rewrite IH.
    + change (join (String sep "") (String c x :: y :: l))
        with (String c (join (String sep "") (x :: y :: l))).
      now rewrite IH.
Qed.

(** Splitting a snake-case identifier into tokens and rendering the tokens
    as snake case gives the identifier back, whatever the flag; the token
    list is never empty. *)
Theorem snake_case_round_trip (ident : string) (starts_with_capital : bool) :
  render_as_snake_case (tokenize_snake_case_identifier ident starts_with_capital)
    = ident /\
  (exists t ts, snd (tokenize_snake_case_identifier ident starts_with_capital)
                = t :: ts).
Proof.
  split; [apply join_split |]. cbn [tokenize_snake_case_identifier snd].
  destruct (split "_" ident) as [|t ts] eqn:E; [now apply split_nonnil in E | eauto].
Qed.

















End NamingConvFacts.

(* ===================================================================== *)
(** * Further properties: renderer/__init__.py *)
(* ===================================================================== *)

Module ResolverFacts.
Import JsonPointer Parser Models Renderer.

Lemma resolver_lookup_Some (l : list Schema) (m : gmap JSONPointer Schema) p d :
  foldl (fun m def_ => <[ctx def_ := def_]> m) m l !! p = Some d ->
  (d ∈ l /\ ctx d = p) \/ m !! p = Some d.
Proof.
  revert m. induction l as [|x l IH]; intros m; simpl; [now right |].
  intros H. destruct (IH _ H) as [[Hin E] | Hm].
  - left. split; [now right | exact E].
  - destruct (decide (ctx x = p)) as [E | Hne].
    + rewrite <- E, lookup_insert_eq in Hm. injection Hm as <-.
      left. split; [now left | exact E].
    + rewrite lookup_insert_ne in Hm by exact Hne. now right.
Qed.

Lemma resolver_lookup_is_Some (l : list Schema) (m : gmap JSONPointer Schema) p :
  (is_Some (m !! p) \/ exists d, d ∈ l /\ ctx d = p) ->
  is_Some (foldl (fun m def_ => <[ctx def_ := def_]> m) m l !! p).
Proof.
  revert m. induction l as [|x l IH]; intros m; simpl.
  - intros [H | (d & Hd & _)]; [exact H | now apply elem_of_nil in Hd].
  - intros H. apply IH.
    destruct (decide (ctx x = p)) as [<- | Hne].
    + left. rewrite lookup_insert_eq. eauto.
    + rewrite lookup_insert_ne by exact Hne.
      destruct H as [H | (d & [-> | Hd]%elem_of_cons & E)];
        [now left | congruence | right; eauto].
Qed.

(** The resolver built from a contract resolves an address exactly when
    some definition of the contract sits at that address, and then to such
    a definition; every failure is the unresolved-reference error for the
    address asked; a concrete schema resolves to itself. *)
Theorem resolver_finds_exactly_the_definitions (spec : OpenAPISpec) (p : JSONPointer) :
  ((exists d, resolve (build_schema_resolver spec) p = Ok d) <->
   exists d, d ∈ Dict.values (definitions spec) /\ ctx d = p) /\
  (forall d, resolve (build_schema_resolver spec) p = Ok d ->
             d ∈ Dict.values (definitions spec) /\ ctx d = p) /\
  (forall e, resolve (build_schema_resolver spec) p = Raise e ->
             e = UnresolvedRefError p) /\
  (forall s, resolve_if_ref (build_schema_resolver spec) (inl s) = Ok s).
Proof.
  unfold resolve.
  assert (Hfound : forall d,
            build_schema_resolver spec !! p = Some d ->
            d ∈ Dict.values (definitions spec) /\ ctx d = p).
  { intros d H. apply resolver_lookup_Some in H as [H | H]; [exact H |].
    unfold build_schema_resolver, SchemaResolver in *.
    now rewrite lookup_empty in H. }
  split; [| split; [| split]].
  - split.
    + intros [d H]. exists d. apply Hfound.
      destruct (build_schema_resolver spec !! p); [congruence | discriminate].
    + intros H.
      assert (Hs : is_Some (build_schema_resolver spec !! p))
        by (apply resolver_lookup_is_Some; now right).
      destruct (build_schema_resolver spec !! p) as [d|]; [eauto | now destruct Hs].
  - intros d H. apply Hfound.
    destruct (build_schema_resolver spec !! p); [congruence | discriminate].
  - intros e. destruct (build_schema_resolver spec !! p); [discriminate | congruence].
  - reflexivity.
Qed.

End ResolverFacts.

Module EmissionFacts.
Import JsonPointer Parser Models Renderer Samples WeightFacts.

Lemma sum_list_nonneg l : Forall (fun v => (0 <= v)%Z) l -> (0 <= sum_list l)%Z.
Proof. induction 1 as [|v l Hv _ IH]; simpl; lia. Qed.

Lemma sum_list_elem l v :
  Forall (fun v => (0 <= v)%Z) l -> v ∈ l -> (v <= sum_list l)%Z.
Proof.
  induction 1 as [|x l Hx Hl IH]; intros Hv; [now apply elem_of_nil in Hv |].
  pose proof (sum_list_nonneg l Hl).
  apply elem_of_cons in Hv as [-> | Hv]; simpl; [lia | specialize (IH Hv); lia].
Qed.

Lemma weight_spec_nonneg heap depth d : (0 <= weight_spec heap depth d)%Z.
Proof.
  revert d. induction depth as [|depth IH]; intros d; simpl; [lia |].
  destruct (heap !! d) as [descr|]; [| lia].
  assert (0 <= sum_list (map (weight_spec heap depth) (owners descr)))%Z; [| lia].
  apply sum_list_nonneg, List.Forall_forall. intros v Hv.
  apply in_map_iff in Hv as (o & <- & _). apply IH.
Qed.

Section Order.
Variable heap : list SerializerDescriptor.
Variable rank : ObjectID -> nat.
Hypothesis owners_below :
  forall d descr o, heap !! d = Some descr -> o ∈ owners descr ->
                    is_Some (heap !! o) /\ rank o < rank d.

(** A descriptor weighs at least one, and more than each of its owners. *)
Lemma weight_above_owner d descr o :
  heap !! d = Some descr -> o ∈ owners descr ->
  (1 <= weight heap rank o < weight heap rank d)%Z.
Proof.
  intros Hd Ho. destruct (owners_below d descr o Hd Ho) as [[odescr Hod] _].
  split.
  - rewrite (weight_equation heap rank owners_below o odescr Hod).
    assert (0 <= sum_list (map (weight heap rank) (owners odescr)))%Z; [| lia].
    apply sum_list_nonneg, List.Forall_forall. intros v Hv.
    apply in_map_iff in Hv as (x & <- & _). apply weight_spec_nonneg.
  - rewrite (weight_equation heap rank owners_below d descr Hd).
    assert (weight heap rank o <= sum_list (map (weight heap rank) (owners descr)))%Z;
      [| lia].
    apply sum_list_elem.
    + apply List.Forall_forall. intros v Hv.
      apply in_map_iff in Hv as (x & <- & _). apply weight_spec_nonneg.
    + now apply list_elem_of_fmap_2.
Qed.
End Order.

Lemma StronglySorted_lookup {A} (R : A -> A -> Prop) l i j a b :
  StronglySorted R l -> i < j -> l !! i = Some a -> l !! j = Some b -> R a b.
Proof.
  intros Hs. revert i j. induction Hs as [|x l Hl IH Hx]; intros i j Hij Hi Hj.
  - now destruct i.
  - destruct j as [|j]; [lia |]. destruct i as [|i].
    + injection Hi as <-. rewrite List.Forall_forall in Hx. apply Hx.
      simpl in Hj. apply list_elem_of_In. eapply list_elem_of_lookup_2, Hj.
    + simpl in Hi, Hj. apply (IH i j); [lia | exact Hi | exact Hj].
Qed.

Lemma emission_order_sorted (st : Store) (rank : ObjectID -> nat) :
  (forall d descr o, heap st !! d = Some descr -> o ∈ owners descr ->
                     is_Some (heap st !! o) /\ rank o < rank d) ->
  Forall (fun d => is_Some (heap st !! d)) (Dict.values (serializers st)) ->
  exists fuel0, forall fuel, fuel0 <= fuel ->
    render_serializers_order fuel st
    = Ok (sorted (fun d => (- weight (heap st) rank d)%Z)
            (Dict.values (serializers st))).
Proof.
  intros Hown Hreg. destruct (rank_bound (heap st) rank) as [b Hb].
  exists b. intros fuel Hfuel. unfold render_serializers_order, eval_weights.
  rewrite (eval_weights_from_correct _ _ Hown).
  - simpl.
    rewrite (sorted_map (fun d => (d, weight (heap st) rank d))
               (fun pair : ObjectID * Z => (- snd pair)%Z)).
    rewrite map_map. simpl. now rewrite map_id.
  - eapply List.Forall_impl; [| exact Hreg]. intros d Hd. simpl.
    split; [exact Hd |]. specialize (Hb d Hd). lia.
  - intros d v. now rewrite lookup_empty.
Qed.

(** In an acyclic store the emission order is a topological order of the
    ownership graph: with enough fuel the order is returned, and in it a
    descriptor always comes before each of its owners. *)
Theorem emission_puts_owned_before_owner (st : Store) (rank : ObjectID -> nat) :
  (forall d descr o, heap st !! d = Some descr -> o ∈ owners descr ->
                     is_Some (heap st !! o) /\ rank o < rank d) ->
  Forall (fun d => is_Some (heap st !! d)) (Dict.values (serializers st)) ->
  exists fuel0, forall fuel, fuel0 <= fuel ->
    exists order,
      render_serializers_order fuel st = Ok order /\
      forall i j d o descr,
        order !! i = Some d -> order !! j = Some o ->
        heap st !! d = Some descr -> o ∈ owners descr -> i < j.
Proof.
  intros Hown Hreg.
  destruct (emission_order_sorted st rank Hown Hreg) as [fuel0 Hrun].
  exists fuel0. intros fuel Hfuel. eexists. split; [apply Hrun, Hfuel |].
  intros i j d o descr Hi Hj Hd Ho.
  destruct (weight_above_owner (heap st) rank Hown d descr o Hd Ho) as [_ Hlt].
  pose proof (sorted_sorted (fun d => (- weight (heap st) rank d)%Z)
                (Dict.values (serializers st))) as Hs.
  destruct (Nat.lt_trichotomy i j) as [Hij | [-> | Hji]]; [exact Hij | |].
  - rewrite Hi in Hj. injection Hj as ->. lia.
  - pose proof (StronglySorted_lookup _ _ j i o d Hs Hji Hj Hi) as Hle.
    simpl in Hle. lia.
Qed.

Lemma emission_basket_witness :
  exists fuel0, forall fuel, fuel0 <= fuel ->
    exists order,
      render_serializers_order fuel basket_store = Ok order /\
      forall i j d o descr,
        order !! i = Some d -> order !! j = Some o ->
        heap basket_store !! d = Some descr -> o ∈ owners descr -> i < j.
Proof.
  apply (emission_puts_owned_before_owner basket_store basket_rank).
  - intros d descr o Hd Ho.
    destruct d as [|[|[|[|d]]]]; try discriminate Hd; injection Hd as <-;
      simpl in Ho;
      repeat (apply elem_of_cons in Ho as [-> | Ho]);
      try (now apply elem_of_nil in Ho);
      (split; [eexists; reflexivity | simpl; lia]).
  - repeat constructor; eexists; reflexivity.
Defined.

End EmissionFacts.

Module ClosureFacts.
Import JsonPointer Parser Models Renderer Samples DictFacts QualifyFacts.

Lemma values_set_new {K V} `{EqDecision K} (d : Dict.t K V) k v :
  Dict.get d k = None -> Dict.values (Dict.set d k v) = Dict.values d ++ [v].
Proof.
  intros H. rewrite (set_new d k v H). unfold Dict.values. now rewrite map_app.
Qed.

Lemma store_closed_empty : store_closed empty_store.
Proof.
  split; [| split]; [intros i d o H; now destruct i | constructor |
                     intros i d H; now destruct i].
Qed.

Lemma extends_live st st' o :
  store_extends st st' -> is_Some (heap st !! o) -> is_Some (heap st' !! o).
Proof.
  intros [H _] [d Hd]. destruct (H o d Hd) as (d' & Hd' & _). eauto.
Qed.

Lemma get_or_create_closed st schema name me st1 :
  store_closed st ->
  get_or_create st schema name (marker_of schema) = (me, st1) ->
  gets_descriptor schema = true ->
  store_closed st1.
Proof.
  intros (Ho & Hv & Hd). unfold get_or_create.
  destruct (Dict.get (serializers st) (ctx schema)) as [i|] eqn:Eg.
  - intros [= <- <-] _. now split.
  - unfold new_descriptor. intros [= <- <-] Hg.
    assert (Hlive : forall o, is_Some (heap st !! o) ->
                              is_Some ((heap st ++ [ {| sd_schema := schema;
                                sd_name := name; owners := [];
                                many := marker_of schema |} ]) !! o)).
    { intros o [d Hod]. exists d.
      rewrite lookup_app_l; [exact Hod | now apply lookup_lt_Some in Hod]. }
    split; [| split]; cbn [heap serializers].
    + intros i d o Hi Hin. apply lookup_app_Some in Hi as [Hi | [_ Hi]].
      * apply Hlive. eapply Ho; eassumption.
      * destruct (i - length (heap st)) as [|n]; [| now destruct n].
        injection Hi as <-. now apply elem_of_nil in Hin.
    + rewrite (values_set_new _ _ _ Eg). apply Forall_app. split.
      * eapply List.Forall_impl; [| exact Hv]. intros i. apply Hlive.
      * constructor; [| constructor].
        eexists. now rewrite lookup_app_r, Nat.sub_diag by lia.
    + intros i d Hi. apply lookup_app_Some in Hi as [Hi | [_ Hi]].
      * eapply Hd, Hi.
      * destruct (i - length (heap st)) as [|n]; [| now destruct n].
        injection Hi as <-. cbn. split; [constructor | now split].
Qed.

Lemma register_owner_closed st me o :
  store_closed st ->
  (forall o', o = Some o' -> is_Some (heap st !! o')) ->
  store_closed (register_owner st me o).
Proof.
  intros (Ho & Hv & Hd) Hlive. destruct o as [o|]; [| now split].
  specialize (Hlive o eq_refl). cbn [register_owner].
  assert (Hl : forall i, is_Some (heap st !! i) ->
               is_Some (alter (fun d => add_owner_to d o) me (heap st) !! i)).
  { intros i [d Hi]. destruct (decide (me = i)) as [<- | Hne].
    - rewrite list_lookup_alter_eq, Hi. simpl. eauto.
    - rewrite list_lookup_alter_ne by exact Hne. eauto. }
  split; [| split]; cbn [heap serializers].
  - intros i d x Hi Hx. apply Hl. destruct (decide (me = i)) as [<- | Hne].
    + rewrite list_lookup_alter_eq in Hi.
      apply fmap_Some in Hi as (d0 & Hi & ->). cbn [add_owner_to owners] in Hx.
      apply IdentitySetFacts.add_elem_of in Hx as [Hx | ->]; [| exact Hlive].
      eapply Ho; eassumption.
    + rewrite list_lookup_alter_ne in Hi by exact Hne. eapply Ho; eassumption.
  - eapply List.Forall_impl; [| exact Hv]. intros i. apply Hl.
  - intros i d Hi. destruct (decide (me = i)) as [<- | Hne].
    + rewrite list_lookup_alter_eq in Hi.
      apply fmap_Some in Hi as (d0 & Hi & ->).
      destruct (Hd _ _ Hi) as (H1 & H2 & H3). cbn.
      split; [now apply IdentitySetFacts.add_NoDup | now split].
    + rewrite list_lookup_alter_ne in Hi by exact Hne. eapply Hd, Hi.
Qed.

Lemma inner_body_closed q qctx sor st st' :
  keeps_closed q ->
  qualify_child_schemas_inner_body q qctx sor st = Ok st' ->
  store_wf st -> store_closed st ->
  (forall o, owner qctx = Some o -> is_Some (heap st !! o)) ->
  store_closed st'.
Proof.
  intros Hq. unfold qualify_child_schemas_inner_body.
  destruct sor as [schema | r]; [apply Hq |].
  destruct (resolver qctx (ref r)) as [schema|e]; simpl; [| discriminate].
  destruct (def_name schema); apply Hq.
Qed.

Lemma properties_closed q qctx me props st st' :
  preserves q -> keeps_closed q ->
  qualify_properties q qctx me props st = Ok st' ->
  store_wf st -> store_closed st -> is_Some (heap st !! me) ->
  store_closed st'.
Proof.
  intros Hp Hq. revert st. induction props as [|[pn p] props IH]; intros st; simpl.
  - now intros [= <-].
  - destruct (qualify_child_schemas_inner_body q _ p st) as [st1|e] eqn:E1;
      simpl; [| discriminate].
    intros E2 Hwf Hc Hme.
    destruct (inner_body_preserves _ _ _ _ _ Hp E1 Hwf) as [Hwf1 Hext1].
    apply (IH st1 E2 Hwf1).
    + eapply inner_body_closed; try eassumption.
      cbn [owner]. now intros o [= <-].
    + eapply extends_live; eassumption.
Qed.

Lemma body_closed q qctx name schema st st' :
  preserves q -> keeps_closed q ->
  qualify_child_schemas_body q qctx name schema st = Ok st' ->
  store_wf st -> store_closed st ->
  (forall o, owner qctx = Some o -> is_Some (heap st !! o)) ->
  store_closed st'.
Proof.
  intros Hp Hq. unfold qualify_child_schemas_body.
  destruct (type_ schema) eqn:Et; try (now intros [= <-]).
  - (* ARRAY *)
    destruct (items schema) as [it|] eqn:Ei; [| discriminate].
    destruct (is_Definition schema) eqn:Edef.
    + assert (Em : Some (match it with inr r => ref r | inl s => ctx s end)
                   = marker_of schema).
      { unfold marker_of. rewrite Et, Ei. now destruct it. }
      rewrite Em.
      destruct (get_or_create st schema name _) as [me st1] eqn:Eg.
      intros E Hwf Hc Hown.
      destruct (get_or_create_spec _ _ _ _ _ _ Hwf Eg)
        as (Hwf1 & Hext1 & _ & (d1 & Hd1 & _) & _).
      destruct (register_owner_spec st1 me (owner qctx) Hwf1) as (Hwf2 & Hext2 & _).
      assert (Hc1 : store_closed st1).
      { eapply get_or_create_closed; [exact Hc | exact Eg |].
        unfold gets_descriptor. now rewrite Et. }
      assert (Hc2 : store_closed (register_owner st1 me (owner qctx))).
      { apply register_owner_closed; [exact Hc1 |].
        intros o Ho. eapply extends_live; [exact Hext1 | now apply Hown]. }
      eapply inner_body_closed; try eassumption.
      cbn [owner]. intros o [= <-]. eapply extends_live; [exact Hext2 | eauto].
    + intros E Hwf Hc Hown. eapply inner_body_closed; eassumption.
  - (* OBJECT *)
    assert (Em : None = marker_of schema) by (unfold marker_of; now rewrite Et).
    rewrite Em.
    destruct (get_or_create st schema name _) as [me st1] eqn:Eg.
    destruct (properties schema) as [props|]; [| discriminate].
    intros E Hwf Hc Hown.
    destruct (get_or_create_spec _ _ _ _ _ _ Hwf Eg)
      as (Hwf1 & Hext1 & _ & (d1 & Hd1 & _) & _).
    destruct (register_owner_spec st1 me (owner qctx) Hwf1) as (Hwf2 & Hext2 & _).
    assert (Hc1 : store_closed st1).
    { eapply get_or_create_closed; [exact Hc | exact Eg |].
      unfold gets_descriptor. now rewrite Et. }
    assert (Hc2 : store_closed (register_owner st1 me (owner qctx))).
    { apply register_owner_closed; [exact Hc1 |].
      intros o Ho. eapply extends_live; [exact Hext1 | now apply Hown]. }
    eapply properties_closed; try eassumption.
    eapply extends_live; [exact Hext2 | eauto].
Qed.

Lemma qualify_closed fuel : keeps_closed (qualify_child_schemas fuel).
Proof.
  induction fuel as [|fuel IH]; intros qctx name schema st st'; simpl;
    [discriminate |].
  apply body_closed; [apply qualify_preserves | exact IH].
Qed.

Lemma for_each_closed {A} (body : Store -> A -> result exn Store) l st st' :
  (forall s x s', body s x = Ok s' -> store_wf s /\ store_closed s ->
                  store_wf s' /\ store_closed s') ->
  for_each body l st = Ok st' -> store_wf st /\ store_closed st ->
  store_wf st' /\ store_closed st'.
Proof.
  intros Hbody. revert st. induction l as [|x l IH]; intros st; simpl.
  - now intros [= <-].
  - destruct (body st x) as [st1|e] eqn:E; simpl; [| discriminate].
    intros E' H. apply (IH st1 E'). eapply Hbody; eassumption.
Qed.

Lemma build_serializers_closed fuel (spec : OpenAPISpec) r st :
  build_serializers fuel spec r = Ok st -> store_wf st /\ store_closed st.
Proof.
  intros E. unfold build_serializers in E.
  destruct (build_serializers_pass1 spec) as [p1|e]; simpl in E; [| discriminate].
  destruct (for_each (pass2_definition fuel r (important_schema_refs p1)) _ _)
    as [st1|e] eqn:E1; simpl in E; [| discriminate].
  assert (Hq : forall s x s',
            (let! name := definition_name x in
             qualify_child_schemas fuel
               {| resolver := resolve r; owner := None; pname := None |} name x s)
            = Ok s' ->
            store_wf s /\ store_closed s -> store_wf s' /\ store_closed s').
  { intros s x s'. destruct (definition_name x); simpl; [| discriminate].
    intros Eq [Hwf Hc]. split.
    - now apply (qualify_preserves fuel _ _ _ _ _ Eq).
    - apply (qualify_closed fuel _ _ _ _ _ Eq Hwf Hc). discriminate. }
  eapply for_each_closed; [| exact E |].
  - intros s x s'. unfold pass2_pseudo_def.
    destruct (type_ x); try (now intros [= <-]). apply Hq.
  - eapply for_each_closed; [| exact E1 | split; [apply store_wf_empty |
                                                   apply store_closed_empty]].
    intros s x s'. unfold pass2_definition.
    case_bool_decide; [apply Hq | now intros [= <-]].
Qed.

(** Whatever store the graph construction returns is closed: every owner
    and every registered identity is a live descriptor, no owner set holds
    an identity twice, and every descriptor is that of an object or of an
    array definition and carries the collection marker of its schema. *)
Theorem build_serializers_store_closed fuel (spec : OpenAPISpec) r :
  match build_serializers fuel spec r with
  | Ok st => store_wf st /\ store_closed st
  | Raise _ => True
  end.
Proof.
  destruct (build_serializers fuel spec r) as [st|e] eqn:E; [| exact I].
  eapply build_serializers_closed, E.
Qed.

Lemma visit_no_schema ts acc :
  Forall (fun t : Path * Verb * Response => r_schema t.2 = None) ts ->
  for_each visit ts acc = Ok acc.
Proof.
  induction 1 as [|t ts Ht _ IH]; simpl; [reflexivity |].
  unfold visit at 1, pass1_response. now rewrite Ht.
Qed.

Lemma pass2_nothing_important fuel r defs st :
  for_each (pass2_definition fuel r ∅) defs st = Ok st.
Proof.
  induction defs as [|d defs IH]; simpl; [reflexivity |].
  unfold pass2_definition at 1. rewrite bool_decide_eq_false_2; [exact IH |].
  apply not_elem_of_empty.
Qed.

(** A contract in which no response of a flagged verb carries a schema
    yields no serializer at all, whatever definitions it holds and however
    they refer to one another: the store comes back empty, with any fuel. *)
Theorem no_response_schema_no_serializer fuel (spec : OpenAPISpec) r :
  Forall (fun t : Path * Verb * Response => r_schema t.2 = None)
    (flagged_responses spec) ->
  build_serializers fuel spec r = Ok empty_store.
Proof.
  intros H. unfold build_serializers.
  rewrite Pass1Facts.pass1_flat, (visit_no_schema _ _ H). cbn.
  now rewrite pass2_nothing_important.
Qed.

Lemma no_response_schema_witness :
  build_serializers 0
    {| spec_ctx := []; definitions := [ ("Basket", basket); ("Tag", tag) ];
       paths := [ {| path_ctx := []; path := "/widgets/{id}";
                     verbs := [ (DELETE,
                                 operation ["paths"; "/widgets/{id}"] DELETE []
                                   [ ("204", response [] "204" None) ]
                                   (Some "widget_delete")) ] |} ] |}
    sample_resolver
  = Ok empty_store.
Proof.
  apply no_response_schema_no_serializer. vm_compute. repeat constructor.
Defined.

End ClosureFacts.

Module HandlerFacts.
Import PyStr JsonPointer Parser NamingConv Models Renderer.

Lemma scan_verbs_result r sers vs acc :
  match for_each (scan_verb r sers) vs acc with
  | Ok scan =>
      exists vds,
        verb_descrs scan = verb_descrs acc ++ vds /\
        map vd_verb vds = List.filter is_flagged vs /\
        Forall (describes r sers) vds /\
        length (function_names scan) = length (function_names acc) + length vds
  | Raise e =>
      exists v, v ∈ List.filter is_flagged vs /\ success_serializer r sers v = Raise e
  end.
Proof.
  revert acc. induction vs as [|v vs IH]; intros acc.
  - exists []. simpl. rewrite app_nil_r. repeat split; [constructor | lia].
  - cbn [for_each List.filter].
    assert (Hf : is_flagged v = bool_decide (is_Some (function_name v))).
    { unfold is_flagged. now destruct (function_name v). }
    destruct (scan_verb r sers acc v) as [acc1|e] eqn:Esv; unfold scan_verb in Esv;
      destruct (function_name v) as [fname|] eqn:Ef; rewrite Hf; cbn;
      try discriminate; try (injection Esv as <-; apply IH);
      destruct (success_serializer r sers v) as [sd|e'] eqn:Es; simpl in Esv;
      try discriminate; injection Esv as <-;
      [| exists v; split; [now left | exact Es]].
    match goal with |- context [for_each _ vs ?a] => specialize (IH a) end.
    destruct (for_each _ vs _) as [scan|e]; cbn [function_names verb_descrs] in IH.
      * destruct IH as (vds & Hvd & Hvs & Hall & Hlen).
        exists ({| vd_verb := v; serializer_descriptor := sd |} :: vds).
        rewrite Hvd, <- app_assoc. split; [reflexivity |]. cbn [map vd_verb].
        rewrite Hvs. split; [reflexivity |]. split; [now constructor |].
        rewrite Hlen, length_app. simpl. lia.
      * destruct IH as (w & Hw & Ew). exists w. split; [now right | exact Ew].
Qed.

Lemma remove_dups_length_pos {A} `{EqDecision A} (l : list A) c :
  remove_dups l = [c] -> 0 < length l.
Proof. destruct l; [discriminate | simpl; lia]. Qed.

Lemma group_path_result r sers acc (p : Path) :
  match group_path r sers acc p with
  | Ok h =>
      exists vds,
        map vd_verb vds = flagged_verbs p /\ Forall (describes r sers) vds /\
        ((exists name,
            endpoints h = endpoints acc
              ++ [ {| ep_path := p; class_name := name; ep_verbs := vds |} ] /\
            vds <> [] /\ individual_handlers h = individual_handlers acc) \/
         (endpoints h = endpoints acc /\
          individual_handlers h = individual_handlers acc ++ map (pair p) vds))
  | Raise e =>
      exists v, v ∈ flagged_verbs p /\ success_serializer r sers v = Raise e
  end.
Proof.
  unfold group_path, flagged_verbs.
  pose proof (scan_verbs_result r sers (Dict.values (verbs p))
                {| function_names := []; verb_descrs := [] |}) as H.
  destruct (for_each _ _ _) as [scan|e]; [| exact H]. simpl.
  destruct H as (vds & Hvd & Hvs & Hall & Hlen). cbn in Hvd, Hlen. subst vds.
  destruct (remove_dups _) as [|c [|c' cs]] eqn:Ec;
    exists (verb_descrs scan); (split; [exact Hvs |]); (split; [exact Hall |]);
    try (right; now split).
  left. eexists. split; [reflexivity |]. split; [| reflexivity].
  apply remove_dups_length_pos in Ec. rewrite length_map, Hlen in Ec.
  destruct (verb_descrs scan); [simpl in Ec; lia | discriminate].
Qed.

Lemma handled_group_path r sers acc (p : Path) h :
  group_path r sers acc p = Ok h ->
  exists vds,
    map vd_verb vds = flagged_verbs p /\ Forall (describes r sers) vds /\
    handled h ≡ₚ handled acc ++ map (pair p) vds /\
    length (endpoints h) <= S (length (endpoints acc)) /\
    (Forall (fun ep => ep_verbs ep <> []) (endpoints acc) ->
     Forall (fun ep => ep_verbs ep <> []) (endpoints h)).
Proof.
  intros E. pose proof (group_path_result r sers acc p) as H. rewrite E in H.
  destruct H as (vds & Hvs & Hall & [(name & He & Hne & Hi) | [He Hi]]);
    exists vds; (split; [exact Hvs |]); (split; [exact Hall |]);
    unfold handled; rewrite He, Hi.
  - split; [| split].
    + rewrite bind_app. cbn. rewrite app_nil_r, <- !app_assoc.
      apply Permutation_app_head, Permutation_app_comm.
    + rewrite length_app. simpl. lia.
    + intros Hacc. apply Forall_app. split; [exact Hacc |].
      constructor; [exact Hne | constructor].
  - split; [now rewrite app_assoc | split; [lia | auto]].
Qed.

Lemma render_handlers_from r sers ps acc :
  match for_each (group_path r sers) ps acc with
  | Ok h =>
      exists hs : list (Path * VerbDescriptor),
        handled h ≡ₚ handled acc ++ hs /\
        map (fun pv => (pv.1, vd_verb pv.2)) hs
          = (p ← ps; map (pair p) (flagged_verbs p)) /\
        Forall (fun pv => describes r sers pv.2) hs /\
        length (endpoints h) <= length (endpoints acc) + length ps /\
        (Forall (fun ep => ep_verbs ep <> []) (endpoints acc) ->
         Forall (fun ep => ep_verbs ep <> []) (endpoints h))
  | Raise e =>
      exists p v, p ∈ ps /\ v ∈ flagged_verbs p /\
                  success_serializer r sers v = Raise e
  end.
Proof.
  revert acc. induction ps as [|p ps IH]; intros acc.
  - exists []. simpl. rewrite app_nil_r.
    split; [reflexivity |]. split; [reflexivity |].
    split; [constructor |]. split; [lia | auto].
  - cbn [for_each]. pose proof (group_path_result r sers acc p) as Hg.
    destruct (group_path r sers acc p) as [h1|e] eqn:E1; simpl.
    + clear Hg. destruct (handled_group_path _ _ _ _ _ E1)
        as (vds & Hvs & Hall & Hperm & Hlen & Hne).
      specialize (IH h1). destruct (for_each _ ps h1) as [h|e].
      * destruct IH as (hs & Hp & Hm & Ha & Hl & Hn).
        exists (map (pair p) vds ++ hs). split; [| split; [| split; [| split]]].
        -- rewrite Hp, Hperm. now rewrite <- app_assoc.
        -- rewrite map_app, Hm. cbn [mbind]. f_equal.
           rewrite <- Hvs, !map_map. reflexivity.
        -- apply Forall_app. split; [| exact Ha].
           apply Forall_map. exact Hall.
        -- simpl. lia.
        -- auto.
      * destruct IH as (q & v & Hq & Hv & Ev). exists q, v.
        split; [now right | now split].
    + destruct Hg as (v & Hv & Ev). exists p, v. split; [now left | now split].
Qed.

(** The grouping loop of [render] loses and duplicates no handler: when it
    returns, the handlers handed to the templates are, up to order, the
    flagged verbs of the contract, each once with its path and with the
    serializer its ["200"] response finds; there are at most as many
    endpoints as paths and none is without verbs.  When it raises, the
    error is the one the ["200"] response of some flagged verb gives. *)
Theorem render_handlers_conservation (spec : OpenAPISpec) r sers :
  match render_handlers spec r sers with
  | Ok h =>
      map (fun pv => (pv.1, vd_verb pv.2)) (handled h) ≡ₚ flagged_pairs spec /\
      Forall (fun pv => success_serializer r sers (vd_verb pv.2)
                        = Ok (serializer_descriptor pv.2)) (handled h) /\
      length (endpoints h) <= length (paths spec) /\
      Forall (fun ep => ep_verbs ep <> []) (endpoints h)
  | Raise e =>
      exists p v, p ∈ paths spec /\ v ∈ flagged_verbs p /\
                  success_serializer r sers v = Raise e
  end.
Proof.
  unfold render_handlers.
  pose proof (render_handlers_from r sers (paths spec)
                {| endpoints := []; individual_handlers := [] |}) as H.
  destruct (for_each _ _ _) as [h|e]; [| exact H].
  destruct H as (hs & Hp & Hm & Ha & Hl & Hn). cbn in Hp, Hl.
  split; [| split; [| split]].
  - rewrite Hp. unfold flagged_pairs. now rewrite Hm.
  - rewrite Forall_forall in Ha. apply Forall_forall. intros pv Hpv.
    apply (Ha pv). now rewrite <- Hp.
  - exact Hl.
  - apply Hn. constructor.
Qed.

(** The serializer attached to a handler is a live descriptor of the
    store built from the same contract, that of an object or of an array
    definition, and it sits at the address of the schema the handler's
    ["200"] response resolves to; a handler has no serializer only when
    its verb has no ["200"] response or one without schema. *)
Theorem handler_serializers_are_live fuel (spec : OpenAPISpec) r :
  match build_serializers fuel spec r with
  | Ok st =>
      match render_handlers spec r (serializers st) with
      | Ok h =>
          Forall (fun pv : Path * VerbDescriptor =>
            match serializer_descriptor pv.2 with
            | Some d =>
                exists descr resp sor s,
                  heap st !! d = Some descr /\
                  gets_descriptor (sd_schema descr) = true /\
                  Dict.get (responses (vd_verb pv.2)) "200" = Some resp /\
                  r_schema resp = Some sor /\
                  resolve_if_ref r sor = Ok s /\
                  ctx (sd_schema descr) = ctx s
            | None =>
                match Dict.get (responses (vd_verb pv.2)) "200" with
                | Some resp => r_schema resp = None
                | None => True
                end
            end) (handled h)
      | Raise _ => True
      end
  | Raise _ => True
  end.
Proof.
  destruct (build_serializers fuel spec r) as [st|e] eqn:Eb; [| exact I].
  destruct (ClosureFacts.build_serializers_closed _ _ _ _ Eb)
    as [[Hreg _] (_ & _ & Hd)].
  unfold render_handlers.
  pose proof (render_handlers_from r (serializers st) (paths spec)
                {| endpoints := []; individual_handlers := [] |}) as H.
  destruct (for_each _ _ _) as [h|e]; [| exact I].
  destruct H as (hs & Hp & _ & Ha & _). cbn in Hp.
  rewrite Forall_forall in Ha. apply Forall_forall. intros pv Hpv.
  assert (Hdesc : describes r (serializers st) pv.2) by (apply Ha; now rewrite <- Hp).
  unfold describes, success_serializer in Hdesc.
  destruct (Dict.get (responses (vd_verb pv.2)) "200") as [resp|].
  - destruct (r_schema resp) as [sor|] eqn:Es; [| now injection Hdesc as <-].
    destruct (resolve_if_ref r sor) as [sch|e] eqn:Er; simpl in Hdesc;
      [| discriminate].
    destruct (Dict.get (serializers st) (ctx sch)) as [d|] eqn:Eg; [| discriminate].
    injection Hdesc as <-.
    destruct (Hreg _ _ Eg) as (descr & Hh & Hc).
    exists descr, resp, sor, sch. repeat split; try assumption.
    now apply (Hd _ _ Hh).
  - now injection Hdesc as <-.
Qed.

End HandlerFacts.

Module RouteShapeFacts.
Import PyStr PyStrFacts JsonPointer Parser Renderer RouteFacts.

(** The characters of a string. *)
Local Abbreviation chars := list_ascii_of_string.

Lemma chars_cat a b c : In c (chars (cat a b)) <-> In c (chars a) \/ In c (chars b).
Proof.
  induction a as [|x a IH]; simpl; [tauto |]. rewrite IH. tauto.
Qed.

Lemma chars_drop_last a c : In c (chars (drop_last a)) -> In c (chars a).
Proof.
  induction a as [|x a IH]; simpl; [tauto |].
  destruct a as [|y a]; [simpl; tauto |].
  change (chars (String x (drop_last (String y a))))
    with (x :: chars (drop_last (String y a))).
  simpl In at 1. intros [-> | H]; [now left | right; now apply IH].
Qed.

Lemma chars_strip_ends a c : In c (chars (strip_ends a)) -> In c (chars a).
Proof.
  unfold strip_ends. intros H%chars_drop_last.
  destruct a; simpl in *; [tauto | now right].
Qed.

Lemma split_pieces sep s :
  Forall (fun piece => forall c, In c (chars piece) -> c <> sep) (split sep s).
Proof.
  induction s as [|x s IH]; cbn -[Ascii.eqb].
  - constructor; [now intros c Hc | constructor].
  - destruct (Ascii.eqb_spec x sep) as [->|Hne].
    + constructor; [now intros c Hc | exact IH].
    + destruct (split sep s) as [|piece rest].
      * constructor; [| constructor]. intros c Hc. simpl in Hc.
        destruct Hc as [<- | []]. exact Hne.
      * apply Forall_cons in IH as [Hp Hr]. constructor; [| exact Hr].
        intros c Hc. simpl in Hc. destruct Hc as [<- | Hc]; [exact Hne | now apply Hp].
Qed.

Lemma split_join sep l :
  l <> [] ->
  Forall (fun piece => forall c, In c (chars piece) -> c <> sep) l ->
  split sep (join (String sep "") l) = l.
Proof.
  induction l as [|x l IH]; [congruence |]. intros _ Hall.
  apply Forall_cons in Hall as [Hx Hl]. destruct l as [|y l].
  - now apply split_no_sep.
  - change (join (String sep "") (x :: y :: l))
      with (cat x (String sep (join (String sep "") (y :: l)))).
    rewrite (split_cat_sep _ _ _ Hx). f_equal. now apply IH.
Qed.

Lemma render_component_piece d c rc :
  (forall x, In x (chars c) -> x <> "/"%char) ->
  render_component d c = Ok rc ->
  match rc with
  | Some piece => nonempty c = true /\ nonempty piece = true /\
                  forall x, In x (chars piece) -> x <> "/"%char
  | None => nonempty c = false
  end.
Proof.
  intros Hc. unfold render_component.
  destruct (nonempty c) eqn:En; simpl; [| now intros [= <-]].
  destruct (is_placeholder c).
  - destruct (d !! strip_ends c) as [pt|]; [| discriminate].
    destruct (JSON_TYPE_TO_PYTHON_TYPE_MAP pt) as [ppt|]; [| discriminate].
    intros [= <-]. split; [reflexivity |]. split; [reflexivity |].
    intros x Hx. cbn [cat chars In] in Hx.
    destruct Hx as [<- | Hx]; [discriminate |].
    apply chars_cat in Hx as [Hx | Hx].
    + destruct ppt; simpl in Hx; intuition (subst; discriminate).
    + cbn [cat chars In] in Hx. destruct Hx as [<- | Hx]; [discriminate |].
      apply chars_cat in Hx as [Hx | Hx]; [now apply Hc, chars_strip_ends |].
      simpl in Hx. destruct Hx as [<- | []]. discriminate.
  - intros [= <-]. now split.
Qed.

Lemma render_components_pieces d cs rcs :
  Forall (fun c => forall x, In x (chars c) -> x <> "/"%char) cs ->
  render_components d cs = Ok rcs ->
  length rcs = length (List.filter nonempty cs) /\
  Forall (fun piece => nonempty piece = true /\
                       forall x, In x (chars piece) -> x <> "/"%char) rcs.
Proof.
  intros Hcs. revert rcs. induction Hcs as [|c cs Hc Hcs IH]; intros rcs; simpl.
  - intros [= <-]. now split.
  - destruct (render_component d c) as [rc|e] eqn:E; simpl; [| discriminate].
    destruct (render_components d cs) as [rcs'|e]; simpl; [| discriminate].
    intros [= <-]. destruct (IH _ eq_refl) as [Hlen Hall].
    pose proof (render_component_piece _ _ _ Hc E) as Hp.
    destruct rc as [piece|].
    + destruct Hp as (-> & Hp). simpl. split; [now rewrite Hlen |].
      now constructor.
    + rewrite Hp. now split.
Qed.

Lemma path_components_pieces path :
  Forall (fun c => forall x, In x (chars c) -> x <> "/"%char) (path_components path).
Proof.
  unfold path_components. pose proof (split_pieces "/" (Parser.path path)) as H.
  destruct (split "/" (Parser.path path)) as [|[|a c] rest]; [exact H | | exact H].
  now apply Forall_cons in H as [_ H].
Qed.

(** Whatever the parameters, a rendered route has one piece for each
    non-empty component of the path template and no empty piece: it never
    starts or ends with [/] and holds no [//]; a template without a
    non-empty component renders as the empty pattern.  The only failures
    are the unsupported-schema error with the message of the inconsistent
    parameter type, or without message. *)
Theorem route_pattern_shape (path : Path) :
  match render_as_django_url_pattern path with
  | Ok s =>
      (s = "" /\ List.filter nonempty (path_components path) = []) \/
      (Forall (fun piece => nonempty piece = true) (split "/" s) /\
       length (split "/" s) = length (List.filter nonempty (path_components path)))
  | Raise e =>
      e = UnsupportedOpenAPISchema (Some "inconsistent parameter type") \/
      e = UnsupportedOpenAPISchema None
  end.
Proof.
  unfold render_as_django_url_pattern. rewrite collect_parameters_flat.
  destruct (for_each collect_parameter _ _) as [d|e] eqn:Ec; simpl;
    [| left; eapply collect_error, Ec].
  destruct (render_components d (path_components path)) as [rcs|e] eqn:Er; simpl;
    [| right; eapply render_components_error, Er].
  destruct (render_components_pieces _ _ _ (path_components_pieces path) Er)
    as [Hlen Hall].
  destruct rcs as [|piece rcs].
  - left. split; [reflexivity |]. symmetry in Hlen.
    now apply length_zero_iff_nil in Hlen.
  - right. rewrite split_join; [| discriminate |].
    + split; [| exact Hlen]. eapply List.Forall_impl; [| exact Hall]. now intros a [].
    + eapply List.Forall_impl; [| exact Hall]. now intros a [].
Qed.

End RouteShapeFacts.

Module BuildSchemaFacts.
Import PyStr JsonPointer Parser DictFacts Samples.

(** One step of a sequence of bindings: the bound computation returned. *)
Ltac bind_ok x E :=
  match goal with
  | |- rbind ?m _ = Ok _ -> _ =>
      destruct m as [x|] eqn:E; cbn [rbind]; [| discriminate]
  end.

Lemma get_as_object_plain c d name default o :
  get_as_object c (PyDict d) name class_object default = Ok o ->
  match o with
  | Some m => exists its, m = PyDict its /\
                (dict_get d name = Some m \/
                 dict_get d name = None /\ default = Given m)
  | None => dict_get d name = Some PyNone \/
            dict_get d name = None /\ default = Given PyNone
  end.
Proof.
  unfold get_as_object, get_or_default. cbn [py_get rbind].
  destruct (dict_get d name) as [v|].
  - destruct v; cbn; intros [= <-]; eauto.
  - destruct default as [|v]; [discriminate |].
    destruct v; cbn; intros [= <-]; eauto.
Qed.

Lemma build_properties_spec rec c its acc props :
  (forall c' m x, rec c' m = Ok x -> address x = c') ->
  build_properties rec c its acc = Ok props ->
  (forall k, is_Some (Dict.get props k) <->
             is_Some (Dict.get acc k) \/ is_Some (dict_get its k)) /\
  ((forall k x, Dict.get acc k = Some x -> address x = c ++ [k]) ->
   forall k x, Dict.get props k = Some x -> address x = c ++ [k]).
Proof.
  intros Hrec. revert acc. induction its as [|[k v] its IH]; intros acc; simpl.
  - intros [= <-]. split; [| auto]. intros k. split; [auto |].
    intros [H | H]; [exact H | now destruct H].
  - destruct k as [| | | |k| |]; try discriminate.
    destruct (validate_as_object _ _ v) as [m|] eqn:Ev; cbn [rbind]; [| discriminate].
    destruct (rec _ m) as [x|] eqn:Er; cbn [rbind]; [| discriminate].
    intros E. destruct (IH _ E) as [Hk Ha]. apply Hrec in Er. split.
    + intros k'. rewrite Hk. cbn [dict_get].
      destruct (String.eqb_spec k k') as [->|Hne].
      * rewrite get_set_eq. split; intros _; [right | left]; eauto.
      * now rewrite get_set_ne.
    + intros Hacc. apply Ha. intros k' x'.
      destruct (decide (k = k')) as [->|Hne].
      * rewrite get_set_eq. now intros [= <-].
      * rewrite get_set_ne by exact Hne. apply Hacc.
Qed.

Lemma enum_of_value_Ok {E} (values : list (string * E)) x member :
  enum_of_value values x = Ok member ->
  exists t, x = Some t /\ Dict.get values t = Some member.
Proof.
  unfold enum_of_value. destruct x as [t|]; [| discriminate].
  destruct (Dict.get values t) eqn:E'; [| discriminate]. intros [= <-]. eauto.
Qed.

Lemma get_as_str_Ok c d name default x :
  get_as_str c (PyDict d) name default = Ok x ->
  match dict_get d name with
  | Some PyNone => x = None
  | Some (PyStr t) => x = Some t
  | Some _ => False
  | None =>
      match default with
      | Given PyNone => x = None
      | Given (PyStr t) => x = Some t
      | _ => False
      end
  end.
Proof.
  unfold get_as_str, get_or_default. cbn [py_get rbind].
  destruct (dict_get d name) as [v|].
  - destruct v; cbn; intros [= <-]; reflexivity.
  - destruct default as [|v]; [discriminate |].
    destruct v; cbn; intros [= <-]; reflexivity.
Qed.

Lemma body_shape rec c d name s :
  (forall c' m x, rec c' m = Ok x -> address x = c') ->
  build_schema_from_repr_body rec c (PyDict d) name = Ok s ->
  ctx s = c /\ def_name s = name /\
  match dict_get d "type" with
  | Some (PyStr t) => Dict.get JSONType_values t = Some (type_ s)
  | Some _ => False
  | None =>
      match properties s with
      | Some _ => type_ s = OBJECT
      | None => type_ s = ARRAY /\ is_Some (items s)
      end
  end /\
  match properties s with
  | Some props =>
      exists its, dict_get d "properties" = Some (PyDict its) /\
        forall k, (is_Some (Dict.get props k) <-> is_Some (dict_get its k)) /\
                  forall child, Dict.get props k = Some child ->
                                address child = c ++ [k]
  | None => dict_get d "properties" = None \/ dict_get d "properties" = Some PyNone
  end /\
  match items s with
  | Some child =>
      address child = c ++ ["items"] /\
      exists its, dict_get d "items" = Some (PyDict its)
  | None => dict_get d "items" = None \/ dict_get d "items" = Some PyNone
  end.
Proof.
  intros Hrec. unfold build_schema_from_repr_body.
  bind_ok pm Ep. bind_ok im Ei. bind_ok descr Ed. bind_ok tv Et.
  bind_ok ty Ety. bind_ok fmt Ef. bind_ok props Eprops. bind_ok req Er.
  bind_ok its Eits. intros [= <-]. cbn.
  apply get_as_object_plain in Ep, Ei. apply get_as_str_Ok in Et.
  apply enum_of_value_Ok in Ety as (t & -> & Hty).
  split; [reflexivity |]. split; [reflexivity |].
  assert (Hp : match props with
               | Some props =>
                   exists its, pm = Some (PyDict its) /\
                     forall k, (is_Some (Dict.get props k) <-> is_Some (dict_get its k)) /\
                               forall child, Dict.get props k = Some child ->
                                             address child = c ++ [k]
               | None => pm = None
               end).
  { destruct pm as [m|]; [| now injection Eprops as <-].
    destruct Ep as (pits & -> & _). cbn in Eprops.
    destruct (build_properties rec c pits []) as [dd|] eqn:Eb; [| discriminate].
    injection Eprops as <-. exists pits. split; [reflexivity |].
    destruct (build_properties_spec _ _ _ _ _ Hrec Eb) as [Hk Ha].
    intros k. split.
    - rewrite Hk. cbn. split; [intros [H | H]; [now destruct H | exact H] | auto].
    - apply Ha. intros k' x'. discriminate. }
  assert (Hi : match its with
               | Some child => address child = c ++ ["items"] /\
                               exists m, im = Some (PyDict m)
               | None => im = None
               end).
  { destruct im as [m|]; [| now injection Eits as <-].
    destruct Ei as (iits & -> & _).
    destruct (rec _ (PyDict iits)) as [x|] eqn:Ex; [| discriminate].
    injection Eits as <-. split; [now apply Hrec in Ex | eauto]. }
  split; [| split].
  - destruct (dict_get d "type") as [v|] eqn:Etype.
    + destruct v; try contradiction; [discriminate |]. now injection Et as ->.
    + destruct props as [props|].
      * destruct Hp as (pits & -> & _). cbn in Et. injection Et as ->.
        cbn in Hty. now injection Hty as <-.
      * subst pm. destruct its as [child|].
        -- destruct Hi as (_ & m & ->). cbn in Et. injection Et as ->.
           cbn in Hty. injection Hty as <-. split; [reflexivity | eauto].
        -- subst im. contradiction.
  - destruct props as [props|].
    + destruct Hp as (pits & -> & Hk). exists pits. split; [| exact Hk].
      destruct Ep as (? & [= <-] & [H | [_ [=]]]). exact H.
    + subst pm. destruct Ep as [H | [H _]]; auto.
  - destruct its as [child|].
    + destruct Hi as (Ha & m & ->). split; [exact Ha |]. exists m.
      destruct Ei as (? & [= <-] & [H | [_ [=]]]). exact H.
    + subst im. destruct Ei as [H | [H _]]; auto.
Qed.

Lemma resolve_schema_address uq fuel c m x :
  resolve_schema uq fuel c m = Ok x -> address x = c.
Proof.
  destruct fuel as [|fuel]; simpl; [discriminate |].
  bind_ok r Er. destruct r as [r|]; [now intros [= <-] |].
  bind_ok s Es. intros [= <-]. cbn.
  unfold build_schema_from_repr_body in Es. revert Es.
  repeat (let x := fresh "x" in let E := fresh "E" in bind_ok x E).
  now intros [= <-].
Qed.

(** A schema that [build_schema_from_repr] returns sits at the address
    asked and carries the name given; its type is the declared one, or
    object when the mapping has properties, or else array when it has
    items; its properties are keyed as the mapping's, the schema of
    property [k] sitting at [ctx / k], and its element schema at
    [ctx / "items"]. *)
Theorem build_schema_from_repr_shape uq fuel c d name s :
  build_schema_from_repr uq fuel c (PyDict d) name = Ok s ->
  ctx s = c /\ def_name s = name /\
  match dict_get d "type" with
  | Some (PyStr t) => Dict.get JSONType_values t = Some (type_ s)
  | Some _ => False
  | None =>
      match properties s with
      | Some _ => type_ s = OBJECT
      | None => type_ s = ARRAY /\ is_Some (items s)
      end
  end /\
  match properties s with
  | Some props =>
      exists its, dict_get d "properties" = Some (PyDict its) /\
        forall k, (is_Some (Dict.get props k) <-> is_Some (dict_get its k)) /\
                  forall child, Dict.get props k = Some child ->
                                address child = c ++ [k]
  | None => dict_get d "properties" = None \/ dict_get d "properties" = Some PyNone
  end /\
  match items s with
  | Some child =>
      address child = c ++ ["items"] /\
      exists its, dict_get d "items" = Some (PyDict its)
  | None => dict_get d "items" = None \/ dict_get d "items" = Some PyNone
  end.
Proof.
  apply body_shape. intros c' m x. apply resolve_schema_address.
Qed.

Lemma build_schema_from_repr_shape_witness :
  exists s,
    build_schema_from_repr no_escape 2 ["definitions"; "Pet"] pet_repr (Some "Pet")
      = Ok s /\
    ctx s = ["definitions"; "Pet"] /\ def_name s = Some "Pet" /\
    type_ s = OBJECT /\
    (exists props,
       properties s = Some props /\
       map (fun kv => (kv.1, address kv.2)) props
         = [ ("id", ["definitions"; "Pet"; "id"]);
             ("owner", ["definitions"; "Pet"; "owner"]);
             ("tags", ["definitions"; "Pet"; "tags"]) ]).
Proof.
  unfold pet_repr.
  destruct (build_schema_from_repr no_escape 2 ["definitions"; "Pet"] _ (Some "Pet"))
    as [s|e] eqn:E; [| vm_compute in E; discriminate].
  exists s. split; [reflexivity |].
  destruct (build_schema_from_repr_shape _ _ _ _ _ _ E) as (Hc & Hn & Ht & _).
  split; [exact Hc |]. split; [exact Hn |].
  split; [cbn in Ht; now injection Ht |].
  vm_compute in E. injection E as <-. eexists. split; reflexivity.
Defined.

(** A reference wins over whatever else the mapping holds, and needs one
    unit of fuel only; an absent or null [$ref] leaves the mapping to
    [build_schema_from_repr]; a [$ref] that is no string is rejected at
    [ctx / "$ref"].  What is returned sits at the address asked. *)
Theorem resolve_schema_reference_first uq fuel c d :
  match dict_get d "$ref" with
  | Some (PyStr r) =>
      resolve_schema uq (S fuel) c (PyDict d)
      = Ok (inr {| ref_ctx := c; ref := from_string uq r |})
  | Some PyNone | None =>
      resolve_schema uq (S fuel) c (PyDict d)
      = (let! s := build_schema_from_repr uq fuel c (PyDict d) None in Ok (inl s))
  | Some v =>
      resolve_schema uq (S fuel) c (PyDict d)
      = Raise (InvalidSchemaError "value must be a string, got " (Some v)
                 (c ++ ["$ref"]))
  end /\
  match resolve_schema uq fuel c (PyDict d) with
  | Ok x => address x = c
  | Raise _ => True
  end.
Proof.
  split.
  - cbn [resolve_schema]. unfold get_as_str, get_or_default. cbn [py_get rbind].
    destruct (dict_get d "$ref") as [v|]; [destruct v |]; reflexivity.
  - destruct (resolve_schema uq fuel c (PyDict d)) eqn:E; [| exact I].
    eapply resolve_schema_address, E.
Qed.

Lemma get_as_object_error c d name default e :
  get_as_object c (PyDict d) name class_object default = Raise e ->
  exists msg got at_ctx, e = InvalidSchemaError msg got at_ctx.
Proof.
  unfold get_as_object, get_or_default. cbn [py_get rbind].
  destruct (dict_get d name) as [v|].
  - destruct v; cbn; intros [= <-]; eauto.
  - destruct default as [|v]; [cbn; intros [= <-]; eauto |].
    destruct v; cbn; intros [= <-]; eauto.
Qed.

Lemma get_as_str_error c d name default e :
  get_as_str c (PyDict d) name default = Raise e ->
  exists msg got at_ctx, e = InvalidSchemaError msg got at_ctx.
Proof.
  unfold get_as_str, get_or_default. cbn [py_get rbind].
  destruct (dict_get d name) as [v|].
  - destruct v; cbn; intros [= <-]; eauto.
  - destruct default as [|v]; [cbn; intros [= <-]; eauto |].
    destruct v; cbn; intros [= <-]; eauto.
Qed.

Lemma enum_of_value_error {E} (values : list (string * E)) x e :
  enum_of_value values x = Raise e -> e = ValueError.
Proof.
  unfold enum_of_value. destruct x as [t|]; [| now intros [= <-]].
  destruct (Dict.get values t); [discriminate | now intros [= <-]].
Qed.

(** A parameter without a type, or with a null one, is never built,
    whatever else it holds: [JSONType(None)] raises [ValueError], unless
    the schema, the name or the place is rejected first. *)
Theorem parameter_without_type_is_rejected uq fuel c d :
  dict_get d "type" = None \/ dict_get d "type" = Some PyNone ->
  match build_parameter_from_repr uq fuel c (PyDict d) with
  | Ok _ => False
  | Raise e =>
      e = ValueError \/
      exists msg got at_ctx, e = InvalidSchemaError msg got at_ctx
  end.
Proof.
  intros Ht. unfold build_parameter_from_repr.
  destruct (get_as_object c (PyDict d) "schema" _ _) as [sr|e] eqn:E1; cbn [rbind];
    [| right; eapply get_as_object_error, E1].
  destruct (get_as_str c (PyDict d) "name" _) as [nm|e] eqn:E2; cbn [rbind];
    [| right; eapply get_as_str_error, E2].
  destruct (get_as_str c (PyDict d) "in" _) as [iv|e] eqn:E3; cbn [rbind];
    [| right; eapply get_as_str_error, E3].
  destruct (enum_of_value ParameterPlace_values iv) as [pl|e] eqn:E4; cbn [rbind];
    [| left; eapply enum_of_value_error, E4].
  assert (E5 : get_as_str c (PyDict d) "type" (Given PyNone) = Ok None).
  { unfold get_as_str, get_or_default. cbn [py_get rbind].
    now destruct Ht as [-> | ->]. }
  rewrite E5. cbn. now left.
Qed.

Lemma parameter_without_type_witness :
  build_parameter_from_repr no_escape 1 ["paths"; "/pets"; "parameters"]
    body_parameter_repr = Raise ValueError /\
  match build_parameter_from_repr no_escape 1 ["paths"; "/pets"; "parameters"]
          body_parameter_repr with
  | Ok _ => False
  | Raise e =>
      e = ValueError \/
      exists msg got at_ctx, e = InvalidSchemaError msg got at_ctx
  end.
Proof.
  split; [reflexivity |].
  apply (parameter_without_type_is_rejected no_escape 1 _ _). now left.
Defined.

(** An object schema parsed from a mapping without properties, and an
    array schema parsed from one without items, make the qualification
    fail on its assertion, whatever the context and the store. *)
Theorem schema_without_children_fails_qualification uq fuel c d name s :
  build_schema_from_repr uq fuel c (PyDict d) name = Ok s ->
  (type_ s = OBJECT /\
   (dict_get d "properties" = None \/ dict_get d "properties" = Some PyNone)) \/
  (type_ s = ARRAY /\
   (dict_get d "items" = None \/ dict_get d "items" = Some PyNone)) ->
  forall fuel' qctx n st,
    Renderer.qualify_child_schemas (S fuel') qctx n s st = Raise AssertionError.
Proof.
  intros E H fuel' qctx n st.
  destruct (body_shape _ _ _ _ _ (resolve_schema_address uq fuel) E)
    as (_ & _ & _ & Hp & Hi).
  cbn [Renderer.qualify_child_schemas]. unfold Renderer.qualify_child_schemas_body.
  destruct H as [[-> H] | [-> H]].
  - destruct (Renderer.get_or_create st s n None) as [me st1].
    destruct (properties s) as [props|]; [| reflexivity].
    destruct Hp as (its & Hits & _). rewrite Hits in H.
    destruct H as [H | H]; discriminate.
  - destruct (items s) as [child|]; [| reflexivity].
    destruct Hi as (_ & its & Hits). rewrite Hits in H.
    destruct H as [H | H]; discriminate.
Qed.

Lemma schema_without_children_witness :
  exists s,
    build_schema_from_repr no_escape 0 ["definitions"; "Free"]
      (PyDict [ (PyStr "type", PyStr "object") ]) (Some "Free") = Ok s /\
    Renderer.qualify_child_schemas 1 root_context "Free" s Renderer.empty_store
      = Raise AssertionError.
Proof.
  eexists. split; [reflexivity |].
  apply (schema_without_children_fails_qualification no_escape 0
           ["definitions"; "Free"] [ (PyStr "type", PyStr "object") ] (Some "Free"));
    [reflexivity | left; split; [reflexivity | now left]].
Defined.

Lemma validate_elements_strings c i l :
  validate_elements validate_as_string c i (map PyStr l) = Ok l.
Proof.
  revert i. induction l as [|x l IH]; intros i; cbn; [reflexivity |].
  now rewrite IH.
Qed.

Lemma validate_elements_first_bad c i l v rest :
  (forall t, v <> PyStr t) ->
  validate_elements validate_as_string c i (map PyStr l ++ v :: rest)
  = Raise (InvalidSchemaError "value must be a string, got " (Some v)
             (c ++ [py_str_of_nat (i + length l)])).
Proof.
  intros Hv. revert i. induction l as [|x l IH]; intros i; cbn.
  - rewrite Nat.add_0_r. destruct v; try reflexivity. now destruct (Hv s).
  - rewrite IH. cbn. now rewrite Nat.add_succ_r.
Qed.

(** [validate_as_array] with the class [str] takes a list of strings as
    it is and rejects any other list at the index of its first element
    that is no string; it takes a text for a sequence, and returns its
    characters.  With the class [dict] or [object] any sequence passes
    unexamined.  What is no sequence is rejected at the address given. *)
Theorem validate_as_array_by_class c :
  (forall l, validate_as_array c class_str (PyList (map PyStr l)) = Ok l) /\
  (forall l v rest, (forall t, v <> PyStr t) ->
     validate_as_array c class_str (PyList (map PyStr l ++ v :: rest))
     = Raise (InvalidSchemaError "value must be a string, got " (Some v)
                (c ++ [py_str_of_nat (length l)]))) /\
  (forall t, validate_as_array c class_str (PyStr t)
             = Ok (map (fun a => String a "") (list_ascii_of_string t))) /\
  (forall v, is_sequence v = true ->
     validate_as_array c class_dict v = Ok v /\
     validate_as_array c class_object v = Ok v) /\
  (forall class_ v, is_sequence v = false ->
     validate_as_array c class_ v
     = Raise (InvalidSchemaError "value must be an array" None c)).
Proof.
  split; [| split; [| split; [| split]]].
  - intros l. apply validate_elements_strings.
  - intros l v rest Hv. apply (validate_elements_first_bad c 0 l v rest Hv).
  - intros t. cbn. rewrite <- (validate_elements_strings c 0).
    now rewrite map_map.
  - intros v Hv. unfold validate_as_array. rewrite Hv. now split.
  - intros class_ v Hv. unfold validate_as_array. now rewrite Hv.
Qed.


(** The computation did not run out of fuel. *)
Local Abbreviation fueled r := (r <> Raise OutOfFuel).

Lemma bind_fueled {A B} (m : result exn A) (k : A -> result exn B) :
  fueled m -> (forall x, m = Ok x -> fueled (k x)) -> fueled (rbind m k).
Proof.
  destruct m as [x|e]; cbn; [intros _ H; now apply H |].
  intros H _ [= ->]. now apply H.
Qed.

Lemma get_or_default_fueled c m name default :
  fueled (get_or_default c m name default).
Proof.
  unfold get_or_default. destruct m; cbn; try discriminate.
  destruct (dict_get d name); [discriminate |]. now destruct default.
Qed.

Lemma get_as_str_fueled c m name default : fueled (get_as_str c m name default).
Proof.
  unfold get_as_str. apply bind_fueled; [apply get_or_default_fueled |].
  intros v _. now destruct v.
Qed.

Lemma get_as_object_fueled c m name default :
  fueled (get_as_object c m name class_object default).
Proof.
  unfold get_as_object. apply bind_fueled; [apply get_or_default_fueled |].
  intros v _. now destruct v.
Qed.

Lemma validate_elements_fueled c i l :
  fueled (validate_elements validate_as_string c i l).
Proof.
  revert i. induction l as [|x l IH]; intros i; cbn; [discriminate |].
  apply bind_fueled; [now destruct x |]. intros t _.
  apply bind_fueled; [apply IH | discriminate].
Qed.

Lemma get_as_array_fueled c m name default :
  fueled (get_as_array c m name class_str default).
Proof.
  unfold get_as_array. apply bind_fueled; [apply get_or_default_fueled |].
  intros v _. destruct v; try discriminate; cbn;
    (apply bind_fueled; [apply validate_elements_fueled | discriminate]).
Qed.

Lemma enum_of_value_fueled {E} (values : list (string * E)) x :
  fueled (enum_of_value values x).
Proof.
  unfold enum_of_value. destruct x as [t|]; [| discriminate].
  now destruct (Dict.get values t).
Qed.

Lemma depth_entry its k v : In (k, v) its -> depth v < depth (PyDict its).
Proof.
  cbn [depth]. induction its as [|[k0 v0] its IH]; [intros [] |].
  cbn [foldr snd]. intros [[= -> ->] | H]; [lia |].
  specialize (IH H). lia.
Qed.

Lemma dict_get_In d name v : dict_get d name = Some v -> In (PyStr name, v) d.
Proof.
  induction d as [|[k0 v0] d IH]; cbn; [discriminate |].
  destruct k0; try (intros H; right; now apply IH).
  destruct (String.eqb_spec s name) as [->|Hne].
  - intros [= ->]. now left.
  - intros H. right. now apply IH.
Qed.

Lemma build_properties_ext rec1 rec2 c its acc :
  (forall k v c', In (k, v) its -> rec1 c' v = rec2 c' v) ->
  build_properties rec1 c its acc = build_properties rec2 c its acc.
Proof.
  revert acc. induction its as [|[k v] its IH]; intros acc H; [reflexivity |].
  cbn [build_properties]. destruct k; try reflexivity.
  unfold validate_as_object. destruct (negb (is_mapping v)); [reflexivity |].
  cbn. rewrite (H (PyStr s) v _ (or_introl eq_refl)).
  destruct (rec2 _ v); cbn; [| reflexivity].
  apply IH. intros k' v' c' Hin. apply (H k'). now right.
Qed.

Lemma build_properties_fueled rec c its acc :
  (forall k v c', In (k, v) its -> fueled (rec c' v)) ->
  fueled (build_properties rec c its acc).
Proof.
  revert acc. induction its as [|[k v] its IH]; intros acc H; [discriminate |].
  cbn [build_properties]. destruct k; try discriminate.
  unfold validate_as_object. destruct (negb (is_mapping v)); [discriminate |].
  cbn. apply bind_fueled; [apply (H (PyStr s)); now left |].
  intros x _. apply IH. intros k' v' c' Hin. apply (H k'). now right.
Qed.

Lemma body_ext rec1 rec2 c m name :
  (forall c' m', depth m' < depth m -> rec1 c' m' = rec2 c' m') ->
  build_schema_from_repr_body rec1 c m name = build_schema_from_repr_body rec2 c m name.
Proof.
  intros H. destruct m as [| | | | | |d]; try reflexivity.
  unfold build_schema_from_repr_body.
  destruct (get_as_object c (PyDict d) "properties" _ _) as [pm|] eqn:Ep;
    cbn [rbind]; [| reflexivity].
  destruct (get_as_object c (PyDict d) "items" _ _) as [im|] eqn:Ei;
    cbn [rbind]; [| reflexivity].
  apply get_as_object_plain in Ep, Ei.
  destruct (get_as_str c (PyDict d) "description" _); cbn [rbind]; [| reflexivity].
  destruct (get_as_str c (PyDict d) "type" _); cbn [rbind]; [| reflexivity].
  destruct (enum_of_value _ _); cbn [rbind]; [| reflexivity].
  destruct (get_as_str c (PyDict d) "format" _); cbn [rbind]; [| reflexivity].
  assert (HP : forall its, pm = Some (PyDict its) ->
                build_properties rec1 c its [] = build_properties rec2 c its []).
  { intros its ->. destruct Ep as (? & [= <-] & [Hd | [_ [=]]]).
    apply build_properties_ext. intros k v c' Hin. apply H.
    apply dict_get_In, depth_entry in Hd. apply depth_entry in Hin. lia. }
  assert (HI : forall its, im = Some (PyDict its) ->
                rec1 (new_sub_context c "items") (PyDict its)
                = rec2 (new_sub_context c "items") (PyDict its)).
  { intros its ->. destruct Ei as (? & [= <-] & [Hd | [_ [=]]]).
    apply H. now apply dict_get_In, depth_entry in Hd. }
  destruct pm as [pmv|].
  - destruct Ep as (pits & -> & _). cbn [py_items rbind].
    rewrite (HP pits eq_refl).
    destruct (build_properties rec2 c pits []); cbn [rbind]; [| reflexivity].
    destruct (get_as_array _ _ _ _ _); cbn [rbind]; [| reflexivity].
    destruct im as [imv|]; [| reflexivity].
    destruct Ei as (iits & -> & _). now rewrite (HI iits eq_refl).
  - cbn [rbind].
    destruct (get_as_array _ _ _ _ _); cbn [rbind]; [| reflexivity].
    destruct im as [imv|]; [| reflexivity].
    destruct Ei as (iits & -> & _). now rewrite (HI iits eq_refl).
Qed.

Lemma body_fueled rec c m name :
  (forall c' m', depth m' < depth m -> fueled (rec c' m')) ->
  fueled (build_schema_from_repr_body rec c m name).
Proof.
  intros H. destruct m as [| | | | | |d]; try discriminate.
  unfold build_schema_from_repr_body.
  apply bind_fueled; [apply get_as_object_fueled | intros pm Ep].
  apply bind_fueled; [apply get_as_object_fueled | intros im Ei].
  apply get_as_object_plain in Ep, Ei.
  apply bind_fueled; [apply get_as_str_fueled | intros descr _].
  apply bind_fueled; [apply get_as_str_fueled | intros tv _].
  apply bind_fueled; [apply enum_of_value_fueled | intros ty _].
  apply bind_fueled; [apply get_as_str_fueled | intros fmt _].
  apply bind_fueled.
  { destruct pm as [pmv|]; [| discriminate].
    destruct Ep as (pits & -> & [Hd | [_ [=]]]). cbn [py_items rbind].
    apply bind_fueled; [| discriminate].
    apply build_properties_fueled. intros k v c' Hin. apply H.
    apply dict_get_In, depth_entry in Hd. apply depth_entry in Hin. lia. }
  intros props _.
  apply bind_fueled; [apply get_as_array_fueled | intros req _].
  apply bind_fueled; [| discriminate].
  destruct im as [imv|]; [| discriminate].
  destruct Ei as (iits & -> & [Hd | [_ [=]]]).
  apply bind_fueled; [| discriminate].
  apply H. now apply dict_get_In, depth_entry in Hd.
Qed.

Lemma resolve_schema_fuel uq fuel :
  forall c m, depth m < fuel ->
    fueled (resolve_schema uq fuel c m) /\
    forall fuel', fuel <= fuel' ->
      resolve_schema uq fuel' c m = resolve_schema uq fuel c m.
Proof.
  induction fuel as [|fuel IH]; intros c m Hd; [lia |]. split.
  - cbn [resolve_schema].
    apply bind_fueled; [apply get_as_str_fueled | intros r _].
    destruct r; [discriminate |].
    apply bind_fueled; [| discriminate].
    apply body_fueled. intros c' m' Hm. apply IH. lia.
  - intros [|fuel'] Hle; [lia |]. cbn [resolve_schema].
    destruct (get_as_str c m "$ref" _) as [r|]; cbn [rbind]; [| reflexivity].
    destruct r; [reflexivity |].
    rewrite (body_ext (resolve_schema uq fuel') (resolve_schema uq fuel));
      [reflexivity |].
    intros c' m' Hm. apply IH; lia.
Qed.

(** Fuel up to the nesting depth of the mapping is enough for
    [build_schema_from_repr]: it does not run out, and any further fuel
    gives the same outcome, result or error. *)
Theorem build_schema_from_repr_fuel uq c m name fuel :
  depth m <= fuel ->
  match build_schema_from_repr uq fuel c m name with
  | Raise OutOfFuel => False
  | _ => True
  end /\
  forall fuel', fuel <= fuel' ->
    build_schema_from_repr uq fuel' c m name
    = build_schema_from_repr uq fuel c m name.
Proof.
  intros Hd. split.
  - assert (H : fueled (build_schema_from_repr uq fuel c m name)).
    { apply body_fueled. intros c' m' Hm. apply resolve_schema_fuel. lia. }
    destruct (build_schema_from_repr uq fuel c m name) as [s|[]]; auto.
  - intros fuel' Hle. apply body_ext. intros c' m' Hm.
    apply resolve_schema_fuel; lia.
Qed.

Lemma build_schema_from_repr_fuel_witness :
  depth pet_repr = 4 /\
  build_schema_from_repr no_escape 9 ["definitions"; "Pet"] pet_repr (Some "Pet")
  = build_schema_from_repr no_escape 4 ["definitions"; "Pet"] pet_repr (Some "Pet").
Proof.
  split; [reflexivity |].
  apply (build_schema_from_repr_fuel no_escape ["definitions"; "Pet"] pet_repr
           (Some "Pet") 4); [vm_compute; lia | lia].
Defined.

End BuildSchemaFacts.

Module CodegenMore.
Import PyStr JsonPointer Parser Models Renderer Codegen.

Lemma default_registry_lookup t f :
  DefaultNodeBuilderRegistry default_registry_mapping t f
  = Ok (match t with
        | NUMBER => BuildFloatField
        | INTEGER => BuildIntegerField
        | STRING => BuildCharField
        | BOOLEAN => BuildBooleanField
        | ARRAY => BuildListSerializer
        | OBJECT => BuildNestedSerializer
        end).
Proof.
  unfold DefaultNodeBuilderRegistry.
  assert (H : forall x, Dict.get default_registry_mapping (t, Some x) = None).
  { intros x. cbn. repeat (rewrite decide_False by discriminate). reflexivity. }
  destruct f as [x|]; [rewrite H |]; now destruct t.
Qed.

(** The default registry has a constructor for every type whatever the
    format, chosen by the type alone: the format of a schema never changes
    the field built, and the decimal field is never chosen. *)
Theorem default_registry_ignores_format t f :
  DefaultNodeBuilderRegistry default_registry_mapping t f
  = DefaultNodeBuilderRegistry default_registry_mapping t None /\
  exists fn,
    DefaultNodeBuilderRegistry default_registry_mapping t f = Ok fn /\
    match fn with BuildDecimalField => False | _ => True end /\
    (fn = BuildNestedSerializer <-> t = OBJECT) /\
    (fn = BuildListSerializer <-> t = ARRAY).
Proof.
  rewrite !default_registry_lookup. split; [reflexivity |].
  eexists. split; [reflexivity |].
  destruct t; (split; [exact I |]); split; split; congruence.
Qed.

Lemma dereference_chain_injective first c1 c2 :
  dereference_chain_from first c1 = dereference_chain_from first c2 -> c1 = c2.
Proof.
  revert first c2. induction c1 as [|k c1 IH]; intros first [|k' c2]; cbn;
    try discriminate; [reflexivity |].
  intros H. injection H as Hk Hr. apply IH in Hr as ->.
  destruct first; now injection Hk as ->.
Qed.

Lemma arglist_children_injective i k1 k2 :
  arglist_children i k1 = arglist_children i k2 -> k1 = k2.
Proof.
  revert i k2. induction k1 as [|[n v] k1 IH]; intros i [|[n' v'] k2];
    cbn [arglist_children].
  - reflexivity.
  - destruct (0 <? i)%nat; intros H; discriminate H.
  - destruct (0 <? i)%nat; intros H; discriminate H.
  - destruct (0 <? i)%nat; cbn [app]; intros H;
      injection H as -> -> Hr; apply IH in Hr as ->; reflexivity.
Qed.

Lemma arglist_children_length i kwargs :
  length (arglist_children i kwargs)
  = 2 * length kwargs - (if (0 <? i)%nat then 0 else 1).
Proof.
  revert i. induction kwargs as [|[n v] kwargs IH]; intros i; cbn [arglist_children].
  - now destruct (0 <? i)%nat.
  - rewrite !length_app, IH. change (0 <? S i)%nat with true.
    destruct (0 <? i)%nat; cbn [length]; lia.
Qed.

(** The tree of a call determines the call: two calls give the same tree
    only when the callee chains and the keyword arguments, names and
    values in order, are the same.  The arguments are separated by
    commas, with none before the first or after the last. *)
Theorem build_python_function_call_injective callee1 kwargs1 callee2 kwargs2 :
  (build_python_function_call callee1 kwargs1
   = build_python_function_call callee2 kwargs2
   <-> callee1 = callee2 /\ kwargs1 = kwargs2) /\
  length (arglist_children 0 kwargs1) = 2 * length kwargs1 - 1.
Proof.
  split; [| apply arglist_children_length]. split; [| now intros [-> ->]].
  unfold build_python_function_call, render_dereference_chain_into_nodes.
  intros H. injection H as H. apply app_inj_tail in H as [Hc Ht].
  injection Ht as Hk. split.
  - eapply dereference_chain_injective, Hc.
  - eapply arglist_children_injective, Hk.
Qed.

(** Under the default registry [build_property], which hands back
    [None], still fails as the constructor it calls does: on a scalar
    schema it never fails; on an object schema it raises [KeyError]
    exactly when no serializer is registered at the schema's address; on
    an array of references it raises the unsupported-schema error when
    the reference has no serializer. *)
Theorem build_property_default_outcomes
    (py_repr : string -> string) (same_object : Schema -> Schema -> bool)
    fuel (st : Store) (schema : Schema) name source aux :
  let nbctx := {| nb_store := st; node_builder_registry := default_registry_mapping |} in
  match type_ schema with
  | OBJECT =>
      build_property py_repr same_object (S fuel) nbctx schema name source aux
      = match serializers_get nbctx (ctx schema) with
        | Some _ => Ok NoneValue
        | None => Raise KeyError
        end
  | ARRAY =>
      match items schema with
      | Some (inr sr) =>
          match serializers_get nbctx (ref sr) with
          | None =>
              build_property py_repr same_object (S fuel) nbctx schema name source aux
              = Raise (UnsupportedOpenAPISchema None)
          | Some _ => True
          end
      | _ => True
      end
  | _ =>
      build_property py_repr same_object (S fuel) nbctx schema name source aux
      = Ok NoneValue
  end.
Proof.
  intros nbctx. cbn [build_property]. subst nbctx. cbn [node_builder_registry].
  rewrite default_registry_lookup.
  destruct (type_ schema) eqn:Et; cbn [rbind call_builder]; try reflexivity.
  - destruct (items schema) as [[s|sr]|] eqn:Ei; try exact I.
    destruct (serializers_get _ (ref sr)) eqn:Es; [exact I |].
    unfold build_list_serializer. now rewrite Ei, Es.
  - unfold build_nested_serializer.
    now destruct (serializers_get _ (ctx schema)).
Qed.

End CodegenMore.
